(** * llm-council: the ranking parser, the rank aggregator and the
      three-stage orchestrator of [src/council.ts], with the prompts and
      the providers they use, embedded in Rocq.

    Strings are JavaScript strings: finite sequences of UTF-16 code units.
    Regular expressions are kept as syntax and run by a backtracking matcher
    that returns its candidates in the order a backtracking engine tries
    them, so that the first candidate is the match JavaScript reports.
    Objects used as maps keep their own properties in creation order and
    inherit from [Object.prototype].  Numbers are doubles where the program
    divides and multiplies, and integers elsewhere.

    For the council a provider is any function that answers a chat request
    or rejects it.  The two providers of [src/providers] are such functions,
    over a [fetch] of which nothing is assumed, and the constructor chooses
    between them.  The progress lines of [log] and the clock readings that
    feed them have no effect on a result and are left out. *)

From Stdlib Require Import String Ascii Floats DecimalString.
From Stdlib Require Import ZArith NArith Bool Lia List.
From Stdlib Require Import Sorting.Sorted Sorting.Permutation.
Import ListNotations.

Set Implicit Arguments.

(** ** JavaScript strings *)

Module Js.

(** A UTF-16 code unit. *)
Definition char := N.

Definition jstr := list char.

(** A string literal of the source, read as code units. *)
Definition u (s : string) : jstr := map N_of_ascii (list_ascii_of_string s).

(** The line feed of the source's [\n]. *)
Definition nl : jstr := [10%N].

(** The double quote character. *)
Definition dq : jstr := [34%N].

Definition c_dot : char := 46%N.

Definition c_comma : char := 44%N.

Definition c_gt : char := 62%N.

Fixpoint str_eqb (a b : jstr) : bool :=
  match a, b with
  | [], [] => true
  | x :: a', y :: b' => N.eqb x y && str_eqb a' b'
  | _, _ => false
  end.

Definition is_digit (c : char) : bool := (N.leb 48 c && N.leb c 57)%bool.

Definition is_upper (c : char) : bool := (N.leb 65 c && N.leb c 90)%bool.

Definition is_lower (c : char) : bool := (N.leb 97 c && N.leb c 122)%bool.

(** The characters of [\w], which decide [\b]. *)
Definition is_word (c : char) : bool :=
  (is_digit c || is_upper c || is_lower c || N.eqb c 95)%bool.

(** The characters of [\s], which are also the ones [trim] removes:
    ECMAScript's WhiteSpace and LineTerminator code points. *)
Definition is_space (c : char) : bool :=
  ((N.leb 9 c && N.leb c 13) || N.eqb c 32 || N.eqb c 160 || N.eqb c 5760
   || (N.leb 8192 c && N.leb c 8202) || N.eqb c 8232 || N.eqb c 8233
   || N.eqb c 8239 || N.eqb c 8287 || N.eqb c 12288 || N.eqb c 65279)%bool.

Fixpoint starts_with (p s : jstr) : bool :=
  match p, s with
  | [], _ => true
  | _ :: _, [] => false
  | x :: p', y :: s' => N.eqb x y && starts_with p' s'
  end.

(** [indexOf_from s p i]: the index of the first occurrence of [p] in [s],
    counted from [i], or [-1]. *)
Fixpoint indexOf_from (s p : jstr) (i : Z) {struct s} : Z :=
  if starts_with p s then i
  else match s with
       | [] => (-1)%Z
       | _ :: s' => indexOf_from s' p (i + 1)
       end.

(** [String.prototype.indexOf]. *)
Definition indexOf (s p : jstr) : Z := indexOf_from s p 0.

(** [String.prototype.includes]. *)
Definition includes (s p : jstr) : bool := negb (Z.eqb (indexOf s p) (-1)).

(** [String.prototype.slice] with one argument; a negative start counts
    from the end. *)
Definition slice (s : jstr) (start : Z) : jstr :=
  let len := Z.of_nat (length s) in
  let k := if (start <? 0)%Z then Z.max (len + start) 0 else Z.min start len in
  skipn (Z.to_nat k) s.

Fixpoint trim_start (s : jstr) : jstr :=
  match s with
  | c :: s' => if is_space c then trim_start s' else s
  | [] => []
  end.

(** [String.prototype.trim]. *)
Definition trim (s : jstr) : jstr := rev (trim_start (rev (trim_start s))).

(** [String.prototype.split] with a separator of one code unit. *)
Fixpoint split (sep : char) (s : jstr) : list jstr :=
  match s with
  | [] => [[]]
  | c :: s' =>
      if N.eqb c sep then [] :: split sep s'
      else match split sep s' with
           | h :: t => (c :: h) :: t
           | [] => [[c]]
           end
  end.

(** [Array.prototype.join]. *)
Fixpoint join (sep : jstr) (l : list jstr) : jstr :=
  match l with
  | [] => []
  | [x] => x
  | x :: t => x ++ sep ++ join sep t
  end.

Definition mem (x : jstr) (l : list jstr) : bool := existsb (str_eqb x) l.

(** [[...new Set(l)]]: a [Set] keeps insertion order and ignores an element
    it already holds. *)
Definition set_add (acc : list jstr) (x : jstr) : list jstr :=
  if mem x acc then acc else acc ++ [x].

Definition set_spread (l : list jstr) : list jstr := fold_left set_add l [].

End Js.

Import Js.

(** ** Regular expressions *)

Module Re.

(** One-character atoms. *)
Inductive atom :=
| Lit (c : char)            (* the character itself *)
| Digit                     (* \d *)
| Space                     (* \s *)
| Upper                     (* [A-Z] *)
| OneOf (cs : list char).   (* [...] *)

Definition atom_ok (a : atom) (c : char) : bool :=
  match a with
  | Lit d => N.eqb c d
  | Digit => is_digit c
  | Space => is_space c
  | Upper => is_upper c
  | OneOf cs => existsb (N.eqb c) cs
  end.

Inductive regex :=
| Eps
| One (a : atom)
| Bol                       (* ^ *)
| Eol                       (* $ *)
| WordB                     (* \b *)
| Seq (a b : regex)
| Alt (a b : regex)
| Star (a : regex)          (* greedy * *)
| Plus (a : regex).         (* greedy + *)

(** A literal string. *)
Fixpoint lits (s : jstr) : regex :=
  match s with
  | [] => Eps
  | [c] => One (Lit c)
  | c :: s' => Seq (One (Lit c)) (lits s')
  end.

(** A candidate: the matched text and what is left of the input. *)
Definition cand := (jstr * jstr)%type.

(** A matcher at a position: [prev] is the character before the position
    ([None] at the start of the input). *)
Definition matcher := option char -> jstr -> list cand.

(** The character before the position reached after reading [w]. *)
Definition last_char (prev : option char) (w : jstr) : option char :=
  fold_left (fun _ c => Some c) w prev.

Definition word_at (o : option char) : bool :=
  match o with Some c => is_word c | None => false end.

Definition seq_ends (ea eb : matcher) : matcher :=
  fun prev s =>
    flat_map
      (fun '(w1, s1) =>
         map (fun '(w2, s2) => (w1 ++ w2, s2)) (eb (last_char prev w1) s1))
      (ea prev s).

(** Greedy iteration: one more round first, stopping second.  A round that
    reads nothing is rejected, as in ECMAScript. *)
Fixpoint star_fuel (step : matcher) (fuel : nat) : matcher :=
  fun prev s =>
    match fuel with
    | O => [([], s)]
    | S f =>
        flat_map
          (fun '(w1, s1) =>
             match w1 with
             | [] => []
             | _ :: _ =>
                 map (fun '(w2, s2) => (w1 ++ w2, s2))
                     (star_fuel step f (last_char prev w1) s1)
             end)
          (step prev s)
        ++ [([], s)]
    end.

Definition star_ends (step : matcher) : matcher :=
  fun prev s => star_fuel step (length s) prev s.

(** All the ways [r] matches at the position, in backtracking order. *)
Fixpoint ends (r : regex) : matcher :=
  match r with
  | Eps => fun _ s => [([], s)]
  | One a => fun _ s =>
      match s with
      | c :: s' => if atom_ok a c then [([c], s')] else []
      | [] => []
      end
  | Bol => fun prev s => match prev with None => [([], s)] | Some _ => [] end
  | Eol => fun _ s => match s with [] => [([], s)] | _ :: _ => [] end
  | WordB => fun prev s =>
      if xorb (word_at prev) (word_at (hd_error s)) then [([], s)] else []
  | Seq a b => seq_ends (ends a) (ends b)
  | Alt a b => fun prev s => ends a prev s ++ ends b prev s
  | Star a => star_ends (ends a)
  | Plus a => seq_ends (ends a) (star_ends (ends a))
  end.

(** The match at this very position, if any. *)
Definition exec_here (r : regex) (prev : option char) (s : jstr) : option cand :=
  hd_error (ends r prev s).

(** The leftmost match at or after the position: the text skipped, the
    match, and the rest. *)
Fixpoint search (r : regex) (prev : option char) (s : jstr)
  : option (jstr * jstr * jstr) :=
  match exec_here r prev s with
  | Some (w, rest) => Some ([], w, rest)
  | None =>
      match s with
      | [] => None
      | c :: s' =>
          match search r (Some c) s' with
          | Some (skipped, w, rest) => Some (c :: skipped, w, rest)
          | None => None
          end
      end
  end.

(** The successive matches of a global regex: each search starts where the
    last match ended, one character further after an empty match. *)
Fixpoint matches_from (fuel : nat) (r : regex) (prev : option char) (s : jstr)
  : list jstr :=
  match fuel with
  | O => []
  | S f =>
      match search r prev s with
      | None => []
      | Some (skipped, w, rest) =>
          match w, rest with
          | [], [] => [w]
          | [], c :: rest' => w :: matches_from f r (Some c) rest'
          | _ :: _, _ =>
              w :: matches_from f r (last_char (last_char prev skipped) w) rest
          end
      end
  end.

(** [s.match(/r/g)]: [None] is JavaScript's [null]. *)
Definition match_g (r : regex) (s : jstr) : option (list jstr) :=
  match matches_from (S (length s)) r None s with
  | [] => None
  | l => Some l
  end.

(** [s.replace(/r/, by)], without the [g] flag: the first match only. *)
Definition replace (r : regex) (s by_ : jstr) : jstr :=
  match search r None s with
  | Some (skipped, _, rest) => skipped ++ by_ ++ rest
  | None => s
  end.

(** [/r/.test(s)]. *)
Definition test (r : regex) (s : jstr) : bool :=
  match search r None s with Some _ => true | None => false end.

(** The texts a regex can match, whatever stands around them: the
    assertions [^], [$] and [\b] read nothing. *)
Inductive lang : regex -> jstr -> Prop :=
| L_eps : lang Eps []
| L_one a c : atom_ok a c = true -> lang (One a) [c]
| L_bol : lang Bol []
| L_eol : lang Eol []
| L_wordb : lang WordB []
| L_seq a b w1 w2 : lang a w1 -> lang b w2 -> lang (Seq a b) (w1 ++ w2)
| L_alt_l a b w : lang a w -> lang (Alt a b) w
| L_alt_r a b w : lang b w -> lang (Alt a b) w
| L_star_nil a : lang (Star a) []
| L_star_more a w1 w2 :
    lang a w1 -> lang (Star a) w2 -> lang (Star a) (w1 ++ w2)
| L_plus a w1 w2 : lang a w1 -> lang (Star a) w2 -> lang (Plus a) (w1 ++ w2).

End Re.

Import Re.

(** ** parseRanking *)

Definition marker : jstr := u "FINAL RANKING:".

(** [/\d+\.\s*/], the ordinal of a list item. *)
Definition ordinal : regex :=
  Seq (Plus (One Digit)) (Seq (One (Lit c_dot)) (Star (One Space))).

(** [/\d+\.\s*Response [A-Z]/g] *)
Definition re_numbered : regex :=
  Seq ordinal (Seq (lits (u "Response ")) (One Upper)).

(** [/^\d+\.\s*/] *)
Definition re_leading_ordinal : regex := Seq Bol ordinal.

(** [/\d+\.\s*[A-Z](?:\s|$|,|\.)/g] *)
Definition re_bare : regex :=
  Seq ordinal
      (Seq (One Upper)
           (Alt (One Space) (Alt Eol (Alt (One (Lit c_comma)) (One (Lit c_dot)))))).

(** [/[,.]$/] *)
Definition re_trailing_punct : regex := Seq (One (OneOf [c_comma; c_dot])) Eol.

(** [/Response [A-Z]/g] *)
Definition re_mention : regex := Seq (lits (u "Response ")) (One Upper).

(** [\s*>\s*([A-Z])] *)
Definition gt_step : regex :=
  Seq (Star (One Space)) (Seq (One (Lit c_gt)) (Seq (Star (One Space)) (One Upper))).

(** [/\b([A-Z])\s*>\s*([A-Z])(?:\s*>\s*([A-Z]))*/g] *)
Definition re_gt : regex :=
  Seq WordB (Seq (One Upper) (Seq gt_step (Star gt_step))).

(** [/^[A-Z]$/] *)
Definition re_single_upper : regex := Seq Bol (Seq (One Upper) Eol).

(** [(m) => m.replace(/^\d+\.\s*/, '')] *)
Definition strip_ordinal (m : jstr) : jstr := replace re_leading_ordinal m [].

(** [(m) => `Response ${m.replace(/^\d+\.\s*/, '').trim().replace(/[,.]$/, '')}`] *)
Definition bare_label (m : jstr) : jstr :=
  u "Response " ++ replace re_trailing_punct (trim (strip_ordinal m)) [].

(** The block guarded by [finalRankingIdx !== -1]: [Some] is a [return]. *)
Definition headered (section : jstr) : option (list jstr) :=
  match match_g re_numbered section with
  | Some ((_ :: _) as matches) => Some (map strip_ordinal matches)
  | _ =>
      match match_g re_bare section with
      | Some ((_ :: _) as bareMatches) => Some (map bare_label bareMatches)
      | _ => None
      end
  end.

(** Strategy 4, the [>] chain. *)
Definition gt_chain (text : jstr) : list jstr :=
  match match_g re_gt text with
  | Some gtPattern =>
      let letters := map trim (split c_gt (hd [] gtPattern)) in
      if forallb (test re_single_upper) letters
      then map (fun l => u "Response " ++ l) letters
      else []
  | None => []
  end.

(** What follows the [finalRankingIdx] block: strategies 2, 3 and 4. *)
Definition unheadered (text : jstr) : list jstr :=
  match match_g re_numbered text with
  | Some ((_ :: _) as numberedResponses) => map strip_ordinal numberedResponses
  | _ =>
      match match_g re_mention text with
      | Some ((_ :: _) as mentions) => set_spread mentions
      | _ => gt_chain text
      end
  end.

Definition parseRanking (text : jstr) : list jstr :=
  let finalRankingIdx := indexOf text marker in
  match (if Z.eqb finalRankingIdx (-1) then None
         else headered (slice text finalRankingIdx)) with
  | Some r => r
  | None => unheadered text
  end.

(** ** Objects used as maps

    [labelToModel] and [modelRanks] are object literals used as maps.  An
    object is held by its own properties in creation order; reading a key it
    does not own falls through to [Object.prototype]. *)

Module Obj.

Definition obj (V : Type) := list (jstr * V).

Fixpoint get_own V (o : obj V) (k : jstr) : option V :=
  match o with
  | [] => None
  | (k', v) :: o' => if str_eqb k' k then Some v else get_own o' k
  end.

(** [o[k] = v] for a key other than [__proto__]: an own property keeps its
    place, a new one goes last. *)
Fixpoint set_own V (o : obj V) (k : jstr) (v : V) : obj V :=
  match o with
  | [] => [(k, v)]
  | (k', v') :: o' =>
      if str_eqb k' k then (k', v) :: o' else (k', v') :: set_own o' k v
  end.

(** The property names of [Object.prototype]. *)
Definition proto_keys : list jstr :=
  map u ["constructor"; "__defineGetter__"; "__defineSetter__";
         "hasOwnProperty"; "__lookupGetter__"; "__lookupSetter__";
         "isPrototypeOf"; "propertyIsEnumerable"; "toString"; "valueOf";
         "__proto__"; "toLocaleString"]%string.

Definition inherited (k : jstr) : bool := mem k proto_keys.

(** [String(Object.prototype[k])] for an inherited [k], as V8 prints it: the
    prototype object itself for [__proto__], a native function otherwise. *)
Definition proto_text (k : jstr) : jstr :=
  if str_eqb k (u "__proto__") then u "[object Object]"
  else u "function "
         ++ (if str_eqb k (u "constructor") then u "Object" else k)
         ++ u "() { [native code] }".

(** The value of a key that is an array index: a canonical decimal numeral
    below [2^32 - 1]. *)
Definition numeral (k : jstr) : N :=
  fold_left (fun acc c => (acc * 10 + (c - 48))%N) k 0%N.

Definition array_index (k : jstr) : option N :=
  match k with
  | [] => None
  | c :: k' =>
      if (forallb is_digit k
          && (negb (N.eqb c 48) || match k' with [] => true | _ => false end)
          && Nat.leb (length k) 10
          && N.ltb (numeral k) 4294967295)%bool
      then Some (numeral k)
      else None
  end.

Fixpoint insert_index V (i : N) (kv : jstr * V) (l : list (N * (jstr * V)))
  : list (N * (jstr * V)) :=
  match l with
  | [] => [(i, kv)]
  | (j, kv') :: l' =>
      if N.ltb i j then (i, kv) :: l else (j, kv') :: insert_index i kv l'
  end.

(** The own properties whose keys are array indices, in ascending order. *)
Fixpoint index_props V (o : obj V) : list (N * (jstr * V)) :=
  match o with
  | [] => []
  | (k, v) :: o' =>
      match array_index k with
      | Some i => insert_index i (k, v) (index_props o')
      | None => index_props o'
      end
  end.

Definition is_named V (kv : jstr * V) : bool :=
  match array_index (fst kv) with Some _ => false | None => true end.

(** [Object.entries]: array-index keys first, in ascending order, then the
    other keys in creation order. *)
Definition entries V (o : obj V) : list (jstr * V) :=
  map snd (index_props o) ++ filter (@is_named V) o.

End Obj.

Import Obj.

(** ** Results and exceptions *)

(** A thrown value: an [Error] with its message, or any other value, held
    by what [String] makes of it. *)
Inductive thrown :=
| ErrorObj (message : jstr)
| Other (text : jstr).

(** [err instanceof Error ? err.message : String(err)] *)
Definition err_text (err : thrown) : jstr :=
  match err with
  | ErrorObj message => message
  | Other text => text
  end.

Inductive outcome (A : Type) :=
| Returns (a : A)
| Throws (err : thrown).

Arguments Returns {A} a.
Arguments Throws {A} err.

Definition map_outcome A B (f : A -> B) (o : outcome A) : outcome B :=
  match o with
  | Returns a => Returns (f a)
  | Throws e => Throws e
  end.

(** ** The data of [types.ts] *)

Module Types.

Record Stage1Entry := { s1_model : jstr; s1_response : jstr }.

Record Stage2Ranking :=
  { s2_model : jstr; evaluation : jstr; parsed_ranking : list jstr }.

(** [average_rank] is the double [Math.round(v) / 100].  It is held here by
    the integer [Math.round(v)], its number of hundredths: [133] stands for
    the double nearest to 1.33.  Nothing is lost: for integers of this size
    the quotients by 100 are equal, or ordered, exactly as the integers
    are, and the difference of two doubles has the sign of their order. *)
Record AggregateRanking :=
  { ag_model : jstr; average_rank : Z; rankings_count : nat }.

Record Stage2Result :=
  { rankings : list Stage2Ranking;
    label_to_model : obj jstr;
    aggregate_rankings : list AggregateRanking }.

Record Stage3Result := { s3_model : jstr; s3_response : jstr }.

Record CouncilResult :=
  { query : jstr;
    stage1 : option (list Stage1Entry);
    stage2 : option Stage2Result;
    stage3 : option Stage3Result;
    error : option jstr }.

Inductive role := user | assistant | system.

Record ChatMessage := { msg_role : role; content : jstr }.

End Types.

Import Types.

(** ** calculateAggregateRankings *)

(** An integer as a double; the conversion is exact below [2^53], which a
    sum of ranks or a length never reaches. *)
Definition to_float (z : Z) : float := PrimFloat.of_uint63 (Uint63.of_Z z).

(** [Math.round] of a finite double, read from its sign, mantissa and
    exponent: the nearest integer, the upper one of two equally near.  The
    argument is never infinite or NaN here, a list of ranks being filed
    with its first rank. *)
Definition Math_round (x : float) : Z :=
  match Prim2SF x with
  | S754_finite s m e =>
      let v := if s then Z.neg m else Z.pos m in
      if (0 <=? e)%Z then (v * 2 ^ e)%Z
      else ((v + 2 ^ (- e - 1)) / 2 ^ (- e))%Z
  | _ => 0%Z
  end.

(** [ranks.reduce((a, b) => a + b, 0)] *)
Definition sum_ranks (ranks : list Z) : Z := fold_left Z.add ranks 0%Z.

(** [Math.round((sum / ranks.length) * 100)], in double arithmetic. *)
Definition average_hundredths (ranks : list Z) : Z :=
  Math_round
    (PrimFloat.mul
       (PrimFloat.div (to_float (sum_ranks ranks))
                      (to_float (Z.of_nat (length ranks))))
       (to_float 100)).

(** The message of the [TypeError] V8 raises when [modelRanks[model]] is an
    inherited property, which has no [push]. *)
Definition push_type_error : thrown :=
  ErrorObj (u "modelRanks[model].push is not a function").

(** [labelToModel[label]] followed by [if (model)]: the key under which the
    rank is filed, if the value is truthy.  An own value is a string, truthy
    unless empty; an inherited one is an object, used as a key through
    [String]. *)
Definition truthy_model (labelToModel : obj jstr) (label : jstr) : option jstr :=
  match get_own labelToModel label with
  | Some [] => None
  | Some model => Some model
  | None => if inherited label then Some (proto_text label) else None
  end.

(** [if (!modelRanks[model]) modelRanks[model] = []; modelRanks[model].push(rank)] *)
Definition push_rank (modelRanks : obj (list Z)) (model : jstr) (rank : Z)
  : outcome (obj (list Z)) :=
  match get_own modelRanks model with
  | Some ranks => Returns (set_own modelRanks model (ranks ++ [rank]))
  | None =>
      if inherited model then Throws push_type_error
      else Returns (modelRanks ++ [(model, [rank])])
  end.

(** The inner loop, from index [i] on. *)
Fixpoint rank_labels (labelToModel : obj jstr) (labels : list jstr) (i : Z)
  (modelRanks : obj (list Z)) : outcome (obj (list Z)) :=
  match labels with
  | [] => Returns modelRanks
  | label :: labels' =>
      match truthy_model labelToModel label with
      | Some model =>
          match push_rank modelRanks model (i + 1) with
          | Returns modelRanks' =>
              rank_labels labelToModel labels' (i + 1) modelRanks'
          | Throws e => Throws e
          end
      | None => rank_labels labelToModel labels' (i + 1) modelRanks
      end
  end.

(** The outer loop. *)
Fixpoint rank_all (labelToModel : obj jstr) (rs : list Stage2Ranking)
  (modelRanks : obj (list Z)) : outcome (obj (list Z)) :=
  match rs with
  | [] => Returns modelRanks
  | ranking :: rs' =>
      match rank_labels labelToModel (parsed_ranking ranking) 0 modelRanks with
      | Returns modelRanks' => rank_all labelToModel rs' modelRanks'
      | Throws e => Throws e
      end
  end.

Definition aggregate (entry : jstr * list Z) : AggregateRanking :=
  let '(model, ranks) := entry in
  {| ag_model := model;
     average_rank := average_hundredths ranks;
     rankings_count := length ranks |}.

(** [(a, b) => a.average_rank - b.average_rank], in hundredths. *)
Definition by_average (a b : AggregateRanking) : Z :=
  (average_rank a - average_rank b)%Z.

(** [Array.prototype.sort] is stable, and a comparator that orders by a key
    leaves one stable arrangement, whatever algorithm the engine runs;
    insertion from the right computes it. *)
Fixpoint sort_insert A (cmp : A -> A -> Z) (x : A) (l : list A) : list A :=
  match l with
  | [] => [x]
  | y :: l' =>
      if (0 <? cmp x y)%Z then y :: sort_insert cmp x l' else x :: l
  end.

Fixpoint sort A (cmp : A -> A -> Z) (l : list A) : list A :=
  match l with
  | [] => []
  | x :: l' => sort_insert cmp x (sort cmp l')
  end.

Definition calculateAggregateRankings (rankings : list Stage2Ranking)
  (labelToModel : obj jstr) : outcome (list AggregateRanking) :=
  match rank_all labelToModel rankings [] with
  | Returns modelRanks =>
      let aggregates := map aggregate (entries modelRanks) in
      Returns (sort by_average aggregates)
  | Throws e => Throws e
  end.

(** ** The prompts of [prompts.ts] *)

Definition buildRankingPrompt (query : jstr) (responses : list (jstr * jstr))
  : jstr :=
  let responsesBlock :=
    join (nl ++ nl)
         (map (fun r => fst r ++ u ":" ++ nl ++ snd r) responses) in
  join nl
    [ u "You are evaluating different responses to the following question:";
      [];
      u "Question: " ++ query;
      [];
      u "Here are the responses from different models (anonymized):";
      [];
      responsesBlock;
      [];
      u "Your task:";
      u "1. First, evaluate each response individually. For each response, explain what it does well and what it does poorly.";
      u "2. Then, at the very end of your response, provide a final ranking.";
      [];
      u "IMPORTANT: Your final ranking MUST be formatted EXACTLY as follows:";
      u "- Start with the line " ++ dq ++ u "FINAL RANKING:" ++ dq
        ++ u " (all caps, with colon)";
      u "- Then list the responses from best to worst as a numbered list";
      u "- Each line should be: number, period, space, then ONLY the response label (e.g., "
        ++ dq ++ u "1. Response A" ++ dq ++ u ")";
      u "- Do not add any other text or explanations in the ranking section";
      [];
      u "Example of the correct format:";
      [];
      u "FINAL RANKING:";
      u "1. Response C";
      u "2. Response A";
      u "3. Response B";
      [];
      u "Now provide your evaluation and ranking:" ].

Definition buildChairmanPrompt (query : jstr) (stage1 : list Stage1Entry)
  (stage2 : list Stage2Ranking) : jstr :=
  let responsesBlock :=
    join (nl ++ nl)
         (map (fun r => u "Model: " ++ s1_model r ++ nl
                        ++ u "Response: " ++ s1_response r) stage1) in
  let rankingsBlock :=
    join (nl ++ nl)
         (map (fun r => u "Model: " ++ s2_model r ++ nl
                        ++ u "Ranking: " ++ evaluation r) stage2) in
  join nl
    [ u "You are the Chairman of an LLM Council. Multiple AI models have provided responses to a user's question, and then ranked each other's responses.";
      [];
      u "Original Question: " ++ query;
      [];
      u "STAGE 1 - Individual Responses:";
      responsesBlock;
      [];
      u "STAGE 2 - Peer Rankings:";
      rankingsBlock;
      [];
      u "Your task is to synthesize all of this information into a single, comprehensive, accurate answer to the original question. Consider:";
      u "- The individual responses and their insights";
      u "- The peer rankings and what they reveal about response quality";
      u "- Any patterns of agreement or disagreement";
      [];
      u "IMPORTANT: Respond with the answer DIRECTLY. Do NOT include any preamble, introduction, or meta-commentary about being a chairman, synthesizing responses, or the council process. Just provide the final answer as if you were answering the question yourself." ].

(** ** LLMCouncil *)

(** [`Response ${String.fromCharCode(65 + i)}`]; [fromCharCode] keeps the
    low 16 bits of its argument. *)
Definition label_at (i : nat) : jstr :=
  u "Response " ++ [((65 + N.of_nat i) mod 65536)%N].

(** The [stage1.map] that opens [stage2]: the labelled texts it returns and
    the [labelToModel] it fills on the way, from index [i] on. *)
Fixpoint anonymize_from (i : nat) (stage1 : list Stage1Entry)
  (labelToModel : obj jstr) : list (jstr * jstr) * obj jstr :=
  match stage1 with
  | [] => ([], labelToModel)
  | entry :: rest =>
      let label := label_at i in
      let '(anonymized, labelToModel') :=
        anonymize_from (S i) rest (set_own labelToModel label (s1_model entry)) in
      ((label, s1_response entry) :: anonymized, labelToModel')
  end.

Definition anonymize (stage1 : list Stage1Entry) : list (jstr * jstr) * obj jstr :=
  anonymize_from 0 stage1 [].

(** The values of the promises that were fulfilled, in the order of the
    promises. *)
Fixpoint fulfilled A (results : list (outcome A)) : list A :=
  match results with
  | [] => []
  | Returns value :: rest => value :: fulfilled rest
  | Throws _ :: rest => fulfilled rest
  end.

Module LLMCouncil.

Section Council.

(** The provider is outside the program: a call reads and changes a world
    of which nothing is assumed, and resolves to a reply or rejects. *)
Variable World : Type.
Variable chat : jstr -> list ChatMessage -> World -> outcome jstr * World.

(** The configuration the constructor keeps. *)
Variable models : list jstr.
Variable chairmanModel : jstr.

Definition M (A : Type) : Type := World -> A * World.

Definition ret A (a : A) : M A := fun w => (a, w).

Definition bind A B (m : M A) (k : A -> M B) : M B :=
  fun w => let '(a, w') := m w in k a w'.

Notation "x <- m ;; k" := (bind m (fun x => k))
  (at level 61, m at next level, right associativity).

(** [Promise.allSettled(calls)]: the calls are started in the order of the
    list and every one of them settles; the results keep that order. *)
Fixpoint allSettled A (calls : list (M (outcome A))) : M (list (outcome A)) :=
  match calls with
  | [] => ret []
  | call :: rest =>
      r <- call ;;
      rs <- allSettled rest ;;
      ret (r :: rs)
  end.

Definition ask (model prompt : jstr) : M (outcome jstr) :=
  chat model [{| msg_role := user; content := prompt |}].

Definition stage1_call (query model : jstr) : M (outcome Stage1Entry) :=
  response <- ask model query ;;
  ret (map_outcome
         (fun response => {| s1_model := model; s1_response := response |})
         response).

Definition stage1 (query : jstr) : M (outcome (list Stage1Entry)) :=
  results <- allSettled (map (stage1_call query) models) ;;
  let entries := fulfilled results in
  if Nat.eqb (length entries) 0
  then ret (Throws (ErrorObj (u "All models failed to respond in Stage 1")))
  else ret (Returns entries).

Definition stage2_call (prompt model : jstr) : M (outcome Stage2Ranking) :=
  evaluation <- ask model prompt ;;
  ret (map_outcome
         (fun evaluation =>
            {| s2_model := model;
               evaluation := evaluation;
               parsed_ranking := parseRanking evaluation |})
         evaluation).

Definition stage2 (query : jstr) (stage1 : list Stage1Entry)
  : M (outcome Stage2Result) :=
  let '(anonymized, labelToModel) := anonymize stage1 in
  let prompt := buildRankingPrompt query anonymized in
  results <- allSettled (map (stage2_call prompt) models) ;;
  let rankings := fulfilled results in
  ret (map_outcome
         (fun aggregateRankings =>
            {| rankings := rankings;
               label_to_model := labelToModel;
               aggregate_rankings := aggregateRankings |})
         (calculateAggregateRankings rankings labelToModel)).

Definition stage3 (query : jstr) (stage1 : list Stage1Entry)
  (stage2Rankings : list Stage2Ranking) : M (outcome Stage3Result) :=
  let prompt := buildChairmanPrompt query stage1 stage2Rankings in
  response <- ask chairmanModel prompt ;;
  ret (map_outcome
         (fun response => {| s3_model := chairmanModel; s3_response := response |})
         response).

(** [`Stage ${n} failed: ${err instanceof Error ? err.message : String(err)}`] *)
Definition stage_failed (n : string) (err : thrown) : jstr :=
  u "Stage " ++ u n ++ u " failed: " ++ err_text err.

Definition run (query : jstr) : M CouncilResult :=
  r1 <- stage1 query ;;
  match r1 with
  | Throws err =>
      ret {| query := query; Types.stage1 := None; Types.stage2 := None;
             Types.stage3 := None; error := Some (stage_failed "1" err) |}
  | Returns s1 =>
      r2 <- stage2 query s1 ;;
      match r2 with
      | Throws err =>
          ret {| query := query; Types.stage1 := Some s1; Types.stage2 := None;
                 Types.stage3 := None; error := Some (stage_failed "2" err) |}
      | Returns s2 =>
          r3 <- stage3 query s1 (rankings s2) ;;
          match r3 with
          | Throws err =>
              ret {| query := query; Types.stage1 := Some s1;
                     Types.stage2 := Some s2; Types.stage3 := None;
                     error := Some (stage_failed "3" err) |}
          | Returns s3 =>
              ret {| query := query; Types.stage1 := Some s1;
                     Types.stage2 := Some s2; Types.stage3 := Some s3;
                     error := None |}
          end
      end
  end.

End Council.

End LLMCouncil.

(** ** The providers of [src/providers] *)

(** A value as [JSON.parse] makes it, which is what [Response.json]
    resolves to: objects hold their own properties, arrays their items. *)
Module Json.

#[local] Unset Elimination Schemes.

Inductive value :=
| JNull
| JBool (b : bool)
| JNum (x : float)
| JStr (s : jstr)
| JArr (items : list value)
| JObj (props : obj value).

#[local] Set Elimination Schemes.

(** [v.name] for a [v] that is neither [null] nor [undefined] and a name
    that no prototype defines, as are the names read here: [None] is
    [undefined]. *)
Definition prop (v : value) (name : jstr) : option value :=
  match v with
  | JObj props => get_own props name
  | _ => None
  end.

(** [v?.name] *)
Definition opt_prop (v : option value) (name : jstr) : option value :=
  match v with
  | None | Some JNull => None
  | Some v' => prop v' name
  end.

(** [v?.[0]]: the first item of an array, the property [0] of an object,
    the first code unit of a string. *)
Definition opt_first (v : option value) : option value :=
  match v with
  | Some (JArr items) => hd_error items
  | Some (JObj props) => get_own props (u "0")
  | Some (JStr (c :: _)) => Some (JStr [c])
  | _ => None
  end.

(** The message of the [TypeError] V8 raises when a property of [null] is
    read. *)
Definition null_read (name : string) : thrown :=
  ErrorObj (u "Cannot read properties of null (reading '" ++ u name ++ u "')").

End Json.

Module Http.

(** The arguments of a [fetch]: the URL, and the method, the headers and the
    body of its second argument.  The body is held by the value handed to
    [JSON.stringify]; [timeout] is the delay of the abort signal. *)
Record Request :=
  { url : jstr;
    method : jstr;
    headers : list (jstr * jstr);
    body : Json.value;
    timeout : float }.

(** What the program reads of a response.  Reading the body is a further
    exchange with the world, and may fail. *)
Record Response (W : Type) :=
  { ok : bool;
    status : N;
    text : W -> outcome jstr * W;
    json : W -> outcome Json.value * W }.

(** [`${res.status}`]: a status is a small non-negative integer, printed in
    decimal. *)
Definition decimal (n : N) : jstr :=
  u (DecimalString.NilZero.string_of_uint (N.to_uint n)).

Definition role_text (r : role) : jstr :=
  match r with
  | user => u "user"
  | assistant => u "assistant"
  | system => u "system"
  end.

(** A [ChatMessage] as an object: [role], then [content]. *)
Definition message_value (m : ChatMessage) : Json.value :=
  Json.JObj [ (u "role", Json.JStr (role_text (msg_role m)));
              (u "content", Json.JStr (content m)) ].

End Http.

Module OllamaProvider.

Import Json Http.

Record t := { baseUrl : jstr; timeout : float }.

(** [constructor(baseUrl?: string, timeout = 120_000)] *)
Definition new (baseUrl : option jstr) (timeout : option float) : t :=
  {| baseUrl := match baseUrl with
                | Some b => b
                | None => u "http://localhost:11434"
                end;
     timeout := match timeout with Some ms => ms | None => 120000%float end |}.

Definition request (self : t) (model : jstr) (messages : list ChatMessage)
  : Request :=
  {| url := baseUrl self ++ u "/api/chat";
     method := u "POST";
     headers := [(u "Content-Type", u "application/json")];
     body := JObj [ (u "model", JStr model);
                    (u "messages", JArr (map message_value messages));
                    (u "stream", JBool false) ];
     Http.timeout := timeout self |}.

(** [data.message?.content], when [data] is not [null]. *)
Definition reply_of (data : value) : option value :=
  opt_prop (prop data (u "message")) (u "content").

Section Chat.

Variable W : Type.

(** [await fetch(url, init)] with its abort signal: it resolves to a
    response or rejects, for a reason of the world's. *)
Variable fetch : Request -> W -> outcome (Response W) * W.

Definition chat (self : t) (model : jstr) (messages : list ChatMessage)
  : W -> outcome jstr * W :=
  fun w =>
    match fetch (request self model messages) w with
    | (Throws e, w1) => (Throws e, w1)
    | (Returns res, w1) =>
        if negb (ok res) then
          match text res w1 with
          | (Throws e, w2) => (Throws e, w2)
          | (Returns body, w2) =>
              (Throws (ErrorObj (u "Ollama API error (" ++ decimal (status res)
                                   ++ u "): " ++ body)), w2)
          end
        else
          match json res w1 with
          | (Throws e, w2) => (Throws e, w2)
          | (Returns JNull, w2) => (Throws (null_read "message"), w2)
          | (Returns data, w2) =>
              match reply_of data with
              | Some (JStr content) => (Returns content, w2)
              | _ =>
                  (Throws (ErrorObj (u "Unexpected response format from "
                                       ++ model)), w2)
              end
          end
    end.

End Chat.

End OllamaProvider.

Module OpenRouterProvider.

Import Json Http.

Record t := { apiKey : jstr; baseUrl : jstr; timeout : float }.

(** [constructor(apiKey: string, baseUrl?: string, timeout = 120_000)] *)
Definition new (apiKey : jstr) (baseUrl : option jstr) (timeout : option float)
  : t :=
  {| apiKey := apiKey;
     baseUrl := match baseUrl with
                | Some b => b
                | None => u "https://openrouter.ai/api/v1"
                end;
     timeout := match timeout with Some ms => ms | None => 120000%float end |}.

Definition request (self : t) (model : jstr) (messages : list ChatMessage)
  : Request :=
  {| url := baseUrl self ++ u "/chat/completions";
     method := u "POST";
     headers := [ (u "Content-Type", u "application/json");
                  (u "Authorization", u "Bearer " ++ apiKey self) ];
     body := JObj [ (u "model", JStr model);
                    (u "messages", JArr (map message_value messages)) ];
     Http.timeout := timeout self |}.

(** [data.choices?.[0]?.message?.content], when [data] is not [null]. *)
Definition reply_of (data : value) : option value :=
  opt_prop (opt_prop (opt_first (prop data (u "choices"))) (u "message"))
           (u "content").

Section Chat.

Variable W : Type.
Variable fetch : Request -> W -> outcome (Response W) * W.

Definition chat (self : t) (model : jstr) (messages : list ChatMessage)
  : W -> outcome jstr * W :=
  fun w =>
    match fetch (request self model messages) w with
    | (Throws e, w1) => (Throws e, w1)
    | (Returns res, w1) =>
        if negb (ok res) then
          match text res w1 with
          | (Throws e, w2) => (Throws e, w2)
          | (Returns body, w2) =>
              (Throws (ErrorObj (u "OpenRouter API error ("
                                   ++ decimal (status res)
                                   ++ u "): " ++ body)), w2)
          end
        else
          match json res w1 with
          | (Throws e, w2) => (Throws e, w2)
          | (Returns JNull, w2) => (Throws (null_read "choices"), w2)
          | (Returns data, w2) =>
              match reply_of data with
              | Some (JStr content) => (Returns content, w2)
              | _ =>
                  (Throws (ErrorObj (u "Unexpected response format from "
                                       ++ model)), w2)
              end
          end
    end.

End Chat.

End OpenRouterProvider.

(** ** The constructor of [LLMCouncil] *)

Module Config.

Inductive provider_name := openrouter | ollama.

(** [CouncilConfig]: an optional field that is absent is [None]. *)
Record CouncilConfig :=
  { provider : provider_name;
    apiKey : option jstr;
    baseUrl : option jstr;
    models : list jstr;
    chairmanModel : jstr;
    timeout : option float;
    verbose : option bool }.

End Config.

Module Council.

Import Config.

Inductive LLMProvider :=
| OpenRouter (p : OpenRouterProvider.t)
| Ollama (p : OllamaProvider.t).

(** The private fields of an [LLMCouncil]. *)
Record t :=
  { the_provider : LLMProvider;
    the_models : list jstr;
    the_chairmanModel : jstr;
    is_verbose : bool }.

(** [constructor(config: CouncilConfig)]; [!config.apiKey] holds of an
    absent key and of an empty one. *)
Definition new (config : CouncilConfig) : outcome t :=
  let made p :=
    {| the_provider := p;
       the_models := models config;
       the_chairmanModel := chairmanModel config;
       is_verbose := match verbose config with Some b => b | None => false end |}
  in
  match provider config with
  | openrouter =>
      match apiKey config with
      | None | Some [] =>
          Throws (ErrorObj (u "apiKey is required for the openrouter provider"))
      | Some key =>
          Returns (made (OpenRouter
                           (OpenRouterProvider.new key (baseUrl config)
                                                   (timeout config))))
      end
  | ollama =>
      Returns (made (Ollama (OllamaProvider.new (baseUrl config)
                                                (timeout config))))
  end.

Section Run.

Variable W : Type.
Variable fetch : Http.Request -> W -> outcome (Http.Response W) * W.

(** [this.provider.chat] *)
Definition chat (self : t) : jstr -> list ChatMessage -> W -> outcome jstr * W :=
  match the_provider self with
  | OpenRouter p => OpenRouterProvider.chat fetch p
  | Ollama p => OllamaProvider.chat fetch p
  end.

(** [council.run(query)] *)
Definition run (self : t) (query : jstr) : W -> CouncilResult * W :=
  LLMCouncil.run (chat self) (the_models self) (the_chairmanModel self) query.

End Run.

End Council.

(** ** Vocabulary of the statements *)

(** The label [Response X]. *)
Definition label_of (c : char) : jstr := u "Response " ++ [c].

Definition no_digit (s : jstr) : bool := forallb (fun c => negb (is_digit c)) s.

(** An item of a numbered list of full labels: what separates it from the
    text before, its ordinal, the whitespace after the period, and the
    letter of its label. *)
Record item := { sep : jstr; ord : jstr; gap : jstr; letter : char }.

Definition item_ok (it : item) : bool :=
  (no_digit (sep it)
   && match ord it with [] => false | _ :: _ => true end
   && forallb is_digit (ord it)
   && forallb is_space (gap it)
   && is_upper (letter it))%bool.

Definition item_text (it : item) : jstr :=
  ord it ++ [c_dot] ++ gap it ++ label_of (letter it).

Definition numbered_list (items : list item) : jstr :=
  flat_map (fun it => sep it ++ item_text it) items.

(** The position at which [x] first stands in [l]. *)
Fixpoint first_index (x : jstr) (l : list jstr) : nat :=
  match l with
  | [] => 0
  | y :: t => if str_eqb y x then 0 else S (first_index x t)
  end.

(** A text holds a numbered item when digits, a period, optional whitespace
    and [Response X] stand somewhere in it. *)
Definition holds_numbered (text : jstr) : Prop :=
  exists before ds ws c after,
    text = before ++ ds ++ [c_dot] ++ ws ++ label_of c ++ after
    /\ ds <> [] /\ forallb is_digit ds = true
    /\ forallb is_space ws = true /\ is_upper c = true.

(** A text holds a mention when [Response X] stands somewhere in it. *)
Definition holds_mention (text : jstr) : Prop :=
  exists before c after,
    text = before ++ label_of c ++ after /\ is_upper c = true.

(** [Response c] stands in [text] right after [before], and no mention
    begins before it. *)
Definition leftmost_mention (text before : jstr) (c : char) (after : jstr)
  : Prop :=
  text = before ++ label_of c ++ after
  /\ is_upper c = true
  /\ forall before' c' after',
       text = before' ++ label_of c' ++ after' -> is_upper c' = true ->
       length before <= length before'.

(** The mentions of a text, read from left to right: the first
    [Response X] that stands in it, then the mentions of what follows that
    one.  A mention that begins inside the one before is passed over. *)
Inductive mentions_of : jstr -> list jstr -> Prop :=
| mentions_none text :
    ~ holds_mention text -> mentions_of text []
| mentions_next text before c after rest :
    leftmost_mention text before c after ->
    mentions_of after rest ->
    mentions_of text (label_of c :: rest).

(** The elements of [l], each kept where it first stands. *)
Fixpoint keep_firsts (l : list jstr) : list jstr :=
  match l with
  | [] => []
  | x :: t => x :: filter (fun y => negb (str_eqb y x)) (keep_firsts t)
  end.

(** The whole-text numbered search, taken alone: [None] when it finds
    nothing. *)
Definition numbered_anywhere (text : jstr) : option (list jstr) :=
  match match_g re_numbered text with
  | Some ((_ :: _) as l) => Some (map strip_ordinal l)
  | _ => None
  end.

(** The mention-order strategy, taken alone. *)
Definition mention_order (text : jstr) : option (list jstr) :=
  match match_g re_mention text with
  | Some ((_ :: _) as l) => Some (set_spread l)
  | _ => None
  end.

(** A text in which the marker is followed by nothing the two post-marker
    strategies match. *)
Definition header_fails (text : jstr) : Prop :=
  includes text marker = true
  /\ headered (slice text (indexOf text marker)) = None.

(** The [(i+1)]-th capital letter, for [i] below 26. *)
Definition letter_at (i : nat) : char := (65 + N.of_nat i)%N.

(** *** Vocabulary for the aggregation *)

(** The models the labels of one parsed ranking resolve to, in order;
    labels that resolve to nothing are passed over. *)
Definition resolved (labelToModel : obj jstr) (labels : list jstr) : list jstr :=
  flat_map
    (fun label =>
       match truthy_model labelToModel label with
       | Some model => [model]
       | None => []
       end)
    labels.

(** The ranks one parsed ranking gives to [model]: [i + 1] for every
    0-indexed position [i] whose label resolves to it. *)
Definition positions_of (labelToModel : obj jstr) (labels : list jstr)
  (model : jstr) : list Z :=
  flat_map
    (fun '(i, label) =>
       match truthy_model labelToModel label with
       | Some m => if str_eqb m model then [(Z.of_nat i + 1)%Z] else []
       | None => []
       end)
    (combine (seq 0 (length labels)) labels).

(** All the ranks of [model], evaluation after evaluation. *)
Definition ranks_of (labelToModel : obj jstr) (rankings : list Stage2Ranking)
  (model : jstr) : list Z :=
  flat_map (fun r => positions_of labelToModel (parsed_ranking r) model) rankings.

(** The models with at least one rank, in the order in which they are first
    met. *)
Definition ranked_models (labelToModel : obj jstr)
  (rankings : list Stage2Ranking) : list jstr :=
  keep_firsts (flat_map (fun r => resolved labelToModel (parsed_ranking r)) rankings).

(** The order in which [Object.entries] lists keys created in the order
    [keys]: array indices first, ascending, then the others as created. *)
Definition key_order (keys : list jstr) : list jstr :=
  map fst (entries (map (fun k => (k, tt)) keys)).

Definition not_index (k : jstr) : bool :=
  match array_index k with Some _ => false | None => true end.

(** Following the spec: the arithmetic mean of the ranks, rounded half up
    to two decimal places, in hundredths. *)
Definition mean_half_up_hundredths (ranks : list Z) : Z :=
  let n := Z.of_nat (length ranks) in
  ((200 * sum_ranks ranks + n) / (2 * n))%Z.

(** *** The loops as a run over the ranks filed, one by one *)

(** The (model, rank) pairs the inner loop files, from index [i] on. *)
Fixpoint filed_from (labelToModel : obj jstr) (labels : list jstr) (i : Z)
  : list (jstr * Z) :=
  match labels with
  | [] => []
  | label :: rest =>
      match truthy_model labelToModel label with
      | Some model => (model, (i + 1)%Z) :: filed_from labelToModel rest (i + 1)
      | None => filed_from labelToModel rest (i + 1)
      end
  end.

Definition filed (labelToModel : obj jstr) (rankings : list Stage2Ranking)
  : list (jstr * Z) :=
  flat_map (fun r => filed_from labelToModel (parsed_ranking r) 0) rankings.

Fixpoint push_all (evs : list (jstr * Z)) (modelRanks : obj (list Z))
  : outcome (obj (list Z)) :=
  match evs with
  | [] => Returns modelRanks
  | (model, rank) :: rest =>
      match push_rank modelRanks model rank with
      | Returns modelRanks' => push_all rest modelRanks'
      | Throws e => Throws e
      end
  end.

(** The ranks of [model] among the pairs filed. *)
Definition ranks_in (evs : list (jstr * Z)) (model : jstr) : list Z :=
  map snd (filter (fun e => str_eqb (fst e) model) evs).

(** [modelRanks] once the pairs [evs] are filed. *)
Definition grouped (evs : list (jstr * Z)) : obj (list Z) :=
  map (fun m => (m, ranks_in evs m)) (keep_firsts (map fst evs)).

(** The output entry of [model]. *)
Definition entry_of (labelToModel : obj jstr) (rankings : list Stage2Ranking)
  (model : jstr) : AggregateRanking :=
  {| ag_model := model;
     average_rank := average_hundredths (ranks_of labelToModel rankings model);
     rankings_count := length (ranks_of labelToModel rankings model) |}.

(** No model filed is named like a property of [Object.prototype]. *)
Definition clean (evs : list (jstr * Z)) : bool :=
  forallb (fun e => negb (inherited (fst e))) evs.

(** *** Inputs of the examples *)

Definition ranking_of (labels : list jstr) : Stage2Ranking :=
  {| s2_model := u "evaluator"; evaluation := []; parsed_ranking := labels |}.

(** Forty evaluations: one ranks B then A, thirty-nine list A alone. *)
Definition forty_rankings : list Stage2Ranking :=
  ranking_of [u "Response B"; u "Response A"]
  :: repeat (ranking_of [u "Response A"]) 39.

Definition two_labels : obj jstr :=
  [(u "Response A", u "m1"); (u "Response B", u "m2")].

(** Two models whose names are array indices. *)
Definition numeric_names : obj jstr :=
  [(u "Response A", u "2"); (u "Response B", u "1")].

(** A model named like a property of [Object.prototype]. *)
Definition inherited_name : obj jstr := [(u "Response A", u "constructor")].

Definition tied_rankings : list Stage2Ranking :=
  [ ranking_of [u "Response A"; u "Response B"];
    ranking_of [u "Response B"; u "Response A"] ].

(** *** Vocabulary for the stages *)

(** The configured models, in order, each with how its call settled; the
    calls are made in that order, from the world [w]. *)
Fixpoint replies World
  (chat : jstr -> list ChatMessage -> World -> outcome jstr * World)
  (prompt : jstr) (models : list jstr) (w : World)
  : list (jstr * outcome jstr) * World :=
  match models with
  | [] => ([], w)
  | model :: rest =>
      let '(r, w1) := chat model [{| msg_role := user; content := prompt |}] w in
      let '(rs, w2) := replies chat prompt rest w1 in
      ((model, r) :: rs, w2)
  end.

(** The models whose call succeeded, with their replies, in order. *)
Fixpoint answered (rs : list (jstr * outcome jstr)) : list (jstr * jstr) :=
  match rs with
  | [] => []
  | (model, Returns reply) :: rest => (model, reply) :: answered rest
  | (_, Throws _) :: rest => answered rest
  end.

Definition entry1 (a : jstr * jstr) : Stage1Entry :=
  {| s1_model := fst a; s1_response := snd a |}.

Definition entry2 (a : jstr * jstr) : Stage2Ranking :=
  {| s2_model := fst a; evaluation := snd a;
     parsed_ranking := parseRanking (snd a) |}.

Definition all_failed_error : thrown :=
  ErrorObj (u "All models failed to respond in Stage 1").

(** The result of a run that stopped at a stage, and of one that did not. *)
Definition result_of (query : jstr) (s1 : option (list Stage1Entry))
  (s2 : option Stage2Result) (s3 : option Stage3Result) (err : option jstr)
  : CouncilResult :=
  {| query := query; stage1 := s1; stage2 := s2; stage3 := s3; error := err |}.

(** A provider whose calls all reject. *)
Definition refusing (model : jstr) (messages : list ChatMessage) (w : unit)
  : outcome jstr * unit :=
  (Throws (ErrorObj (u "connection refused")), w).

(** A provider that answers a ranking prompt with a ranking, any other
    prompt with a line naming the model, and counts its calls. *)
Definition answering (model : jstr) (messages : list ChatMessage) (w : nat)
  : outcome jstr * nat :=
  let prompt := content (last messages {| msg_role := user; content := [] |}) in
  (if includes prompt (u "IMPORTANT: Your final ranking")
   then Returns (u "FINAL RANKING:" ++ nl ++ u "1. Response B" ++ nl
                   ++ u "2. Response A")
   else Returns (u "Answer from " ++ model),
   S w).

(** A provider that answers as [answering] does, except that it rejects
    the ranking request of [model-b]. *)
Definition one_refusal (model : jstr) (messages : list ChatMessage) (w : nat)
  : outcome jstr * nat :=
  let prompt := content (last messages {| msg_role := user; content := [] |}) in
  if (includes prompt (u "IMPORTANT: Your final ranking")
      && str_eqb model (u "model-b"))%bool
  then (Throws (ErrorObj (u "rate limited")), S w)
  else answering model messages w.

(** *** Vocabulary for the list of bare letters *)

(** What may follow the letter of a bare item: [\s], a comma or a period. *)
Definition is_delim (c : char) : bool :=
  (is_space c || N.eqb c c_comma || N.eqb c c_dot)%bool.

(** An item of a list of bare letters: what separates it from the text
    before, its ordinal, the whitespace after the period, its letter, and
    what ends it. *)
Record bare_item :=
  { bsep : jstr; bord : jstr; bgap : jstr; bletter : char; bend : jstr }.

Definition bare_text (it : bare_item) : jstr :=
  bord it ++ [c_dot] ++ bgap it ++ [bletter it] ++ bend it.

Definition bare_list (items : list bare_item) : jstr :=
  flat_map (fun it => bsep it ++ bare_text it) items.

Definition is_nil A (l : list A) : bool :=
  match l with [] => true | _ :: _ => false end.

(** The fields of one item, apart from what ends it: no digit before the
    ordinal, digits in it, whitespace after the period, a capital letter. *)
Definition bare_fields (it : bare_item) : bool :=
  (no_digit (bsep it)
   && negb (is_nil (bord it))
   && forallb is_digit (bord it)
   && forallb is_space (bgap it)
   && is_upper (bletter it))%bool.

(** What ends an item: one delimiter, or nothing when the text ends there. *)
Definition ends_well (e : jstr) (at_end : bool) : bool :=
  match e with
  | [] => at_end
  | [d] => is_delim d
  | _ => false
  end.

(** The items are well formed, and no digit stands in what follows the
    list. *)
Fixpoint bare_ok (items : list bare_item) (trailer : jstr) : bool :=
  match items with
  | [] => no_digit trailer
  | it :: rest =>
      (bare_fields it
       && ends_well (bend it) (is_nil rest && is_nil trailer)
       && bare_ok rest trailer)%bool
  end.

(** A label as every strategy builds it: [Response] and one capital. *)
Definition full_label (l : jstr) : Prop :=
  exists c, l = label_of c /\ is_upper c = true.

(** A capital letter stands somewhere in the text. *)
Definition has_upper (text : jstr) : bool := existsb is_upper text.

(** *** Vocabulary for the aggregation, continued *)

(** The models the label occurrences of all the evaluations resolve to, one
    per occurrence that resolves. *)
Definition counted (labelToModel : obj jstr) (rankings : list Stage2Ranking)
  : list jstr :=
  flat_map (fun r => resolved labelToModel (parsed_ranking r)) rankings.

(** Two outcomes that agree up to the order of the entries. *)
Definition same_entries (a b : outcome (list AggregateRanking)) : Prop :=
  match a, b with
  | Returns out, Returns out' => Permutation out out'
  | Throws e, Throws e' => e = e'
  | _, _ => False
  end.

(** *** Vocabulary for the prompts and the calls *)

(** [p] stands somewhere in [s]. *)
Definition part (p s : jstr) : Prop := exists a b, s = a ++ p ++ b.

(** A request as a provider receives it: the model and one user message. *)
Definition request (model prompt : jstr) : jstr * list ChatMessage :=
  (model, [{| msg_role := user; content := prompt |}]).

(** The provider [chat], keeping a record of the requests it receives, in
    the order in which they are made. *)
Definition recording World
  (chat : jstr -> list ChatMessage -> World -> outcome jstr * World)
  (model : jstr) (messages : list ChatMessage)
  (w : list (jstr * list ChatMessage) * World)
  : outcome jstr * (list (jstr * list ChatMessage) * World) :=
  let '(r, w') := chat model messages (snd w) in
  (r, (fst w ++ [(model, messages)], w')).

(** The requests a run makes, given what it returned. *)
Definition requests_of (models : list jstr) (chairmanModel : jstr)
  (result : CouncilResult) : list (jstr * list ChatMessage) :=
  map (fun m => request m (query result)) models
  ++ match stage1 result with
     | None => []
     | Some s1 =>
         map (fun m =>
                request m (buildRankingPrompt (query result) (fst (anonymize s1))))
             models
         ++ match stage2 result with
            | None => []
            | Some s2 =>
                [request chairmanModel
                   (buildChairmanPrompt (query result) s1 (rankings s2))]
            end
     end.

(** *** Vocabulary for the providers *)

(** A server that refuses every request with the same status and body. *)
Definition refusing_server (code : N) (body : jstr) (req : Http.Request)
  (w : unit) : outcome (Http.Response unit) * unit :=
  (Returns {| Http.ok := false; Http.status := code;
              Http.text := fun w' => (Returns body, w');
              Http.json := fun w' => (Throws (Other (u "not read")), w') |},
   w).

(** A server that answers every request with the same JSON value. *)
Definition answering_server (data : Json.value) (req : Http.Request)
  (w : unit) : outcome (Http.Response unit) * unit :=
  (Returns {| Http.ok := true; Http.status := 200%N;
              Http.text := fun w' => (Throws (Other (u "not read")), w');
              Http.json := fun w' => (Returns data, w') |},
   w).

(** A configuration with two models. *)
Definition two_models (p : Config.provider_name) (key : option jstr)
  : Config.CouncilConfig :=
  {| Config.provider := p; Config.apiKey := key; Config.baseUrl := None;
     Config.models := [u "model-a"; u "model-b"];
     Config.chairmanModel := u "model-a";
     Config.timeout := None; Config.verbose := None |}.

(** *** Vocabulary for the rounding *)

(** [Math.round((sum / n) * 100)] as a function of the sum and the count. *)
Definition hundredths_of (sum n : Z) : Z :=
  Math_round
    (PrimFloat.mul (PrimFloat.div (to_float sum) (to_float n)) (to_float 100)).

(** The result is within half a hundredth of [sum / n]. *)
Definition nearest (sum n : Z) : bool :=
  (Z.abs (200 * sum - 2 * n * hundredths_of sum n) <=? n)%Z.

(** [p] holds of the [k] integers from [z] on. *)
Fixpoint all_from (k : nat) (z : Z) (p : Z -> bool) : bool :=
  match k with
  | O => true
  | S k' => p z && all_from k' (z + 1)%Z p
  end.

(** Every count from 1 to [max_n] and every sum that as many ranks between
    1 and [max_rank] can have. *)
Definition all_sums (max_n max_rank : Z) (p : Z -> Z -> bool) : bool :=
  all_from (Z.to_nat max_n) 1
    (fun n => all_from (Z.to_nat ((max_rank - 1) * n + 1)) n (fun s => p s n)).

(** *** Vocabulary of the proofs *)

(** A matcher is sound for a set of texts when each of its candidates
    splits the input and reads a text of the set. *)
Definition sound_for (P : jstr -> Prop) (m : matcher) : Prop :=
  forall prev s w rest, In (w, rest) (m prev s) -> s = w ++ rest /\ P w.

(** The candidate a matcher tries first. *)
Definition first_is (m : matcher) (prev : option char) (s : jstr) (c : cand)
  : Prop :=
  exists tl, m prev s = c :: tl.

(** The input is over, or goes on with a character the atom refuses. *)
Definition stops (a : atom) (rest : jstr) : bool :=
  match rest with [] => true | c :: _ => negb (atom_ok a c) end.

Definition no_gt (s : jstr) : bool := forallb (fun c => negb (N.eqb c c_gt)) s.

(** A label as the parser returns them: it begins with [Response ]. *)
Definition is_label (l : jstr) : Prop := exists x, l = u "Response " ++ x.

(** A comparator that orders by a key, as [by_average] does. *)
Definition by_key A (key : A -> Z) (a b : A) : Z := (key a - key b)%Z.

(** * Properties *)

(** ** Strings *)

Lemma str_eqb_eq (a b : jstr) : str_eqb a b = true <-> a = b.
Proof.
  revert b; induction a as [|x a IH]; intros [|y b]; simpl;
    try (split; [discriminate | discriminate]); try tauto.
  rewrite andb_true_iff, N.eqb_eq, IH.
  split; [intros [-> ->]; reflexivity | intros H; inversion H; auto].
Qed.

Lemma str_eqb_refl (a : jstr) : str_eqb a a = true.
Proof. apply str_eqb_eq; reflexivity. Qed.

Lemma str_eqb_neq (a b : jstr) : str_eqb a b = false <-> a <> b.
Proof.
  rewrite <- str_eqb_eq. destruct (str_eqb a b); split; congruence.
Qed.

Lemma mem_In (x : jstr) (l : list jstr) : mem x l = true <-> In x l.
Proof.
  unfold mem. rewrite existsb_exists. split.
  - intros [y [Hy E]]. apply str_eqb_eq in E. subst; assumption.
  - intros H. exists x. split; [assumption | apply str_eqb_refl].
Qed.

Lemma mem_false (x : jstr) (l : list jstr) : mem x l = false <-> ~ In x l.
Proof.
  rewrite <- mem_In. destruct (mem x l); split; congruence.
Qed.

Lemma starts_with_app (p s : jstr) : starts_with p (p ++ s) = true.
Proof.
  induction p as [|x p IH]; simpl; [reflexivity|].
  rewrite N.eqb_refl. exact IH.
Qed.

(** ** The matcher is sound: a candidate splits the input, and its text
    belongs to the language of the regex. *)

Lemma seq_ends_sound (P Q : jstr -> Prop) (ea eb : matcher) :
  sound_for P ea -> sound_for Q eb ->
  forall prev s w rest, In (w, rest) (seq_ends ea eb prev s) ->
    exists w1 w2, w = w1 ++ w2 /\ s = w ++ rest /\ P w1 /\ Q w2.
Proof.
  intros Ha Hb prev s w rest H. unfold seq_ends in H.
  apply in_flat_map in H as [[w1 s1] [H1 H2]].
  apply in_map_iff in H2 as [[w2 s2] [E H2]]. inversion E; subst; clear E.
  destruct (Ha _ _ _ _ H1) as [-> P1].
  destruct (Hb _ _ _ _ H2) as [-> Q2].
  exists w1, w2. rewrite app_assoc. auto.
Qed.

Lemma star_fuel_sound (a : regex) (m : matcher) :
  sound_for (lang a) m ->
  forall fuel, sound_for (lang (Star a)) (star_fuel m fuel).
Proof.
  intros Hm fuel; induction fuel as [|f IH]; intros prev s w rest H; simpl in H.
  - destruct H as [E|[]]. inversion E; subst. split; [reflexivity | constructor].
  - apply in_app_or in H as [H|H].
    + apply in_flat_map in H as [[w1 s1] [H1 H2]].
      destruct w1 as [|c w1]; [contradiction|].
      apply in_map_iff in H2 as [[w2 s2] [E H2]]. inversion E; subst; clear E.
      destruct (Hm _ _ _ _ H1) as [-> P1].
      destruct (IH _ _ _ _ H2) as [-> P2].
      split; [now rewrite app_assoc | exact (L_star_more P1 P2)].
    + destruct H as [E|[]]. inversion E; subst. split; [reflexivity | constructor].
Qed.

Lemma ends_sound (r : regex) : sound_for (lang r) (ends r).
Proof.
  induction r as [| a | | | | a IHa b IHb | a IHa b IHb | a IHa | a IHa];
    intros prev s w rest H; simpl in H.
  - destruct H as [E|[]]; inversion E; subst; split; [reflexivity | constructor].
  - destruct s as [|c s]; [contradiction|].
    destruct (atom_ok a c) eqn:Hc; [|contradiction].
    destruct H as [E|[]]; inversion E; subst; split; [reflexivity | now constructor].
  - destruct prev; [contradiction|].
    destruct H as [E|[]]; inversion E; subst; split; [reflexivity | constructor].
  - destruct s; [|contradiction].
    destruct H as [E|[]]; inversion E; subst; split; [reflexivity | constructor].
  - destruct (xorb _ _); [|contradiction].
    destruct H as [E|[]]; inversion E; subst; split; [reflexivity | constructor].
  - destruct (seq_ends_sound IHa IHb _ _ _ _ H) as (w1 & w2 & -> & -> & H1 & H2).
    split; [reflexivity | now constructor].
  - apply in_app_or in H as [H|H].
    + destruct (IHa _ _ _ _ H) as [-> P]. split; [reflexivity | now apply L_alt_l].
    + destruct (IHb _ _ _ _ H) as [-> P]. split; [reflexivity | now apply L_alt_r].
  - exact (star_fuel_sound IHa _ _ _ _ _ H).
  - assert (Hs : sound_for (lang (Star a)) (star_ends (ends a))).
    { intros p t v u0 Hv. exact (star_fuel_sound IHa _ _ _ _ _ Hv). }
    destruct (seq_ends_sound IHa Hs _ _ _ _ H) as (w1 & w2 & -> & -> & H1 & H2).
    split; [reflexivity | now constructor].
Qed.

Lemma exec_here_sound r prev s w rest :
  exec_here r prev s = Some (w, rest) -> s = w ++ rest /\ lang r w.
Proof.
  unfold exec_here. intros H. apply (ends_sound r prev s).
  destruct (ends r prev s); simpl in H; [discriminate|].
  inversion H; subst. now left.
Qed.

Lemma search_sound r : forall s prev skipped w rest,
  search r prev s = Some (skipped, w, rest) ->
  s = skipped ++ w ++ rest /\ lang r w.
Proof.
  induction s as [|c s IH]; intros prev skipped w rest H; simpl in H.
  - destruct (exec_here r prev []) as [[w0 r0]|] eqn:E; [|discriminate].
    inversion H; subst. exact (exec_here_sound _ _ _ E).
  - destruct (exec_here r prev (c :: s)) as [[w0 r0]|] eqn:E.
    + inversion H; subst. exact (exec_here_sound _ _ _ E).
    + destruct (search r (Some c) s) as [[[sk w0] r0]|] eqn:E2; [|discriminate].
      inversion H; subst. destruct (IH _ _ _ _ E2) as [-> L].
      split; [reflexivity | assumption].
Qed.

Lemma matches_from_sound r : forall fuel prev s,
  Forall (lang r) (matches_from fuel r prev s).
Proof.
  induction fuel as [|f IH]; intros prev s; simpl; [constructor|].
  destruct (search r prev s) as [[[sk w] rest]|] eqn:E; [|constructor].
  destruct (search_sound _ _ _ E) as [_ L].
  destruct w as [|c w].
  - destruct rest; constructor; auto.
  - constructor; auto.
Qed.

Lemma match_g_sound r s l : match_g r s = Some l -> l <> [] /\ Forall (lang r) l.
Proof.
  unfold match_g. intros H.
  pose proof (matches_from_sound r (S (length s)) None s) as F.
  destruct (matches_from (S (length s)) r None s); [discriminate|].
  inversion H; subst. split; [discriminate | assumption].
Qed.

(** ** What the languages of the program's regexes contain *)

Lemma lang_one_inv a w :
  lang (One a) w -> exists c, w = [c] /\ atom_ok a c = true.
Proof. intros H; inversion H; subst; eauto. Qed.

Lemma lang_seq_inv a b w :
  lang (Seq a b) w -> exists w1 w2, w = w1 ++ w2 /\ lang a w1 /\ lang b w2.
Proof. intros H; inversion H; subst; eauto. Qed.

Lemma lang_plus_inv a w :
  lang (Plus a) w ->
  exists w1 w2, w = w1 ++ w2 /\ lang a w1 /\ lang (Star a) w2.
Proof. intros H; inversion H; subst; eauto. Qed.

Lemma lang_empty_inv r w :
  r = Eps \/ r = Bol \/ r = Eol \/ r = WordB -> lang r w -> w = [].
Proof.
  intros Hr H; inversion H; subst; auto;
    destruct Hr as [E|[E|[E|E]]]; discriminate.
Qed.

(** Induction over the rounds of a starred regex. *)
Lemma lang_star_ind a (P : jstr -> Prop) :
  P [] ->
  (forall w1 w2, lang a w1 -> lang (Star a) w2 -> P w2 -> P (w1 ++ w2)) ->
  forall w, lang (Star a) w -> P w.
Proof.
  intros P0 PS w H. remember (Star a) as r eqn:E.
  induction H; try discriminate; inversion E; subst; auto.
Qed.

Lemma lang_star_atoms a w :
  lang (Star (One a)) w -> forallb (atom_ok a) w = true.
Proof.
  intros H. induction H as [|w1 w2 H1 _ IH] using lang_star_ind; [reflexivity|].
  apply lang_one_inv in H1 as (c & -> & Hc). simpl. now rewrite Hc.
Qed.

Lemma lang_plus_atoms a w :
  lang (Plus (One a)) w -> w <> [] /\ forallb (atom_ok a) w = true.
Proof.
  intros H. apply lang_plus_inv in H as (w1 & w2 & -> & H1 & H2).
  apply lang_one_inv in H1 as (c & -> & Hc). apply lang_star_atoms in H2.
  simpl. rewrite Hc. split; [discriminate | assumption].
Qed.

Lemma lang_lits p : forall w, lang (lits p) w -> w = p.
Proof.
  induction p as [|c p IH]; intros w H.
  - now apply (@lang_empty_inv Eps); auto.
  - destruct p as [|d p].
    + apply lang_one_inv in H as (x & -> & Hx).
      simpl in Hx. apply N.eqb_eq in Hx. now subst.
    + change (lits (c :: d :: p)) with (Seq (One (Lit c)) (lits (d :: p))) in H.
      apply lang_seq_inv in H as (w1 & w2 & -> & H1 & H2).
      apply lang_one_inv in H1 as (x & -> & Hx).
      simpl in Hx. apply N.eqb_eq in Hx. subst.
      simpl. f_equal. now apply IH.
Qed.

Lemma lang_ordinal w :
  lang ordinal w ->
  exists ds ws, w = ds ++ [c_dot] ++ ws /\ ds <> []
    /\ forallb is_digit ds = true /\ forallb is_space ws = true.
Proof.
  intros H. unfold ordinal in H.
  apply lang_seq_inv in H as (ds & w2 & -> & Hd & H).
  apply lang_seq_inv in H as (w3 & ws & -> & Hdot & Hs).
  apply lang_plus_atoms in Hd as [Hne Hd].
  apply lang_one_inv in Hdot as (x & -> & Hx).
  simpl in Hx. apply N.eqb_eq in Hx. subst.
  apply lang_star_atoms in Hs.
  exists ds, ws. auto.
Qed.

Lemma lang_mention w :
  lang re_mention w -> exists c, w = u "Response " ++ [c] /\ is_upper c = true.
Proof.
  intros H. unfold re_mention in H.
  apply lang_seq_inv in H as (w1 & w2 & -> & H1 & H2).
  apply lang_lits in H1. subst.
  apply lang_one_inv in H2 as (c & -> & Hc).
  exists c. auto.
Qed.

Lemma lang_numbered w :
  lang re_numbered w ->
  exists ds ws c, w = ds ++ [c_dot] ++ ws ++ u "Response " ++ [c]
    /\ ds <> [] /\ forallb is_digit ds = true
    /\ forallb is_space ws = true /\ is_upper c = true.
Proof.
  intros H. unfold re_numbered in H.
  apply lang_seq_inv in H as (w1 & w2 & -> & H1 & H2).
  apply lang_ordinal in H1 as (ds & ws & -> & Hne & Hd & Hs).
  apply lang_mention in H2 as (c & -> & Hc).
  exists ds, ws, c. repeat split; auto.
  now rewrite <- !app_assoc.
Qed.

(** ** Computing the first candidate *)

Lemma first_seq (ea eb : matcher) prev s w1 s1 w2 s2 :
  first_is ea prev s (w1, s1) ->
  first_is eb (last_char prev w1) s1 (w2, s2) ->
  first_is (seq_ends ea eb) prev s (w1 ++ w2, s2).
Proof.
  intros [t1 E1] [t2 E2]. unfold first_is, seq_ends.
  rewrite E1. simpl. rewrite E2. simpl. eexists; reflexivity.
Qed.

Lemma first_exec r prev s c :
  first_is (ends r) prev s c -> exec_here r prev s = Some c.
Proof. intros [tl E]. unfold exec_here. now rewrite E. Qed.

Lemma first_star_step (step : matcher) (a : atom) :
  (forall prev s, step prev s = ends (One a) prev s) ->
  forall ws fuel prev rest,
  forallb (atom_ok a) ws = true -> stops a rest = true ->
  length ws <= fuel ->
  first_is (star_fuel step fuel) prev (ws ++ rest) (ws, rest).
Proof.
  intros Hstep. unfold first_is.
  induction ws as [|c ws IH]; intros fuel prev rest Hws Hstop Hf.
  - destruct fuel as [|f]; simpl; [eexists; reflexivity|].
    rewrite Hstep. destruct rest as [|d rest]; simpl; [eexists; reflexivity|].
    simpl in Hstop. apply negb_true_iff in Hstop. rewrite Hstop. simpl.
    eexists; reflexivity.
  - destruct fuel as [|f]; simpl in Hf; [lia|].
    simpl in Hws. apply andb_true_iff in Hws as [Hc Hws].
    simpl. rewrite Hstep. simpl. rewrite Hc. simpl.
    destruct (IH f (Some c) rest Hws Hstop ltac:(lia)) as [tl E].
    rewrite E. simpl. eexists; reflexivity.
Qed.

Lemma first_star_atoms a ws fuel prev rest :
  forallb (atom_ok a) ws = true -> stops a rest = true ->
  length ws <= fuel ->
  first_is (star_fuel (ends (One a)) fuel) prev (ws ++ rest) (ws, rest).
Proof. apply first_star_step. reflexivity. Qed.

Lemma first_one a c prev s :
  atom_ok a c = true -> first_is (ends (One a)) prev (c :: s) ([c], s).
Proof. intros H. unfold first_is. simpl. rewrite H. eexists; reflexivity. Qed.

Lemma first_star a ws prev rest :
  forallb (atom_ok a) ws = true -> stops a rest = true ->
  first_is (ends (Star (One a))) prev (ws ++ rest) (ws, rest).
Proof.
  intros Hws Hstop. simpl. unfold star_ends.
  apply first_star_atoms; auto. rewrite length_app. lia.
Qed.

Lemma first_plus a ws prev rest :
  ws <> [] -> forallb (atom_ok a) ws = true -> stops a rest = true ->
  first_is (ends (Plus (One a))) prev (ws ++ rest) (ws, rest).
Proof.
  intros Hne Hws Hstop. destruct ws as [|c ws]; [congruence|].
  simpl in Hws. apply andb_true_iff in Hws as [Hc Hws].
  change (ends (Plus (One a)))
    with (seq_ends (ends (One a)) (star_ends (ends (One a)))).
  apply (@first_seq _ _ prev _ [c] (ws ++ rest) ws rest).
  - apply first_one; assumption.
  - unfold star_ends. apply first_star_atoms; auto. rewrite length_app. lia.
Qed.

Lemma first_lits p : forall prev rest,
  first_is (ends (lits p)) prev (p ++ rest) (p, rest).
Proof.
  induction p as [|c p IH]; intros prev rest.
  - unfold first_is. simpl. eexists; reflexivity.
  - destruct p as [|d p].
    + apply first_one. simpl. apply N.eqb_refl.
    + change (c :: d :: p) with ([c] ++ d :: p). rewrite <- app_assoc.
      change (ends (lits ([c] ++ d :: p)))
        with (seq_ends (ends (One (Lit c))) (ends (lits (d :: p)))).
      apply (@first_seq _ _ prev _ [c] ((d :: p) ++ rest) (d :: p) rest);
        [|apply IH].
      apply first_one. simpl. apply N.eqb_refl.
Qed.

Lemma first_ordinal ds ws prev rest :
  ds <> [] -> forallb is_digit ds = true -> forallb is_space ws = true ->
  stops Space rest = true ->
  first_is (ends ordinal) prev (ds ++ [c_dot] ++ ws ++ rest)
           (ds ++ [c_dot] ++ ws, rest).
Proof.
  intros Hne Hd Hs Hstop. unfold ordinal.
  change (ends (Seq (Plus (One Digit)) (Seq (One (Lit c_dot)) (Star (One Space)))))
    with (seq_ends (ends (Plus (One Digit)))
                   (seq_ends (ends (One (Lit c_dot))) (ends (Star (One Space))))).
  apply (@first_seq _ _ prev _ ds ([c_dot] ++ ws ++ rest) ([c_dot] ++ ws) rest).
  - apply first_plus; auto.
  - apply (@first_seq _ _ _ _ [c_dot] (ws ++ rest) ws rest).
    + apply first_one. reflexivity.
    + apply (first_star Space); auto.
Qed.

Lemma first_mention c prev rest :
  is_upper c = true ->
  first_is (ends re_mention) prev (u "Response " ++ [c] ++ rest)
           (u "Response " ++ [c], rest).
Proof.
  intros Hc. unfold re_mention.
  change (ends (Seq (lits (u "Response ")) (One Upper)))
    with (seq_ends (ends (lits (u "Response "))) (ends (One Upper))).
  apply (@first_seq _ _ prev _ (u "Response ") ([c] ++ rest) [c] rest).
  - apply first_lits.
  - apply first_one. exact Hc.
Qed.

Lemma first_numbered ds ws c prev rest :
  ds <> [] -> forallb is_digit ds = true -> forallb is_space ws = true ->
  is_upper c = true ->
  first_is (ends re_numbered) prev
           (ds ++ [c_dot] ++ ws ++ u "Response " ++ [c] ++ rest)
           ((ds ++ [c_dot] ++ ws) ++ u "Response " ++ [c], rest).
Proof.
  intros Hne Hd Hs Hc. unfold re_numbered.
  change (ends (Seq ordinal (Seq (lits (u "Response ")) (One Upper))))
    with (seq_ends (ends ordinal) (ends re_mention)).
  apply (@first_seq _ _ prev _ (ds ++ [c_dot] ++ ws)
                    (u "Response " ++ [c] ++ rest) (u "Response " ++ [c]) rest).
  - replace (ds ++ [c_dot] ++ ws ++ u "Response " ++ [c] ++ rest)
      with (ds ++ [c_dot] ++ ws ++ (u "Response " ++ [c] ++ rest)) by reflexivity.
    apply first_ordinal; auto.
  - apply first_mention; auto.
Qed.

(** [strip_ordinal] leaves the label of a numbered item. *)
Lemma strip_ordinal_item ds ws c :
  ds <> [] -> forallb is_digit ds = true -> forallb is_space ws = true ->
  strip_ordinal (ds ++ [c_dot] ++ ws ++ u "Response " ++ [c])
  = u "Response " ++ [c].
Proof.
  intros Hne Hd Hs. unfold strip_ordinal, replace.
  assert (E : exec_here re_leading_ordinal None
                (ds ++ [c_dot] ++ ws ++ u "Response " ++ [c])
              = Some (ds ++ [c_dot] ++ ws, u "Response " ++ [c])).
  { apply first_exec. unfold re_leading_ordinal.
    change (ends (Seq Bol ordinal)) with (seq_ends (ends Bol) (ends ordinal)).
    apply (@first_seq _ _ None _ [] (ds ++ [c_dot] ++ ws ++ u "Response " ++ [c])
                      (ds ++ [c_dot] ++ ws) (u "Response " ++ [c])).
    - unfold first_is. simpl. eexists; reflexivity.
    - apply first_ordinal; auto. }
  destruct ds as [|d ds]; [congruence|].
  simpl search. simpl in E. rewrite E. reflexivity.
Qed.

Lemma strip_ordinal_numbered m :
  lang re_numbered m ->
  exists c, strip_ordinal m = u "Response " ++ [c] /\ is_upper c = true.
Proof.
  intros H. apply lang_numbered in H as (ds & ws & c & -> & Hne & Hd & Hs & Hc).
  exists c. split; [now apply strip_ordinal_item | assumption].
Qed.

(** ** A numbered list is read item by item *)

Lemma search_nil r prev :
  search r prev []
  = match exec_here r prev [] with
    | Some (w, rest) => Some ([], w, rest)
    | None => None
    end.
Proof. reflexivity. Qed.

Lemma search_cons r prev c s :
  search r prev (c :: s)
  = match exec_here r prev (c :: s) with
    | Some (w, rest) => Some ([], w, rest)
    | None =>
        match search r (Some c) s with
        | Some (skipped, w, rest) => Some (c :: skipped, w, rest)
        | None => None
        end
    end.
Proof. reflexivity. Qed.

Lemma search_here r prev s w rest :
  exec_here r prev s = Some (w, rest) -> search r prev s = Some ([], w, rest).
Proof. intros E. destruct s; [rewrite search_nil | rewrite search_cons]; now rewrite E. Qed.

Lemma matches_from_S f r prev s :
  matches_from (S f) r prev s
  = match search r prev s with
    | None => []
    | Some (skipped, w, rest) =>
        match w, rest with
        | [], [] => [w]
        | [], c :: rest' => w :: matches_from f r (Some c) rest'
        | _ :: _, _ =>
            w :: matches_from f r (last_char (last_char prev skipped) w) rest
        end
    end.
Proof. reflexivity. Qed.

Lemma numbered_needs_digit prev s :
  match s with [] => true | c :: _ => negb (is_digit c) end = true ->
  ends re_numbered prev s = [].
Proof.
  intros H. unfold re_numbered, ordinal.
  change (ends (Seq (Seq (Plus (One Digit)) (Seq (One (Lit c_dot)) (Star (One Space))))
                    (Seq (lits (u "Response ")) (One Upper))) prev s)
    with (seq_ends
            (seq_ends (seq_ends (ends (One Digit)) (star_ends (ends (One Digit))))
                      (ends (Seq (One (Lit c_dot)) (Star (One Space)))))
            (ends (Seq (lits (u "Response ")) (One Upper))) prev s).
  unfold seq_ends at 1 2 3.
  replace (ends (One Digit) prev s) with (@nil cand); [reflexivity|].
  destruct s as [|c s]; [reflexivity|].
  apply negb_true_iff in H. simpl. change (atom_ok Digit c) with (is_digit c).
  now rewrite H.
Qed.

Lemma search_numbered_none : forall s prev,
  no_digit s = true -> search re_numbered prev s = None.
Proof.
  induction s as [|c s IH]; intros prev H.
  - rewrite search_nil. unfold exec_here.
    rewrite numbered_needs_digit; reflexivity.
  - simpl in H. apply andb_true_iff in H as [Hc Hs].
    rewrite search_cons. unfold exec_here.
    rewrite numbered_needs_digit by exact Hc. simpl.
    now rewrite IH.
Qed.

Lemma search_numbered_item : forall skip prev it rest,
  no_digit skip = true -> item_ok it = true ->
  search re_numbered prev (skip ++ item_text it ++ rest)
  = Some (skip, item_text it, rest).
Proof.
  induction skip as [|c skip IH]; intros prev it rest Hk Hit.
  - unfold item_ok in Hit.
    repeat (apply andb_true_iff in Hit as [Hit ?]).
    assert (Hne : ord it <> []) by (destruct (ord it); [discriminate | discriminate]).
    assert (E : exec_here re_numbered prev (item_text it ++ rest)
                = Some (item_text it, rest)).
    { apply first_exec. unfold item_text, label_of.
      replace ((ord it ++ [c_dot] ++ gap it ++ u "Response " ++ [letter it]) ++ rest)
        with (ord it ++ [c_dot] ++ gap it ++ u "Response " ++ [letter it] ++ rest)
        by (rewrite <- !app_assoc; reflexivity).
      replace (ord it ++ [c_dot] ++ gap it ++ u "Response " ++ [letter it])
        with ((ord it ++ [c_dot] ++ gap it) ++ u "Response " ++ [letter it])
        by (rewrite <- !app_assoc; reflexivity).
      apply first_numbered; auto. }
    simpl app at 1. now apply search_here.
  - simpl in Hk. apply andb_true_iff in Hk as [Hc Hk].
    change ((c :: skip) ++ item_text it ++ rest)
      with (c :: skip ++ item_text it ++ rest).
    rewrite search_cons. unfold exec_here.
    rewrite numbered_needs_digit by exact Hc. simpl.
    now rewrite IH.
Qed.

Lemma item_text_cons it :
  item_ok it = true -> exists c w, item_text it = c :: w.
Proof.
  unfold item_ok, item_text. intros H.
  repeat (apply andb_true_iff in H as [H ?]).
  destruct (ord it) as [|c w]; [discriminate|]. eexists _, _; reflexivity.
Qed.

Lemma matches_numbered_list : forall items fuel prev trailer,
  forallb item_ok items = true -> no_digit trailer = true ->
  length items < fuel ->
  matches_from fuel re_numbered prev (numbered_list items ++ trailer)
  = map item_text items.
Proof.
  induction items as [|it items IH]; intros fuel prev trailer Hok Htr Hf;
    (destruct fuel as [|f]; [simpl in Hf; lia|]).
  - rewrite matches_from_S. simpl numbered_list. simpl app.
    now rewrite search_numbered_none.
  - simpl in Hok. apply andb_true_iff in Hok as [Hit Hok].
    change (numbered_list (it :: items))
      with ((sep it ++ item_text it) ++ numbered_list items).
    rewrite matches_from_S.
    replace (((sep it ++ item_text it) ++ numbered_list items) ++ trailer)
      with (sep it ++ item_text it ++ (numbered_list items ++ trailer))
      by (rewrite <- !app_assoc; reflexivity).
    rewrite search_numbered_item; auto.
    2:{ unfold item_ok in Hit. repeat (apply andb_true_iff in Hit as [Hit ?]).
        exact Hit. }
    destruct (item_text_cons _ Hit) as (c & w & E).
    simpl map. rewrite E.
    f_equal. apply IH; auto. simpl in Hf. lia.
Qed.

Lemma strip_ordinal_text it :
  item_ok it = true -> strip_ordinal (item_text it) = label_of (letter it).
Proof.
  unfold item_ok. intros H. repeat (apply andb_true_iff in H as [H ?]).
  apply strip_ordinal_item; auto.
  destruct (ord it); [discriminate | discriminate].
Qed.

(** ** The marker is found where it first stands *)

Lemma marker_chars :
  marker = [70; 73; 78; 65; 76; 32; 82; 65; 78; 75; 73; 78; 71; 58]%N.
Proof. reflexivity. Qed.

Lemma indexOf_from_cons c s p i :
  indexOf_from (c :: s) p i
  = if starts_with p (c :: s) then i else indexOf_from s p (i + 1).
Proof. reflexivity. Qed.

Lemma indexOf_from_range p : forall s i,
  (0 <= i)%Z -> indexOf_from s p i = (-1)%Z \/ (i <= indexOf_from s p i)%Z.
Proof.
  induction s as [|c s IH]; intros i Hi; simpl.
  - destruct (starts_with p []); [right; lia | left; reflexivity].
  - destruct (starts_with p (c :: s)); [right; lia|].
    destruct (IH (i + 1)%Z ltac:(lia)) as [E|E]; [now left | right; lia].
Qed.

Lemma indexOf_from_shift p : forall s i,
  (0 <= i)%Z ->
  indexOf_from s p i
  = if Z.eqb (indexOf_from s p 0) (-1) then (-1)%Z
    else (i + indexOf_from s p 0)%Z.
Proof.
  induction s as [|c s IH]; intros i Hi; simpl.
  - destruct (starts_with p []); simpl; [f_equal; lia | reflexivity].
  - destruct (starts_with p (c :: s)); simpl; [f_equal; lia|].
    rewrite (IH (i + 1)%Z), (IH 1%Z) by lia.
    destruct (Z.eqb (indexOf_from s p 0) (-1)) eqn:E; [reflexivity|].
    apply Z.eqb_neq in E.
    destruct (@indexOf_from_range p s 0%Z ltac:(lia)) as [F|F]; [contradiction|].
    destruct (Z.eqb (1 + indexOf_from s p 0) (-1)) eqn:E2.
    + apply Z.eqb_eq in E2. lia.
    + lia.
Qed.

Lemma includes_cons c s p :
  includes (c :: s) p = false ->
  starts_with p (c :: s) = false /\ includes s p = false.
Proof.
  unfold includes, indexOf. simpl. intros H.
  destruct (starts_with p (c :: s)); [simpl in H; discriminate|].
  split; [reflexivity|].
  rewrite indexOf_from_shift in H by lia.
  destruct (Z.eqb (indexOf_from s p 0) (-1)) eqn:E; [reflexivity|].
  apply Z.eqb_neq in E. apply negb_false_iff, Z.eqb_eq in H.
  destruct (@indexOf_from_range p s 0%Z ltac:(lia)) as [F|F]; [contradiction | lia].
Qed.

(** No proper end of the marker is a start of it, so an occurrence cannot
    begin in the prose and finish in the marker that follows. *)
Lemma marker_no_border x rest :
  x <> [] ->
  starts_with marker (x ++ marker ++ rest) = starts_with marker x.
Proof.
  intros Hx. rewrite marker_chars.
  destruct x as [|c1 x]; [congruence|].
  do 14 (destruct x as [|? x]; [simpl; reflexivity|]).
  simpl. reflexivity.
Qed.

Lemma indexOf_from_marker rest : forall prose i,
  includes prose marker = false ->
  indexOf_from (prose ++ marker ++ rest) marker i
  = (i + Z.of_nat (length prose))%Z.
Proof.
  induction prose as [|c prose IH]; intros i H.
  - change ([] ++ marker ++ rest) with (marker ++ rest).
    pose proof (starts_with_app marker rest) as S.
    assert (E : exists c t, marker ++ rest = c :: t)
      by (rewrite marker_chars; simpl; eauto).
    destruct E as (c & t & E). rewrite E in *.
    rewrite indexOf_from_cons, S. simpl. lia.
  - apply includes_cons in H as [Hs Hi].
    change ((c :: prose) ++ marker ++ rest) with (c :: prose ++ marker ++ rest).
    rewrite indexOf_from_cons.
    change (c :: prose ++ marker ++ rest) with ((c :: prose) ++ marker ++ rest).
    rewrite marker_no_border by discriminate. rewrite Hs.
    rewrite IH by assumption. simpl length. lia.
Qed.

Lemma slice_app (a b : jstr) : slice (a ++ b) (Z.of_nat (length a)) = b.
Proof.
  unfold slice. rewrite length_app.
  destruct (Z.ltb_spec (Z.of_nat (length a)) 0); [lia|].
  rewrite Z.min_l by lia. rewrite Nat2Z.id.
  rewrite skipn_app, skipn_all, Nat.sub_diag. reflexivity.
Qed.

Lemma numbered_list_length items :
  forallb item_ok items = true -> length items <= length (numbered_list items).
Proof.
  induction items as [|it items IH]; intros H; [simpl; lia|].
  simpl in H. apply andb_true_iff in H as [Hit H].
  destruct (item_text_cons _ Hit) as (c & w & E).
  change (numbered_list (it :: items))
    with ((sep it ++ item_text it) ++ numbered_list items).
  rewrite !length_app, E. specialize (IH H). simpl. lia.
Qed.

Lemma match_g_numbered_list it items trailer :
  forallb item_ok (it :: items) = true -> no_digit trailer = true ->
  match_g re_numbered (marker ++ numbered_list (it :: items) ++ trailer)
  = Some (map item_text (it :: items)).
Proof.
  intros Hok Htr.
  set (it' := {| sep := marker ++ sep it; ord := ord it; gap := gap it;
                 letter := letter it |}).
  assert (Hok' : forallb item_ok (it' :: items) = true).
  { change (forallb item_ok (it :: items))
      with (item_ok it && forallb item_ok items)%bool in Hok.
    change (forallb item_ok (it' :: items))
      with (item_ok it' && forallb item_ok items)%bool.
    apply andb_true_iff in Hok as [Hit Hok]. rewrite Hok, andb_true_r.
    unfold item_ok in Hit |- *. unfold it' at 2 3 4 5.
    apply andb_true_iff in Hit as [Hit Hu].
    apply andb_true_iff in Hit as [Hit Hg].
    apply andb_true_iff in Hit as [Hit Hd].
    apply andb_true_iff in Hit as [Hit Ho].
    assert (Hm : no_digit (sep it') = true).
    { unfold it', sep, no_digit. rewrite forallb_app.
      apply andb_true_iff; split; [reflexivity | exact Hit]. }
    rewrite Hm. cbn [ord gap letter].
    now rewrite Ho, Hd, Hg, Hu. }
  assert (E : marker ++ numbered_list (it :: items) ++ trailer
              = numbered_list (it' :: items) ++ trailer).
  { unfold numbered_list. simpl. now rewrite <- !app_assoc. }
  rewrite E. unfold match_g.
  rewrite matches_numbered_list; [reflexivity | assumption | assumption |].
  rewrite length_app. pose proof (numbered_list_length _ Hok'). lia.
Qed.

Lemma map_strip_ordinal items :
  forallb item_ok items = true ->
  map strip_ordinal (map item_text items)
  = map (fun it => label_of (letter it)) items.
Proof.
  induction items as [|it items IH]; intros H; simpl; [reflexivity|].
  simpl in H. apply andb_true_iff in H as [Hit H].
  rewrite strip_ordinal_text, IH; auto.
Qed.

(** C2.  A text made of any prose that does not hold the marker, then
    [FINAL RANKING:], then a numbered list of full labels (each item a run of
    digits, a period, optional whitespace and [Response] with one capital
    letter; no digit between the items or after the last), parses to the
    labels of the list, in order, without their ordinals.  Scenario A is the
    second part. *)
Theorem parseRanking_headered_list :
  (forall (prose : jstr) (items : list item) (trailer : jstr),
     includes prose marker = false ->
     items <> [] ->
     forallb item_ok items = true ->
     no_digit trailer = true ->
     parseRanking (prose ++ marker ++ numbered_list items ++ trailer)
     = map (fun it => label_of (letter it)) items)
  /\ parseRanking
       (u "FINAL RANKING:" ++ nl ++ u "1. Response B" ++ nl
          ++ u "2. Response A" ++ nl ++ u "3. Response C")
     = [u "Response B"; u "Response A"; u "Response C"].
Proof.
  split; [|vm_compute; reflexivity].
  intros prose items trailer Hprose Hne Hok Htr.
  unfold parseRanking, indexOf.
  rewrite indexOf_from_marker by assumption.
  destruct (Z.eqb_spec (0 + Z.of_nat (length prose)) (-1)) as [E|_]; [lia|].
  rewrite Z.add_0_l, slice_app.
  destruct items as [|it items]; [congruence|].
  unfold headered. rewrite match_g_numbered_list by assumption.
  change (map item_text (it :: items))
    with (item_text it :: map item_text items).
  change (item_text it :: map item_text items)
    with (map item_text (it :: items)).
  now rewrite map_strip_ordinal.
Qed.

(** The theorem on a text with prose before the marker and a two-item
    list after it. *)
Lemma parseRanking_headered_list_witness :
  parseRanking
    (u "Response A is good." ++ nl ++ marker
       ++ numbered_list
            [ {| sep := nl; ord := u "1"; gap := u " "; letter := 66%N |};
              {| sep := nl; ord := u "2"; gap := u " "; letter := 65%N |} ]
       ++ nl)
  = [label_of 66%N; label_of 65%N].
Proof.
  apply (proj1 parseRanking_headered_list
           (u "Response A is good." ++ nl)
           [ {| sep := nl; ord := u "1"; gap := u " "; letter := 66%N |};
             {| sep := nl; ord := u "2"; gap := u " "; letter := 65%N |} ]
           nl).
  - vm_compute; reflexivity.
  - discriminate.
  - vm_compute; reflexivity.
  - vm_compute; reflexivity.
Defined.

(** ** Mentions, kept once each *)

Lemma filter_twice A (p q : A -> bool) (l : list A) :
  filter p (filter q l) = filter (fun y => p y && q y)%bool l.
Proof.
  induction l as [|x l IH]; simpl; [reflexivity|].
  destruct (q x) eqn:Q; simpl; destruct (p x); simpl; now rewrite ?IH.
Qed.

Lemma fold_set_add : forall l acc,
  fold_left set_add l acc
  = acc ++ filter (fun y => negb (mem y acc)) (keep_firsts l).
Proof.
  induction l as [|x l IH]; intros acc; simpl.
  - now rewrite app_nil_r.
  - unfold set_add at 2. destruct (mem x acc) eqn:Hx; simpl.
    + rewrite IH. f_equal. rewrite filter_twice. apply filter_ext.
      intros y. destruct (str_eqb y x) eqn:E; simpl.
      * apply str_eqb_eq in E. subst. now rewrite Hx.
      * now rewrite andb_true_r.
    + rewrite IH, <- app_assoc. simpl. f_equal. f_equal.
      rewrite filter_twice. apply filter_ext.
      intros y. unfold mem. rewrite existsb_app. simpl.
      rewrite orb_false_r, negb_orb. reflexivity.
Qed.

Lemma set_spread_keep_firsts l : set_spread l = keep_firsts l.
Proof.
  unfold set_spread. rewrite fold_set_add. simpl.
  induction (keep_firsts l) as [|x k IH]; simpl; [reflexivity | now rewrite IH].
Qed.

Lemma keep_firsts_In l : forall y, In y (keep_firsts l) <-> In y l.
Proof.
  induction l as [|x l IH]; intros y; simpl; [tauto|].
  rewrite filter_In, IH, negb_true_iff, str_eqb_neq.
  destruct (str_eqb y x) eqn:E.
  - apply str_eqb_eq in E. subst. tauto.
  - apply str_eqb_neq in E. split; [tauto|]. intros [H|H]; [now left | right; auto].
Qed.

Lemma keep_firsts_NoDup l : NoDup (keep_firsts l).
Proof.
  induction l as [|x l IH]; simpl; constructor.
  - rewrite filter_In, negb_true_iff, str_eqb_neq. tauto.
  - now apply NoDup_filter.
Qed.

Lemma filter_positions A (p : A -> bool) : forall (l : list A) i j a b,
  i < j ->
  nth_error (filter p l) i = Some a -> nth_error (filter p l) j = Some b ->
  exists i' j', i' < j' /\ nth_error l i' = Some a /\ nth_error l j' = Some b.
Proof.
  induction l as [|x l IH]; intros i j a b Hij Ha Hb; simpl in *.
  - destruct i; discriminate.
  - destruct (p x).
    + destruct i as [|i].
      * destruct j as [|j]; [lia|]. simpl in *.
        assert (Hin : In b l).
        { apply nth_error_In in Hb. apply filter_In in Hb. tauto. }
        apply In_nth_error in Hin as [j' Hj'].
        exists 0, (S j'). simpl. repeat split; auto. lia.
      * destruct j as [|j]; [lia|]. simpl in *.
        destruct (IH i j a b ltac:(lia) Ha Hb) as (i' & j' & L & A1 & B1).
        exists (S i'), (S j'). simpl. repeat split; auto. lia.
    + destruct (IH i j a b Hij Ha Hb) as (i' & j' & L & A1 & B1).
      exists (S i'), (S j'). simpl. repeat split; auto. lia.
Qed.

(** In [keep_firsts l] the elements stand in the order of their first
    positions in [l]. *)
Lemma keep_firsts_order : forall l i j x y,
  i < j ->
  nth_error (keep_firsts l) i = Some x ->
  nth_error (keep_firsts l) j = Some y ->
  first_index x l < first_index y l.
Proof.
  induction l as [|z l IH]; intros i j x y Hij Hx Hy.
  - destruct i; discriminate.
  - simpl keep_firsts in Hx, Hy. destruct j as [|j]; [lia|]. simpl in Hy.
    assert (Hyz : str_eqb z y = false).
    { apply nth_error_In in Hy. apply filter_In in Hy as [_ Hy].
      apply negb_true_iff, str_eqb_neq in Hy. apply str_eqb_neq. congruence. }
    destruct i as [|i]; simpl in Hx.
    + inversion Hx; subst. simpl. rewrite str_eqb_refl, Hyz. lia.
    + assert (Hxz : str_eqb z x = false).
      { apply nth_error_In in Hx. apply filter_In in Hx as [_ Hx].
        apply negb_true_iff, str_eqb_neq in Hx. apply str_eqb_neq. congruence. }
      simpl. rewrite Hxz, Hyz.
      assert (Hij' : i < j) by lia.
      destruct (@filter_positions _ _ _ _ _ _ _ Hij' Hx Hy)
        as (i' & j' & L & A1 & B1).
      specialize (IH i' j' x y L A1 B1). lia.
Qed.

(** ** A mention in the text is found *)

Lemma search_reaches r : forall before prev s,
  (exists c, exec_here r (last_char prev before) s = Some c) ->
  exists skipped w rest, search r prev (before ++ s) = Some (skipped, w, rest).
Proof.
  induction before as [|d before IH]; intros prev s [[w rest] E].
  - exists [], w, rest. now apply search_here.
  - change ((d :: before) ++ s) with (d :: before ++ s). rewrite search_cons.
    destruct (exec_here r prev (d :: before ++ s)) as [[w' rest']|]; [eauto|].
    destruct (IH (Some d) s) as (sk & w1 & r1 & E1); [eauto|].
    rewrite E1. eauto.
Qed.

Lemma match_g_finds r s :
  (exists skipped w rest, search r None s = Some (skipped, w, rest)) ->
  exists m more, match_g r s = Some (m :: more).
Proof.
  intros (sk & w & rest & E). unfold match_g. rewrite matches_from_S, E.
  destruct w as [|c w]; [destruct rest|]; eauto.
Qed.

Lemma match_g_found r s l :
  match_g r s = Some l ->
  exists skipped w rest, s = skipped ++ w ++ rest /\ lang r w.
Proof.
  unfold match_g. rewrite matches_from_S.
  destruct (search r None s) as [[[sk w] rest]|] eqn:E; [|discriminate].
  intros _. exists sk, w, rest. exact (search_sound _ _ _ E).
Qed.

(** The scans find what stands in the text, and nothing else. *)
Lemma mention_found_iff text :
  holds_mention text <-> exists l, match_g re_mention text = Some l.
Proof.
  split.
  - intros (before & c & after & -> & Hc).
    destruct (@match_g_finds re_mention (before ++ label_of c ++ after))
      as (m & more & E); [|eauto].
    apply search_reaches. eexists. apply first_exec.
    unfold label_of. rewrite <- app_assoc. now apply first_mention.
  - intros [l E]. apply match_g_found in E as (sk & w & rest & -> & L).
    apply lang_mention in L as (c & -> & Hc).
    exists sk, c, rest. split; [reflexivity | assumption].
Qed.

Lemma numbered_found_iff text :
  holds_numbered text <-> exists l, match_g re_numbered text = Some l.
Proof.
  split.
  - intros (before & ds & ws & c & after & -> & Hne & Hd & Hs & Hc).
    destruct (@match_g_finds re_numbered
                (before ++ ds ++ [c_dot] ++ ws ++ label_of c ++ after))
      as (m & more & E); [|eauto].
    apply search_reaches. eexists. apply first_exec.
    unfold label_of. rewrite <- app_assoc. now apply first_numbered.
  - intros [l E]. apply match_g_found in E as (sk & w & rest & -> & L).
    apply lang_numbered in L as (ds & ws & c & -> & Hne & Hd & Hs & Hc).
    exists sk, ds, ws, c, rest. repeat split; auto.
    unfold label_of. now rewrite <- !app_assoc.
Qed.

Lemma includes_false_indexOf s p : includes s p = false -> indexOf s p = (-1)%Z.
Proof.
  unfold includes. intros H. now apply negb_false_iff, Z.eqb_eq in H.
Qed.

Lemma parseRanking_no_marker text :
  includes text marker = false -> parseRanking text = unheadered text.
Proof.
  intros H. unfold parseRanking. now rewrite (includes_false_indexOf _ _ H).
Qed.

(** ** The mentions, from left to right *)

Lemma label_of_length c : length (label_of c) = 10.
Proof. reflexivity. Qed.

Lemma mention_here c prev rest :
  is_upper c = true ->
  exec_here re_mention prev (label_of c ++ rest) = Some (label_of c, rest).
Proof.
  intros Hc. apply first_exec. unfold label_of. rewrite <- app_assoc.
  now apply first_mention.
Qed.

(** The search stops at the first mention of the text. *)
Lemma search_mention_leftmost : forall s prev skipped w rest,
  search re_mention prev s = Some (skipped, w, rest) ->
  exists c, w = label_of c /\ leftmost_mention s skipped c rest.
Proof.
  intros s prev skipped w rest E.
  destruct (search_sound _ _ _ E) as [Hs L].
  apply lang_mention in L as (c & -> & Hc).
  exists c. split; [reflexivity|]. split; [exact Hs|]. split; [exact Hc|].
  clear Hs Hc. revert prev skipped E.
  induction s as [|d s IH]; intros prev skipped E before' c' after' Hs' Hc'.
  - rewrite search_nil in E.
    destruct (exec_here re_mention prev []) as [[w0 r0]|]; [|discriminate].
    inversion E; subst. simpl. lia.
  - rewrite search_cons in E.
    destruct (exec_here re_mention prev (d :: s)) as [[w0 r0]|] eqn:X.
    + inversion E; subst. simpl. lia.
    + destruct (search re_mention (Some d) s) as [[[sk w1] r1]|] eqn:Y;
        [|discriminate].
      inversion E; subst. clear E.
      destruct before' as [|b before'].
      * cbn [app] in Hs'. rewrite Hs' in X.
        rewrite mention_here in X by assumption. discriminate.
      * simpl in Hs'. inversion Hs'; subst.
        simpl. apply le_n_S.
        eapply IH; [exact Y | reflexivity | exact Hc'].
Qed.

Lemma search_mention_none s prev :
  search re_mention prev s = None -> ~ holds_mention s.
Proof.
  intros E (before & c & after & -> & Hc).
  destruct (@search_reaches re_mention before prev (label_of c ++ after))
    as (sk & w & r & F).
  - eexists. now apply mention_here.
  - congruence.
Qed.

Lemma matches_mentions : forall fuel s prev,
  length s < fuel -> mentions_of s (matches_from fuel re_mention prev s).
Proof.
  induction fuel as [|f IH]; intros s prev Hf; [lia|].
  rewrite matches_from_S.
  destruct (search re_mention prev s) as [[[sk w] rest]|] eqn:E.
  - destruct (search_mention_leftmost _ _ E) as (c & -> & L).
    apply mentions_next with (before := sk) (after := rest); [exact L|].
    apply IH. destruct L as (-> & _ & _).
    rewrite !length_app, label_of_length in Hf. lia.
  - apply mentions_none. eapply search_mention_none; eauto.
Qed.

Lemma same_start A : forall (a b x y : list A),
  a ++ x = b ++ y -> length a = length b -> a = b /\ x = y.
Proof.
  induction a as [|h a IH]; intros [|k b] x y E L; simpl in *;
    try discriminate; [tauto|].
  inversion E; subst.
  destruct (IH b x y) as [-> ->]; [assumption | lia | tauto].
Qed.

Lemma earlier_start A : forall (a b x y : list A),
  a ++ x = b ++ y -> length a <= length b ->
  exists l, b = a ++ l /\ x = l ++ y.
Proof.
  induction a as [|h a IH]; intros b x y E L; simpl in *; [eauto|].
  destruct b as [|k b]; simpl in *; [lia|].
  inversion E; subst.
  destruct (IH b x y) as (l & -> & ->); [assumption | lia | eauto].
Qed.

Lemma label_of_inj c c' : label_of c = label_of c' -> c = c'.
Proof.
  unfold label_of. intros H. apply app_inv_head in H. now inversion H.
Qed.

Lemma leftmost_unique text before c after before' c' after' :
  leftmost_mention text before c after ->
  leftmost_mention text before' c' after' ->
  before = before' /\ c = c' /\ after = after'.
Proof.
  intros (E & Hc & Hmin) (E' & Hc' & Hmin').
  pose proof (Hmin _ _ _ E' Hc') as L1.
  pose proof (Hmin' _ _ _ E Hc) as L2.
  rewrite E in E'.
  destruct (same_start _ _ _ _ E') as [-> E2]; [lia|].
  destruct (same_start _ _ _ _ E2) as [E3 ->]; [reflexivity|].
  apply label_of_inj in E3. auto.
Qed.

(** A text has one sequence of mentions. *)
Lemma mentions_unique text l :
  mentions_of text l -> forall l', mentions_of text l' -> l = l'.
Proof.
  induction 1 as [text Hn | text before c after rest L M IH];
    intros l' M'; inversion M' as [t Hn' | t before' c' after' rest' L' M2];
    subst.
  - reflexivity.
  - exfalso. apply Hn. destruct L' as (E & Hc & _). now exists before', c', after'.
  - exfalso. apply Hn'. destruct L as (E & Hc & _). now exists before, c, after.
  - destruct (leftmost_unique L L') as (-> & -> & ->).
    f_equal. now apply IH.
Qed.

Lemma part_inside p s a b : part p s -> part p (a ++ s ++ b).
Proof.
  intros (x & y & ->). exists (a ++ x), (y ++ b). now rewrite <- !app_assoc.
Qed.

(** A label that stands in the text is among its mentions, unless it begins
    inside the mention before: after [Response R] in [Response Response X]. *)
Lemma mentions_cover text l :
  mentions_of text l ->
  forall c, is_upper c = true -> part (label_of c) text ->
  In (label_of c) l \/ part (u "Response Response " ++ [c]) text.
Proof.
  induction 1 as [text Hn | text before c0 after rest L M IH];
    intros c Hc (a & b & E).
  - exfalso. apply Hn. now exists a, c, b.
  - destruct L as (E0 & Hc0 & Hmin).
    pose proof (Hmin _ _ _ E Hc) as Hle.
    rewrite E0 in E.
    destruct (earlier_start _ _ _ _ E Hle) as (l & -> & E1).
    clear E Hmin Hle.
    assert (Far : forall l', after = l' ++ label_of c ++ b ->
              In (label_of c) (label_of c0 :: rest)
              \/ part (u "Response Response " ++ [c]) text).
    { intros l' ->. destruct (IH c Hc) as [I|P]; [now exists l', b | |].
      - left. now right.
      - right. rewrite E0.
        apply part_inside with (a := before ++ label_of c0) (b := []) in P.
        now rewrite app_nil_r, <- app_assoc in P. }
    unfold label_of in E1. simpl in E1.
    destruct l as [|? l]; [|simpl in E1].
    { left. left. inversion E1; subst. reflexivity. }
    do 8 (destruct l as [|? l]; [discriminate E1 | simpl in E1]).
    destruct l as [|? l]; [|simpl in E1].
    + right. inversion E1; subst. exists before, b. reflexivity.
    + inversion E1; subst. apply (Far l). reflexivity.
Qed.

Lemma mentions_scanned s :
  mentions_of s (matches_from (S (length s)) re_mention None s).
Proof. apply matches_mentions. lia. Qed.

(** C7, amended.  For a text without the marker and without a numbered
    [N. Response X] item, in which [Response X] stands somewhere: the parse
    is the sequence of the mentions of the text, read from left to right
    (the first one that stands in the text, then the first one that stands
    in what follows it, and so on: the text has one such sequence, and it is
    not empty), each kept where it first stands.  So the parse has no
    duplicate, holds exactly the labels of that sequence, and lists them by
    first appearance; and every label that stands in the text is returned,
    unless it stands after [Response ] in [Response Response X], where it
    begins inside the mention before. *)
Theorem parseRanking_mentions text :
  includes text marker = false ->
  ~ holds_numbered text ->
  holds_mention text ->
  exists mentions,
    mentions_of text mentions
    /\ (forall others, mentions_of text others -> others = mentions)
    /\ mentions <> []
    /\ Forall full_label mentions
    /\ parseRanking text = keep_firsts mentions
    /\ NoDup (parseRanking text)
    /\ (forall l, In l (parseRanking text) <-> In l mentions)
    /\ (forall i j x y, i < j ->
          nth_error (parseRanking text) i = Some x ->
          nth_error (parseRanking text) j = Some y ->
          first_index x mentions < first_index y mentions)
    /\ (forall c, is_upper c = true -> part (label_of c) text ->
          In (label_of c) (parseRanking text)
          \/ part (u "Response Response " ++ [c]) text).
Proof.
  intros Hm Hn Hh.
  assert (En : match_g re_numbered text = None).
  { destruct (match_g re_numbered text) as [l|] eqn:E; [|reflexivity].
    exfalso. apply Hn, numbered_found_iff. eauto. }
  pose proof (mentions_scanned text) as M.
  pose proof (matches_from_sound re_mention (S (length text)) None text) as F.
  assert (Em : match_g re_mention text
               = Some (matches_from (S (length text)) re_mention None text)).
  { unfold match_g.
    destruct (matches_from (S (length text)) re_mention None text);
      [|reflexivity].
    inversion M; subst. contradiction. }
  revert M F Em.
  generalize (matches_from (S (length text)) re_mention None text).
  intros mentions M F Em. exists mentions.
  assert (P : parseRanking text = keep_firsts mentions).
  { rewrite parseRanking_no_marker by assumption.
    unfold unheadered. rewrite En, Em.
    destruct mentions; [|apply set_spread_keep_firsts].
    inversion M; subst. contradiction. }
  split; [exact M|].
  split; [intros others O; exact (mentions_unique O M)|].
  split; [intros ->; inversion M; subst; contradiction|].
  split.
  { eapply Forall_impl; [|exact F]. intros l Hl. now apply lang_mention. }
  split; [exact P|]. rewrite P.
  split; [apply keep_firsts_NoDup|].
  split; [apply keep_firsts_In|].
  split; [apply keep_firsts_order|].
  intros c Hc Hp. destruct (mentions_cover M Hc Hp) as [I|R]; [left|now right].
  now apply keep_firsts_In.
Qed.

(** The theorem on a text that mentions A twice and B once: the mentions
    are A, A, B, and the parse is A, B. *)
Lemma parseRanking_mentions_witness :
  mentions_of
    (u "Response A is great. Response A was the best. Response B was ok.")
    [u "Response A"; u "Response A"; u "Response B"]
  /\ parseRanking
       (u "Response A is great. Response A was the best. Response B was ok.")
     = [u "Response A"; u "Response B"].
Proof.
  destruct (@parseRanking_mentions
              (u "Response A is great. Response A was the best. Response B was ok."))
    as (mentions & M & _ & _ & _ & P & _).
  - vm_compute; reflexivity.
  - intros H. apply numbered_found_iff in H as [l E].
    vm_compute in E. discriminate E.
  - exists [], 65%N, (u " is great. Response A was the best. Response B was ok.").
    split; reflexivity.
  - assert (E : mentions = [u "Response A"; u "Response A"; u "Response B"]).
    { apply (mentions_unique M).
      exact (mentions_scanned
               (u "Response A is great. Response A was the best. Response B was ok.")). }
    subst mentions. split; [exact M | exact P].
Defined.

(** C7 as stated fails twice.  Without the marker, a numbered list that
    repeats a label is returned with the repetition; and a label that
    begins inside the mention before it is not returned. *)
Lemma parseRanking_mentions_counterexample :
  (includes (u "1. Response A" ++ nl ++ u "2. Response A") marker = false
   /\ holds_mention (u "1. Response A" ++ nl ++ u "2. Response A")
   /\ parseRanking (u "1. Response A" ++ nl ++ u "2. Response A")
      = [u "Response A"; u "Response A"]
   /\ ~ NoDup (parseRanking (u "1. Response A" ++ nl ++ u "2. Response A")))
  /\ (includes (u "Response Response A") marker = false
      /\ ~ holds_numbered (u "Response Response A")
      /\ part (label_of 65%N) (u "Response Response A")
      /\ parseRanking (u "Response Response A") = [u "Response R"]
      /\ ~ In (label_of 65%N) (parseRanking (u "Response Response A"))).
Proof.
  assert (P : parseRanking (u "1. Response A" ++ nl ++ u "2. Response A")
              = [u "Response A"; u "Response A"]) by (vm_compute; reflexivity).
  assert (Q : parseRanking (u "Response Response A") = [u "Response R"])
    by (vm_compute; reflexivity).
  split.
  - split; [vm_compute; reflexivity|].
    split; [exists (u "1. "), 65%N, (nl ++ u "2. Response A"); split; reflexivity|].
    split; [exact P|].
    rewrite P. intros H. inversion H as [|x l Hin _]; subst.
    apply Hin. now left.
  - split; [vm_compute; reflexivity|].
    split.
    { intros H. apply numbered_found_iff in H as [l E].
      vm_compute in E. discriminate E. }
    split; [exists (u "Response "), []; reflexivity|].
    split; [exact Q|].
    rewrite Q. intros [H|[]]. vm_compute in H. discriminate H.
Qed.

(** ** The chain of [>] *)

Lemma is_upper_range c : is_upper c = true <-> (65 <= c <= 90)%N.
Proof.
  unfold is_upper. rewrite andb_true_iff, !N.leb_le. tauto.
Qed.

Lemma is_space_range c :
  is_space c = true -> (c <= 32 \/ 160 <= c)%N.
Proof.
  unfold is_space.
  rewrite !orb_true_iff, !andb_true_iff, !N.leb_le, !N.eqb_eq. lia.
Qed.

Lemma upper_not_space c : is_upper c = true -> is_space c = false.
Proof.
  intros H. apply is_upper_range in H.
  destruct (is_space c) eqn:E; [|reflexivity].
  apply is_space_range in E. lia.
Qed.

Lemma space_not_upper c : is_space c = true -> is_upper c = false.
Proof.
  intros H. destruct (is_upper c) eqn:E; [|reflexivity].
  apply upper_not_space in E. congruence.
Qed.

Lemma space_not_gt c : is_space c = true -> N.eqb c c_gt = false.
Proof.
  intros H. apply is_space_range in H. apply N.eqb_neq. unfold c_gt. lia.
Qed.

Lemma upper_not_gt c : is_upper c = true -> N.eqb c c_gt = false.
Proof.
  intros H. apply is_upper_range in H. apply N.eqb_neq. unfold c_gt. lia.
Qed.

Lemma trim_start_spaces ws rest :
  forallb is_space ws = true -> trim_start (ws ++ rest) = trim_start rest.
Proof.
  induction ws as [|c ws IH]; simpl; [reflexivity|]. intros H.
  apply andb_true_iff in H as [Hc H]. rewrite Hc. auto.
Qed.

Lemma forallb_rev_true A (p : A -> bool) (l : list A) :
  forallb p l = true -> forallb p (rev l) = true.
Proof.
  rewrite !forallb_forall. intros H x Hx. apply H. now apply in_rev.
Qed.

(** A capital letter between two runs of whitespace trims to the letter. *)
Lemma trim_letter ws1 c ws2 :
  forallb is_space ws1 = true -> forallb is_space ws2 = true ->
  is_upper c = true -> trim (ws1 ++ [c] ++ ws2) = [c].
Proof.
  intros H1 H2 Hc. unfold trim.
  rewrite trim_start_spaces by assumption. simpl.
  rewrite (upper_not_space _ Hc).
  change (c :: ws2) with ([c] ++ ws2). rewrite rev_app_distr.
  rewrite trim_start_spaces by (apply forallb_rev_true; assumption).
  simpl. now rewrite (upper_not_space _ Hc).
Qed.

Lemma no_gt_app a b : no_gt (a ++ b) = (no_gt a && no_gt b)%bool.
Proof. apply forallb_app. Qed.

Lemma no_gt_upper c : is_upper c = true -> no_gt [c] = true.
Proof.
  intros H. unfold no_gt. simpl. rewrite (upper_not_gt _ H). reflexivity.
Qed.

Lemma split_no_gt s : no_gt s = true -> split c_gt s = [s].
Proof.
  induction s as [|c s IH]; simpl; [reflexivity|]. intros H.
  apply andb_true_iff in H as [Hc H]. apply negb_true_iff in Hc.
  rewrite Hc, IH by assumption. reflexivity.
Qed.

Lemma split_at_gt s rest :
  no_gt s = true -> split c_gt (s ++ c_gt :: rest) = s :: split c_gt rest.
Proof.
  induction s as [|c s IH]; simpl; [reflexivity|]. intros H.
  apply andb_true_iff in H as [Hc H]. apply negb_true_iff in Hc.
  rewrite Hc, IH by assumption. reflexivity.
Qed.

Lemma spaces_no_gt ws : forallb is_space ws = true -> no_gt ws = true.
Proof.
  induction ws as [|c ws IH]; simpl; [reflexivity|]. intros H.
  apply andb_true_iff in H as [Hc H]. rewrite (space_not_gt _ Hc). simpl. auto.
Qed.

Lemma spaces_no_upper ws :
  forallb is_space ws = true -> filter is_upper ws = [].
Proof.
  induction ws as [|c ws IH]; simpl; [reflexivity|]. intros H.
  apply andb_true_iff in H as [Hc H]. rewrite (space_not_upper _ Hc). auto.
Qed.

Lemma lang_gt_step w :
  lang gt_step w ->
  exists ws1 ws2 c, w = ws1 ++ [c_gt] ++ ws2 ++ [c]
    /\ forallb is_space ws1 = true /\ forallb is_space ws2 = true
    /\ is_upper c = true.
Proof.
  intros H. unfold gt_step in H.
  apply lang_seq_inv in H as (ws1 & w2 & -> & H1 & H).
  apply lang_seq_inv in H as (g & w3 & -> & Hg & H).
  apply lang_seq_inv in H as (ws2 & l & -> & H2 & Hl).
  apply lang_star_atoms in H1. apply lang_star_atoms in H2.
  apply lang_one_inv in Hg as (x & -> & Hx). simpl in Hx.
  apply N.eqb_eq in Hx. subst.
  apply lang_one_inv in Hl as (c & -> & Hc).
  exists ws1, ws2, c. auto.
Qed.

(** Reading a chain from a letter on: the pieces between the [>] trim to
    the capital letters of the chain, in order. *)
Lemma chain_letters t :
  lang (Star gt_step) t ->
  forall ws c, forallb is_space ws = true -> is_upper c = true ->
    map trim (split c_gt (ws ++ [c] ++ t))
    = map (fun x => [x]) (c :: filter is_upper t).
Proof.
  intros H. induction H as [|w1 w2 H1 _ IH] using lang_star_ind;
    intros ws c Hws Hc.
  - rewrite app_nil_r. rewrite split_no_gt.
    + simpl. f_equal. rewrite <- (app_nil_r [c]).
      now apply trim_letter.
    + now rewrite no_gt_app, (spaces_no_gt _ Hws), (no_gt_upper _ Hc).
  - apply lang_gt_step in H1 as (ws1 & ws2 & d & -> & S1 & S2 & Hd).
    replace (ws ++ [c] ++ (ws1 ++ [c_gt] ++ ws2 ++ [d]) ++ w2)
      with ((ws ++ [c] ++ ws1) ++ c_gt :: (ws2 ++ [d] ++ w2))
      by (rewrite <- !app_assoc; reflexivity).
    rewrite split_at_gt.
    2:{ now rewrite !no_gt_app, (spaces_no_gt _ Hws), (spaces_no_gt _ S1),
          (no_gt_upper _ Hc). }
    rewrite map_cons, trim_letter by assumption.
    rewrite IH by assumption.
    f_equal. simpl. f_equal.
    replace ((ws1 ++ c_gt :: ws2 ++ [d]) ++ w2)
      with (ws1 ++ [c_gt] ++ ws2 ++ [d] ++ w2)
      by (repeat (rewrite <- app_assoc; simpl); reflexivity).
    rewrite !filter_app, (spaces_no_upper _ S1), (spaces_no_upper _ S2).
    simpl. rewrite Hd. reflexivity.
Qed.

Lemma test_single_upper c : is_upper c = true -> test re_single_upper [c] = true.
Proof.
  intros Hc. unfold test.
  rewrite (@search_here re_single_upper None [c] [c] []); [reflexivity|].
  apply first_exec. unfold re_single_upper.
  change (ends (Seq Bol (Seq (One Upper) Eol)))
    with (seq_ends (ends Bol) (seq_ends (ends (One Upper)) (ends Eol))).
  apply (@first_seq _ _ None [c] [] [c] [c] []).
  - unfold first_is. simpl. eexists; reflexivity.
  - apply (@first_seq _ _ _ [c] [c] [] [] []).
    + now apply first_one.
    + unfold first_is. simpl. eexists; reflexivity.
Qed.

Lemma gt_letters m :
  lang re_gt m ->
  map trim (split c_gt m) = map (fun x => [x]) (filter is_upper m)
  /\ forallb (test re_single_upper) (map trim (split c_gt m)) = true.
Proof.
  intros H. unfold re_gt in H.
  apply lang_seq_inv in H as (b & w & -> & Hb & H).
  apply (@lang_empty_inv WordB) in Hb; [|tauto]. subst b.
  apply lang_seq_inv in H as (l & w1 & -> & Hl & H).
  apply lang_one_inv in Hl as (c & -> & Hc).
  change (is_upper c = true) in Hc.
  apply lang_seq_inv in H as (g & t & -> & Hg & Ht).
  assert (Hs : lang (Star gt_step) (g ++ t)) by (now apply L_star_more).
  pose proof (@chain_letters _ Hs [] c eq_refl Hc) as E.
  change ([] ++ [c] ++ g ++ t) with (c :: g ++ t) in *.
  rewrite E.
  assert (F : filter is_upper (c :: g ++ t) = c :: filter is_upper (g ++ t)).
  { cbn [filter]. now rewrite Hc. }
  rewrite F. split.
  - reflexivity.
  - rewrite forallb_forall. intros x Hx.
    apply in_map_iff in Hx as [y [<- Hy]].
    apply test_single_upper.
    destruct Hy as [<-|Hy]; [assumption|].
    apply filter_In in Hy. tauto.
Qed.






(** ** The order of the strategies *)

Lemma unheadered_order text :
  unheadered text
  = match numbered_anywhere text with
    | Some l => l
    | None =>
        match mention_order text with
        | Some l => l
        | None => gt_chain text
        end
    end.
Proof.
  unfold unheadered, numbered_anywhere, mention_order.
  destruct (match_g re_numbered text) as [[|m ms]|];
    destruct (match_g re_mention text) as [[|n ns]|]; reflexivity.
Qed.

(** C6, amended.  The whole-text numbered search is tried whenever the
    marker is absent and also whenever the marker is present but neither
    post-marker strategy matches; mention order is used only when that
    search finds nothing, and the chain pattern after it. *)
Theorem parseRanking_falls_through text :
  includes text marker = false \/ header_fails text ->
  parseRanking text
  = match numbered_anywhere text with
    | Some l => l
    | None =>
        match mention_order text with
        | Some l => l
        | None => gt_chain text
        end
    end.
Proof.
  intros [H|[H1 H2]].
  - rewrite parseRanking_no_marker by assumption. apply unheadered_order.
  - unfold parseRanking. unfold includes in H1.
    apply negb_true_iff in H1. rewrite H1, H2. apply unheadered_order.
Qed.

(** The theorem on a text whose marker is followed by nothing that
    matches. *)
Lemma parseRanking_falls_through_witness :
  parseRanking
    (u "Response B is bad. 1. Response A 2. Response A FINAL RANKING: none")
  = match numbered_anywhere
            (u "Response B is bad. 1. Response A 2. Response A FINAL RANKING: none")
    with
    | Some l => l
    | None =>
        match mention_order
                (u "Response B is bad. 1. Response A 2. Response A FINAL RANKING: none")
        with
        | Some l => l
        | None =>
            gt_chain
              (u "Response B is bad. 1. Response A 2. Response A FINAL RANKING: none")
        end
    end.
Proof.
  apply parseRanking_falls_through.
  right. split; vm_compute; reflexivity.
Defined.

(** C6 as stated fails: here the marker is present, neither post-marker
    strategy matches, and the parse is the whole-text numbered list, with
    its repetition, not the mentions in order. *)
Lemma parseRanking_falls_through_counterexample :
  header_fails
    (u "Response B is bad. 1. Response A 2. Response A FINAL RANKING: none")
  /\ parseRanking
       (u "Response B is bad. 1. Response A 2. Response A FINAL RANKING: none")
     = [u "Response A"; u "Response A"]
  /\ mention_order
       (u "Response B is bad. 1. Response A 2. Response A FINAL RANKING: none")
     = Some [u "Response B"; u "Response A"].
Proof.
  split; [split|split]; vm_compute; reflexivity.
Qed.

(** ** Repeated labels *)

(** C10.  The numbered-list strategies, with or without the marker, return
    a repeated label as often as it is listed, and the aggregation then files
    one rank per listing: a single evaluation gives the model two ranks. *)
Theorem repeated_label_counts_twice :
  parseRanking (u "FINAL RANKING:" ++ nl ++ u "1. Response A" ++ nl
                  ++ u "2. Response A")
  = [u "Response A"; u "Response A"]
  /\ parseRanking (u "1. Response A" ++ nl ++ u "2. Response A")
     = [u "Response A"; u "Response A"]
  /\ (let text := u "FINAL RANKING:" ++ nl ++ u "1. Response A" ++ nl
                    ++ u "2. Response A" in
      let evaluations :=
        [ {| s2_model := u "m2"; evaluation := text;
             parsed_ranking := parseRanking text |} ] in
      calculateAggregateRankings evaluations [(u "Response A", u "m1")]
      = Returns [ {| ag_model := u "m1"; average_rank := 150;
                     rankings_count := 2 |} ]
      /\ length evaluations < 2).
Proof.
  repeat split; vm_compute; reflexivity.
Qed.

(** ** Anonymization *)

Lemma get_own_app V (o o' : obj V) k :
  get_own (o ++ o') k
  = match get_own o k with Some v => Some v | None => get_own o' k end.
Proof.
  induction o as [|[k' v'] o IH]; simpl; [reflexivity|].
  destruct (str_eqb k' k); auto.
Qed.

Lemma set_own_new V (o : obj V) k v :
  get_own o k = None -> set_own o k v = o ++ [(k, v)].
Proof.
  induction o as [|[k' v'] o IH]; simpl; [reflexivity|].
  destruct (str_eqb k' k); [discriminate|]. intros H. now rewrite IH.
Qed.

Lemma label_at_letter i :
  i < 26 ->
  label_at i = label_of (letter_at i)
  /\ is_upper (letter_at i) = true.
Proof.
  intros H. unfold label_at, label_of, letter_at. split.
  - rewrite N.mod_small by lia. reflexivity.
  - apply is_upper_range. lia.
Qed.

Lemma label_at_inj i j : i < 26 -> j < 26 -> label_at i = label_at j -> i = j.
Proof.
  intros Hi Hj E.
  rewrite (proj1 (label_at_letter Hi)), (proj1 (label_at_letter Hj)) in E.
  unfold label_of, letter_at in E. apply app_inv_head in E.
  assert (F : (65 + N.of_nat i = 65 + N.of_nat j)%N) by congruence. lia.
Qed.

Lemma anonymize_from_spec : forall stage1 i labelToModel,
  i + length stage1 <= 26 ->
  (forall j, i <= j < 26 -> get_own labelToModel (label_at j) = None) ->
  anonymize_from i stage1 labelToModel
  = (combine (map label_at (seq i (length stage1))) (map s1_response stage1),
     labelToModel
       ++ combine (map label_at (seq i (length stage1))) (map s1_model stage1)).
Proof.
  intros stage1.
  induction stage1 as [|entry rest IH]; intros i labelToModel Hn Hfree.
  - simpl. now rewrite app_nil_r.
  - simpl length in *. cbn [anonymize_from].
    rewrite set_own_new by (apply Hfree; lia).
    rewrite IH.
    + cbn [seq map combine]. rewrite <- app_assoc. reflexivity.
    + lia.
    + intros j Hj. rewrite get_own_app, (Hfree j) by lia. cbn [get_own].
      destruct (str_eqb (label_at i) (label_at j)) eqn:E; [|reflexivity].
      apply str_eqb_eq, label_at_inj in E; lia.
Qed.

Lemma labels_NoDup n : n <= 26 -> NoDup (map label_at (seq 0 n)).
Proof.
  intros H. apply NoDup_map_NoDup_ForallPairs; [|apply seq_NoDup].
  intros i j Hi Hj E. apply in_seq in Hi, Hj. apply label_at_inj; auto; lia.
Qed.

(** C9.  For at most 26 Stage 1 entries, the entry at position [i] gets the
    label [Response] followed by the [(i+1)]-th capital letter, with its
    response text beside it; the labels are pairwise distinct; the mapping
    has one entry per Stage 1 entry, which sends the label of position [i] to
    the model of position [i]; and the same input gives the same result. *)
Theorem anonymize_by_position (stage1 : list Stage1Entry) :
  length stage1 <= 26 ->
  let labels := map label_at (seq 0 (length stage1)) in
  anonymize stage1
  = (combine labels (map s1_response stage1),
     combine labels (map s1_model stage1))
  /\ (forall i entry, nth_error stage1 i = Some entry ->
        nth_error labels i = Some (label_of (letter_at i))
        /\ is_upper (letter_at i) = true
        /\ get_own (snd (anonymize stage1)) (label_of (letter_at i))
           = Some (s1_model entry))
  /\ NoDup labels
  /\ length (snd (anonymize stage1)) = length stage1
  /\ anonymize stage1 = anonymize stage1.
Proof.
  intros Hn labels.
  assert (E : anonymize stage1
              = (combine labels (map s1_response stage1),
                 combine labels (map s1_model stage1))).
  { unfold anonymize. rewrite anonymize_from_spec; auto. }
  split; [exact E|]. rewrite E. cbn [snd].
  split; [|split; [now apply labels_NoDup | split; [|reflexivity]]].
  - intros i entry Hi.
    assert (Hlt : i < length stage1) by (apply nth_error_Some; congruence).
    destruct (@label_at_letter i ltac:(lia)) as [L U].
    assert (Hl : nth_error labels i = Some (label_of (letter_at i))).
    { unfold labels. rewrite nth_error_map, nth_error_seq.
      destruct (Nat.ltb_spec i (length stage1)); [|lia]. simpl. now rewrite L. }
    split; [exact Hl|]. split; [exact U|].
    rewrite <- L. clear Hl.
    assert (G : forall (l : list Stage1Entry) k i e,
              k + length l <= 26 -> nth_error l i = Some e ->
              get_own (combine (map label_at (seq k (length l))) (map s1_model l))
                      (label_at (k + i)) = Some (s1_model e)).
    { induction l as [|x l IHl]; intros k j e Hk Hj; [destruct j; discriminate|].
      simpl length in *. cbn [seq map combine get_own].
      destruct j as [|j]; simpl in Hj.
      - inversion Hj; subst. rewrite Nat.add_0_r, str_eqb_refl. reflexivity.
      - destruct (str_eqb (label_at k) (label_at (k + S j))) eqn:Ek.
        + assert (S j < S (length l))
            by (apply -> Nat.succ_lt_mono; apply nth_error_Some; congruence).
          apply str_eqb_eq, label_at_inj in Ek; lia.
        + replace (k + S j) with (S k + j) by lia. apply IHl; [lia | exact Hj]. }
    apply (G stage1 0 i entry); [lia | exact Hi].
  - unfold labels. rewrite length_combine, !length_map, length_seq. lia.
Qed.

(** The theorem on two entries. *)
Lemma anonymize_by_position_witness :
  let stage1 := [ {| s1_model := u "model-a"; s1_response := u "one" |};
                  {| s1_model := u "model-b"; s1_response := u "two" |} ] in
  let labels := map label_at (seq 0 (length stage1)) in
  anonymize stage1
  = (combine labels (map s1_response stage1),
     combine labels (map s1_model stage1))
  /\ (forall i entry, nth_error stage1 i = Some entry ->
        nth_error labels i = Some (label_of (letter_at i))
        /\ is_upper (letter_at i) = true
        /\ get_own (snd (anonymize stage1)) (label_of (letter_at i))
           = Some (s1_model entry))
  /\ NoDup labels
  /\ length (snd (anonymize stage1)) = length stage1
  /\ anonymize stage1 = anonymize stage1.
Proof.
  apply (@anonymize_by_position
           [ {| s1_model := u "model-a"; s1_response := u "one" |};
             {| s1_model := u "model-b"; s1_response := u "two" |} ]).
  simpl. lia.
Defined.

(** ** The stable sort *)

Section SortByKey.

Variable A : Type.
Variable key : A -> Z.

Lemma sort_insert_perm x l : Permutation (sort_insert (by_key key) x l) (x :: l).
Proof.
  induction l as [|y l IH]; simpl; [reflexivity|].
  destruct (0 <? by_key key x y)%Z; [|reflexivity].
  rewrite IH. apply perm_swap.
Qed.

Lemma sort_perm l : Permutation (sort (by_key key) l) l.
Proof.
  induction l as [|x l IH]; simpl; [reflexivity|].
  rewrite sort_insert_perm. now constructor.
Qed.

Lemma sort_insert_sorted x l :
  Sorted (fun a b => (key a <= key b)%Z) l ->
  Sorted (fun a b => (key a <= key b)%Z) (sort_insert (by_key key) x l).
Proof.
  induction l as [|y l IH]; intros H; simpl.
  - repeat constructor.
  - unfold by_key at 1. destruct (Z.ltb_spec 0 (key x - key y)) as [L|L].
    + inversion H as [|? ? Hs Hh]; subst. constructor; [now apply IH|].
      destruct l as [|z l]; simpl.
      * constructor. lia.
      * unfold by_key. destruct (Z.ltb_spec 0 (key x - key z)).
        -- constructor. inversion Hh; subst. assumption.
        -- constructor. lia.
    + constructor; [assumption|]. constructor. lia.
Qed.

Lemma sort_sorted l : Sorted (fun a b => (key a <= key b)%Z) (sort (by_key key) l).
Proof.
  induction l as [|x l IH]; simpl; [constructor | now apply sort_insert_sorted].
Qed.

Lemma sort_strongly_sorted l :
  StronglySorted (fun a b => (key a <= key b)%Z) (sort (by_key key) l).
Proof.
  apply Sorted_StronglySorted; [|apply sort_sorted].
  intros a b c H1 H2. lia.
Qed.

(** Stability: the elements of one key keep their order. *)
Lemma sort_insert_stable k x l :
  filter (fun a => Z.eqb (key a) k) (sort_insert (by_key key) x l)
  = filter (fun a => Z.eqb (key a) k) (x :: l).
Proof.
  induction l as [|y l IH]; [reflexivity|].
  cbn [sort_insert]. unfold by_key at 1.
  destruct (Z.ltb_spec 0 (key x - key y)) as [L|L]; [|reflexivity].
  cbn [filter] in *. rewrite IH.
  destruct (Z.eqb_spec (key x) k) as [Ex|Ex];
    destruct (Z.eqb_spec (key y) k) as [Ey|Ey]; try reflexivity.
  lia.
Qed.

Lemma sort_stable k l :
  filter (fun a => Z.eqb (key a) k) (sort (by_key key) l)
  = filter (fun a => Z.eqb (key a) k) l.
Proof.
  induction l as [|x l IH]; [reflexivity|].
  cbn [sort]. rewrite sort_insert_stable. cbn [filter]. now rewrite IH.
Qed.

End SortByKey.

(** ** [Object.entries] *)

Lemma insert_index_perm V i (kv : jstr * V) l :
  Permutation (map snd (insert_index i kv l)) (kv :: map snd l).
Proof.
  induction l as [|[j kv'] l IH]; simpl; [reflexivity|].
  destruct (N.ltb i j); simpl; [reflexivity|].
  rewrite IH. apply perm_swap.
Qed.

Lemma entries_perm V (o : obj V) : Permutation (entries o) o.
Proof.
  unfold entries. induction o as [|[k v] o IH]; simpl; [reflexivity|].
  unfold is_named at 1. simpl.
  destruct (array_index k) as [i|].
  - rewrite insert_index_perm. simpl. now constructor.
  - rewrite <- Permutation_middle. now constructor.
Qed.

Lemma entries_named V (o : obj V) :
  forallb (fun kv => not_index (fst kv)) o = true -> entries o = o.
Proof.
  unfold entries. induction o as [|[k v] o IH]; simpl; [reflexivity|].
  unfold is_named at 1, not_index at 1. simpl.
  destruct (array_index k); [discriminate|]. simpl. intros H.
  specialize (IH H).
  assert (E : index_props o = []).
  { clear IH. induction o as [|[k' v'] o IHo]; simpl in *; [reflexivity|].
    unfold not_index at 1 in H. simpl in H.
    destruct (array_index k'); [discriminate | auto]. }
  rewrite E in *. simpl in *. now rewrite IH.
Qed.

(** The order of the entries depends on the keys alone. *)
Lemma insert_index_map V W (h : jstr -> V -> W) i k v l :
  insert_index i (k, h k v)
    (map (fun e => (fst e, (fst (snd e), h (fst (snd e)) (snd (snd e))))) l)
  = map (fun e => (fst e, (fst (snd e), h (fst (snd e)) (snd (snd e)))))
        (insert_index i (k, v) l).
Proof.
  induction l as [|[j [k' v']] l IH]; simpl; [reflexivity|].
  destruct (N.ltb i j); simpl; [reflexivity | now rewrite IH].
Qed.

Lemma entries_map V W (h : jstr -> V -> W) (o : obj V) :
  entries (map (fun kv => (fst kv, h (fst kv) (snd kv))) o)
  = map (fun kv => (fst kv, h (fst kv) (snd kv))) (entries o).
Proof.
  unfold entries. rewrite map_app. f_equal.
  - assert (E : index_props (map (fun kv => (fst kv, h (fst kv) (snd kv))) o)
                = map (fun e => (fst e, (fst (snd e), h (fst (snd e)) (snd (snd e)))))
                      (index_props o)).
    { induction o as [|[k v] o IH]; simpl; [reflexivity|].
      destruct (array_index k); [|exact IH].
      rewrite IH. apply insert_index_map. }
    rewrite E, !map_map. reflexivity.
  - induction o as [|[k v] o IH]; [reflexivity|].
    cbn [map filter fst snd].
    replace (is_named (k, h k v)) with (is_named (k, v)) by reflexivity.
    destruct (is_named (k, v)); cbn [map fst snd]; now rewrite IH.
Qed.

Lemma entries_of_keys V (f : jstr -> V) (keys : list jstr) :
  entries (map (fun k => (k, f k)) keys)
  = map (fun k => (k, f k)) (key_order keys).
Proof.
  pose proof (entries_map (fun k (_ : unit) => f k)
                (map (fun k => (k, tt)) keys)) as E.
  rewrite map_map in E. cbn [fst snd] in E. rewrite E.
  unfold key_order. rewrite map_map. reflexivity.
Qed.

Lemma key_order_perm keys : Permutation (key_order keys) keys.
Proof.
  unfold key_order. rewrite entries_perm, map_map. simpl.
  now rewrite map_id.
Qed.

Lemma key_order_named keys :
  forallb not_index keys = true -> key_order keys = keys.
Proof.
  intros H. unfold key_order. rewrite entries_named.
  - rewrite map_map. simpl. apply map_id.
  - clear -H. induction keys as [|k keys IH]; simpl in *; [reflexivity|].
    apply andb_true_iff in H as [Hk H]. now rewrite Hk, IH.
Qed.

(** ** Filing the ranks *)

Lemma rank_labels_filed labelToModel : forall labels i modelRanks,
  rank_labels labelToModel labels i modelRanks
  = push_all (filed_from labelToModel labels i) modelRanks.
Proof.
  induction labels as [|label labels IH]; intros i modelRanks; simpl;
    [reflexivity|].
  destruct (truthy_model labelToModel label) as [model|]; simpl; [|apply IH].
  destruct (push_rank modelRanks model (i + 1)); [apply IH | reflexivity].
Qed.

Lemma push_all_app evs1 : forall evs2 modelRanks,
  push_all (evs1 ++ evs2) modelRanks
  = match push_all evs1 modelRanks with
    | Returns modelRanks' => push_all evs2 modelRanks'
    | Throws e => Throws e
    end.
Proof.
  induction evs1 as [|[m r] evs1 IH]; intros evs2 modelRanks; simpl;
    [reflexivity|].
  destruct (push_rank modelRanks m r); [apply IH | reflexivity].
Qed.

Lemma rank_all_filed labelToModel : forall rs modelRanks,
  rank_all labelToModel rs modelRanks
  = push_all (filed labelToModel rs) modelRanks.
Proof.
  induction rs as [|r rs IH]; intros modelRanks; [reflexivity|].
  cbn [rank_all]. unfold filed. cbn [flat_map]. rewrite push_all_app.
  rewrite rank_labels_filed.
  destruct (push_all (filed_from labelToModel (parsed_ranking r) 0) modelRanks);
    [apply IH | reflexivity].
Qed.

Lemma get_own_keys V (f : jstr -> V) keys m :
  get_own (map (fun k => (k, f k)) keys) m
  = if mem m keys then Some (f m) else None.
Proof.
  induction keys as [|k keys IH]; simpl; [reflexivity|].
  unfold mem in *. simpl.
  destruct (str_eqb k m) eqn:E.
  - apply str_eqb_eq in E. subst. now rewrite str_eqb_refl.
  - assert (E' : str_eqb m k = false).
    { apply str_eqb_neq. apply str_eqb_neq in E. congruence. }
    rewrite E'. simpl. exact IH.
Qed.

Lemma set_own_keys V (f : jstr -> V) keys m v :
  NoDup keys -> In m keys ->
  set_own (map (fun k => (k, f k)) keys) m v
  = map (fun k => (k, if str_eqb k m then v else f k)) keys.
Proof.
  induction keys as [|k keys IH]; intros Hnd Hin; [contradiction|].
  inversion Hnd as [|? ? Hk Hnd']; subst. cbn [map set_own].
  destruct (str_eqb k m) eqn:E.
  - apply str_eqb_eq in E. subst. f_equal. apply map_ext_in.
    intros k' Hk'. destruct (str_eqb k' m) eqn:E'; [|reflexivity].
    apply str_eqb_eq in E'. subst. contradiction.
  - f_equal. apply IH; [assumption|].
    destruct Hin as [->|Hin]; [|assumption].
    rewrite str_eqb_refl in E. discriminate.
Qed.

Lemma mem_keep_firsts x l : mem x (keep_firsts l) = mem x l.
Proof.
  destruct (mem x l) eqn:E.
  - apply mem_In. apply keep_firsts_In. now apply mem_In.
  - apply mem_false. rewrite keep_firsts_In. now apply mem_false.
Qed.

Lemma keep_firsts_snoc l x :
  keep_firsts (l ++ [x])
  = if mem x l then keep_firsts l else keep_firsts l ++ [x].
Proof.
  rewrite <- !set_spread_keep_firsts. unfold set_spread.
  rewrite fold_left_app. simpl. unfold set_add at 1.
  fold (set_spread l). now rewrite set_spread_keep_firsts, mem_keep_firsts.
Qed.

Lemma ranks_in_app evs1 evs2 m :
  ranks_in (evs1 ++ evs2) m = ranks_in evs1 m ++ ranks_in evs2 m.
Proof. unfold ranks_in. now rewrite filter_app, map_app. Qed.

Lemma ranks_in_absent evs m : ~ In m (map fst evs) -> ranks_in evs m = [].
Proof.
  unfold ranks_in. induction evs as [|[k r] evs IH]; simpl; [reflexivity|].
  intros H. destruct (str_eqb k m) eqn:E.
  - apply str_eqb_eq in E. subst. tauto.
  - apply IH. tauto.
Qed.

Lemma ranks_in_present evs m : In m (map fst evs) -> ranks_in evs m <> [].
Proof.
  unfold ranks_in. induction evs as [|[k r] evs IH]; simpl; [tauto|].
  intros H. destruct (str_eqb k m) eqn:E; [discriminate|].
  apply IH. destruct H as [->|H]; [|assumption].
  rewrite str_eqb_refl in E. discriminate.
Qed.

Lemma ranks_in_snoc evs m r k :
  ranks_in (evs ++ [(m, r)]) k
  = ranks_in evs k ++ (if str_eqb m k then [r] else []).
Proof.
  rewrite ranks_in_app. f_equal. unfold ranks_in. cbn [filter fst].
  destruct (str_eqb m k); reflexivity.
Qed.

Lemma str_eqb_sym a b : str_eqb a b = str_eqb b a.
Proof.
  destruct (str_eqb a b) eqn:E; symmetry.
  - apply str_eqb_eq in E. subst. apply str_eqb_refl.
  - apply str_eqb_neq. apply str_eqb_neq in E. congruence.
Qed.

Lemma push_rank_grouped evs m r :
  inherited m = false ->
  push_rank (grouped evs) m r = Returns (grouped (evs ++ [(m, r)])).
Proof.
  intros Hm. unfold push_rank, grouped.
  assert (K : keep_firsts (map fst (evs ++ [(m, r)]))
              = if mem m (map fst evs) then keep_firsts (map fst evs)
                else keep_firsts (map fst evs) ++ [m])
    by (rewrite map_app; apply keep_firsts_snoc).
  rewrite K, get_own_keys, mem_keep_firsts.
  destruct (mem m (map fst evs)) eqn:E.
  - apply f_equal. rewrite set_own_keys.
    + apply map_ext. intros k. rewrite ranks_in_snoc, (str_eqb_sym m k).
      destruct (str_eqb k m) eqn:Ek.
      * apply str_eqb_eq in Ek. now subst.
      * now rewrite app_nil_r.
    + apply keep_firsts_NoDup.
    + apply keep_firsts_In. now apply mem_In.
  - rewrite Hm, map_app. cbn [map]. apply f_equal. apply f_equal2.
    + apply map_ext_in. intros k Hk. rewrite ranks_in_snoc.
      destruct (str_eqb m k) eqn:Ek; [|now rewrite app_nil_r].
      apply str_eqb_eq in Ek. subst.
      apply (proj1 (keep_firsts_In _ _)) in Hk.
      apply (proj1 (mem_false _ _)) in E. exact (False_ind _ (E Hk)).
    + rewrite ranks_in_snoc, str_eqb_refl.
      rewrite ranks_in_absent by (now apply mem_false). reflexivity.

Qed.

Lemma push_all_grouped : forall evs evs0,
  clean evs = true ->
  push_all evs (grouped evs0) = Returns (grouped (evs0 ++ evs)).
Proof.
  induction evs as [|[m r] evs IH]; intros evs0 H.
  - now rewrite app_nil_r.
  - cbn [clean forallb fst] in H. apply andb_true_iff in H as [Hm H].
    apply negb_true_iff in Hm. cbn [push_all].
    rewrite push_rank_grouped by assumption.
    rewrite (IH _ H), <- app_assoc. reflexivity.
Qed.

(** A model named like a property of [Object.prototype] stops the loops. *)
Lemma push_all_throws : forall evs evs0,
  clean evs0 = true -> clean evs = false ->
  push_all evs (grouped evs0) = Throws push_type_error.
Proof.
  induction evs as [|[m r] evs IH]; intros evs0 H0 H; [discriminate|].
  cbn [clean forallb fst] in H. cbn [push_all].
  destruct (inherited m) eqn:Hm.
  - unfold push_rank, grouped. rewrite get_own_keys, mem_keep_firsts.
    replace (mem m (map fst evs0)) with false; [now rewrite Hm|].
    symmetry. apply mem_false. intros Hin.
    apply in_map_iff in Hin as [[k x] [<- Hin]].
    unfold clean in H0. rewrite forallb_forall in H0.
    specialize (H0 _ Hin). simpl in *. now rewrite Hm in H0.
  - rewrite push_rank_grouped by assumption. apply IH.
    + unfold clean. rewrite forallb_app. fold (clean evs0). rewrite H0.
      simpl. now rewrite Hm.
    + exact H.
Qed.

(** ** The loops file what the vocabulary says *)

Lemma filed_from_models labelToModel : forall labels i,
  map fst (filed_from labelToModel labels i) = resolved labelToModel labels.
Proof.
  unfold resolved.
  induction labels as [|label labels IH]; intros i; simpl; [reflexivity|].
  destruct (truthy_model labelToModel label); simpl; now rewrite IH.
Qed.

Lemma filed_models labelToModel rs :
  map fst (filed labelToModel rs)
  = flat_map (fun r => resolved labelToModel (parsed_ranking r)) rs.
Proof.
  unfold filed. induction rs as [|r rs IH]; simpl; [reflexivity|].
  now rewrite map_app, filed_from_models, IH.
Qed.

Lemma filed_from_ranks labelToModel m : forall labels k,
  ranks_in (filed_from labelToModel labels (Z.of_nat k)) m
  = flat_map
      (fun '(i, label) =>
         match truthy_model labelToModel label with
         | Some m' => if str_eqb m' m then [(Z.of_nat i + 1)%Z] else []
         | None => []
         end)
      (combine (seq k (length labels)) labels).
Proof.
  induction labels as [|label labels IH]; intros k; [reflexivity|].
  cbn [filed_from length seq combine flat_map].
  replace (Z.of_nat k + 1)%Z with (Z.of_nat (S k)) by lia.
  destruct (truthy_model labelToModel label) as [m'|].
  - unfold ranks_in in *. cbn [filter fst].
    destruct (str_eqb m' m); cbn [map snd app]; now rewrite IH.
  - cbn [app]. apply IH.
Qed.

Lemma filed_ranks labelToModel rs m :
  ranks_in (filed labelToModel rs) m = ranks_of labelToModel rs m.
Proof.
  unfold filed, ranks_of. induction rs as [|r rs IH]; [reflexivity|].
  cbn [flat_map]. rewrite ranks_in_app, IH. f_equal.
  apply (filed_from_ranks labelToModel m (parsed_ranking r) 0).
Qed.

Lemma forallb_same A (p : A -> bool) (l l' : list A) :
  (forall x, In x l <-> In x l') -> forallb p l = forallb p l'.
Proof.
  intros H. destruct (forallb p l') eqn:E.
  - rewrite forallb_forall in *. intros x Hx. apply E. now apply H.
  - destruct (forallb p l) eqn:E'; [|reflexivity].
    rewrite forallb_forall in E'.
    assert (F : forallb p l' = true)
      by (apply forallb_forall; intros x Hx; apply E'; now apply H).
    congruence.
Qed.

Lemma clean_models labelToModel rs :
  clean (filed labelToModel rs)
  = forallb (fun m => negb (inherited m)) (ranked_models labelToModel rs).
Proof.
  unfold clean, ranked_models. rewrite <- filed_models.
  rewrite (@forallb_same _ _ (keep_firsts (map fst (filed labelToModel rs)))
             (map fst (filed labelToModel rs)) (keep_firsts_In _)).
  induction (filed labelToModel rs) as [|e evs IH]; simpl; [reflexivity|].
  now rewrite IH.
Qed.

Lemma aggregate_entry labelToModel rs :
  map aggregate (entries (grouped (filed labelToModel rs)))
  = map (entry_of labelToModel rs) (key_order (ranked_models labelToModel rs)).
Proof.
  unfold grouped. rewrite entries_of_keys, map_map.
  unfold ranked_models. rewrite <- filed_models.
  apply map_ext. intros m. unfold aggregate, entry_of.
  now rewrite filed_ranks.
Qed.

Lemma calculate_returns rankings labelToModel :
  clean (filed labelToModel rankings) = true ->
  calculateAggregateRankings rankings labelToModel
  = Returns (sort by_average
               (map (entry_of labelToModel rankings)
                    (key_order (ranked_models labelToModel rankings)))).
Proof.
  intros H. unfold calculateAggregateRankings.
  rewrite rank_all_filed.
  change (@nil (jstr * list Z)) with (grouped []).
  rewrite push_all_grouped by assumption. cbn [app].
  now rewrite aggregate_entry.
Qed.

Lemma calculate_throws rankings labelToModel :
  clean (filed labelToModel rankings) = false ->
  calculateAggregateRankings rankings labelToModel = Throws push_type_error.
Proof.
  intros H. unfold calculateAggregateRankings.
  rewrite rank_all_filed.
  change (@nil (jstr * list Z)) with (grouped []).
  now rewrite push_all_throws.
Qed.

(** As soon as one ranked model is named like a property of
    [Object.prototype], the call throws. *)
Lemma prototype_name_throws rankings labelToModel :
  forallb (fun m => negb (inherited m)) (ranked_models labelToModel rankings)
  = false ->
  calculateAggregateRankings rankings labelToModel = Throws push_type_error.
Proof.
  intros H. rewrite <- clean_models in H. now apply calculate_throws.
Qed.

Example constructor_throws :
  calculateAggregateRankings [ranking_of [u "Response A"]] inherited_name
  = Throws push_type_error.
Proof. apply prototype_name_throws. reflexivity. Qed.

(** C3, amended.  Each label at 0-indexed position [i] is given the rank
    [i + 1] ([ranks_of]).  When no ranked model is named like a property of
    [Object.prototype], the output holds one entry per model with at least
    one rank, whose [rankings_count] is the number of its ranks and whose
    [average_rank] is [Math.round] of the double [(sum / count) * 100], over
    100 ([entry_of]); it is sorted ascending by [average_rank], and entries
    of equal average keep the order of [Object.entries], which is the order
    of first encounter when no model name is an array index.  Scenario C is
    the second part. *)
Theorem aggregate_rankings_computed :
  (forall (rankings : list Stage2Ranking) (labelToModel : obj jstr),
     let models := ranked_models labelToModel rankings in
     let entry := entry_of labelToModel rankings in
     forallb (fun m => negb (inherited m)) models = true ->
     exists out,
       calculateAggregateRankings rankings labelToModel = Returns out
       /\ Permutation out (map entry models)
       /\ NoDup (map ag_model out)
       /\ (forall m, In m models -> ranks_of labelToModel rankings m <> [])
       /\ StronglySorted (fun a b => (average_rank a <= average_rank b)%Z) out
       /\ (forall k,
             filter (fun a => Z.eqb (average_rank a) k) out
             = filter (fun a => Z.eqb (average_rank a) k)
                      (map entry (key_order models)))
       /\ (forallb not_index models = true -> key_order models = models))
  /\ calculateAggregateRankings
       [ {| s2_model := u "m1"; evaluation := [];
            parsed_ranking := [u "Response C"; u "Response A"; u "Response B"] |};
         {| s2_model := u "m2"; evaluation := [];
            parsed_ranking := [u "Response A"; u "Response C"; u "Response B"] |};
         {| s2_model := u "m3"; evaluation := [];
            parsed_ranking := [u "Response C"; u "Response B"; u "Response A"] |} ]
       [ (u "Response A", u "m1"); (u "Response B", u "m2");
         (u "Response C", u "m3") ]
     = Returns
         [ {| ag_model := u "m3"; average_rank := 133; rankings_count := 3 |};
           {| ag_model := u "m1"; average_rank := 200; rankings_count := 3 |};
           {| ag_model := u "m2"; average_rank := 267; rankings_count := 3 |} ].
Proof.
  split; [|vm_compute; reflexivity].
  intros rankings labelToModel models entry H.
  assert (Hc : clean (filed labelToModel rankings) = true)
    by (rewrite clean_models; exact H).
  exists (sort by_average (map entry (key_order models))).
  split; [now apply calculate_returns|].
  assert (P : Permutation (sort by_average (map entry (key_order models)))
                          (map entry models)).
  { rewrite (sort_perm average_rank). apply Permutation_map, key_order_perm. }
  split; [exact P|].
  split.
  { apply (Permutation_map ag_model) in P. rewrite map_map in P.
    simpl in P. rewrite map_id in P.
    apply (Permutation_NoDup (Permutation_sym P)).
    apply keep_firsts_NoDup. }
  split.
  { intros m Hm. rewrite <- filed_ranks. apply ranks_in_present.
    rewrite filed_models. apply (proj1 (keep_firsts_In _ _)). exact Hm. }
  split; [apply (sort_strongly_sorted average_rank)|].
  split; [intros k; apply (sort_stable average_rank)|].
  apply key_order_named.
Qed.

(** The theorem on two evaluations that rank two models in opposite
    orders. *)
Lemma aggregate_rankings_computed_witness :
  exists out,
    calculateAggregateRankings tied_rankings two_labels = Returns out
    /\ Permutation out
         (map (entry_of two_labels tied_rankings)
              (ranked_models two_labels tied_rankings))
    /\ NoDup (map ag_model out)
    /\ (forall m, In m (ranked_models two_labels tied_rankings) ->
          ranks_of two_labels tied_rankings m <> [])
    /\ StronglySorted (fun a b => (average_rank a <= average_rank b)%Z) out
    /\ (forall k,
          filter (fun a => Z.eqb (average_rank a) k) out
          = filter (fun a => Z.eqb (average_rank a) k)
                   (map (entry_of two_labels tied_rankings)
                        (key_order (ranked_models two_labels tied_rankings))))
    /\ (forallb not_index (ranked_models two_labels tied_rankings) = true ->
        key_order (ranked_models two_labels tied_rankings)
        = ranked_models two_labels tied_rankings).
Proof.
  apply (proj1 aggregate_rankings_computed tied_rankings two_labels).
  vm_compute; reflexivity.
Defined.

(** C3 as stated fails in two ways.  With forty ranks of mean
    41/40 = 1.025 the code stores 1.02, since the double [(41 / 40) * 100]
    lies below 102.5, where rounding the mean half up gives 1.03.  And two
    models named [2] and [1] that tie at 1.5 come out as [1], [2], although
    [2] was met first. *)
Lemma aggregate_rankings_counterexample :
  (calculateAggregateRankings forty_rankings two_labels
   = Returns
       [ {| ag_model := u "m2"; average_rank := 100; rankings_count := 1 |};
         {| ag_model := u "m1"; average_rank := 102; rankings_count := 40 |} ]
   /\ ranks_of two_labels forty_rankings (u "m1") = 2%Z :: repeat 1%Z 39
   /\ mean_half_up_hundredths (ranks_of two_labels forty_rankings (u "m1"))
      = 103%Z)
  /\ (calculateAggregateRankings tied_rankings numeric_names
      = Returns
          [ {| ag_model := u "1"; average_rank := 150; rankings_count := 2 |};
            {| ag_model := u "2"; average_rank := 150; rankings_count := 2 |} ]
      /\ ranked_models numeric_names tied_rankings = [u "2"; u "1"]).
Proof.
  repeat split; vm_compute; reflexivity.
Qed.

(** ** The stages *)

Section Stages.

Variable World : Type.
Variable chat : jstr -> list ChatMessage -> World -> outcome jstr * World.
Variable models : list jstr.
Variable chairmanModel : jstr.

Lemma replies_models prompt : forall ms w,
  map fst (fst (replies chat prompt ms w)) = ms.
Proof.
  induction ms as [|m ms IH]; intros w; simpl; [reflexivity|].
  destruct (chat m _ w) as [r w1].
  specialize (IH w1). destruct (replies chat prompt ms w1) as [rs w2].
  simpl in *. now rewrite IH.
Qed.

Lemma allSettled_calls A (mk : jstr -> jstr -> A) prompt : forall ms w,
  LLMCouncil.allSettled
    (map (fun model =>
            LLMCouncil.bind (LLMCouncil.ask chat model prompt)
              (fun r => LLMCouncil.ret (World:=World) (map_outcome (mk model) r)))
         ms) w
  = (map (fun mr => map_outcome (mk (fst mr)) (snd mr))
         (fst (replies chat prompt ms w)),
     snd (replies chat prompt ms w)).
Proof.
  induction ms as [|m ms IH]; intros w; [reflexivity|].
  cbn [map LLMCouncil.allSettled replies].
  unfold LLMCouncil.bind at 1 2. unfold LLMCouncil.ask at 1.
  destruct (chat m _ w) as [r w1]. unfold LLMCouncil.ret at 1.
  unfold LLMCouncil.bind at 1. rewrite IH.
  destruct (replies chat prompt ms w1) as [rs w2]. reflexivity.
Qed.

Lemma fulfilled_answered A (mk : jstr -> jstr -> A) rs :
  fulfilled (map (fun mr => map_outcome (mk (fst mr)) (snd mr)) rs)
  = map (fun a => mk (fst a) (snd a)) (answered rs).
Proof.
  induction rs as [|[m [reply|e]] rs IH]; simpl; [reflexivity | | exact IH].
  now rewrite IH.
Qed.

Lemma stage1_spec query w :
  LLMCouncil.stage1 chat models query w
  = (let entries := map entry1 (answered (fst (replies chat query models w))) in
     match entries with
     | [] => Throws all_failed_error
     | _ :: _ => Returns entries
     end,
     snd (replies chat query models w)).
Proof.
  unfold LLMCouncil.stage1, LLMCouncil.bind at 1.
  unfold LLMCouncil.stage1_call.
  rewrite (allSettled_calls
             (fun model response =>
                {| s1_model := model; s1_response := response |}) query models w).
  rewrite fulfilled_answered.
  destruct (answered (fst (replies chat query models w))); reflexivity.
Qed.

Lemma stage2_spec query s1 w :
  LLMCouncil.stage2 chat models query s1 w
  = (let prompt := buildRankingPrompt query (fst (anonymize s1)) in
     let collected := map entry2 (answered (fst (replies chat prompt models w))) in
     (map_outcome
        (fun aggregateRankings =>
           {| rankings := collected;
              label_to_model := snd (anonymize s1);
              aggregate_rankings := aggregateRankings |})
        (calculateAggregateRankings collected (snd (anonymize s1))),
      snd (replies chat prompt models w))).
Proof.
  unfold LLMCouncil.stage2. destruct (anonymize s1) as [anonymized labelToModel].
  cbn [fst snd]. unfold LLMCouncil.bind at 1. unfold LLMCouncil.stage2_call.
  rewrite (allSettled_calls
             (fun model evaluation =>
                {| s2_model := model; evaluation := evaluation;
                   parsed_ranking := parseRanking evaluation |})
             (buildRankingPrompt query anonymized) models w).
  cbn beta iota.
  rewrite (fulfilled_answered
             (fun model evaluation =>
                {| s2_model := model; evaluation := evaluation;
                   parsed_ranking := parseRanking evaluation |})).
  reflexivity.
Qed.

End Stages.

(** ** The run *)

Section Run.

Variable World : Type.
Variable chat : jstr -> list ChatMessage -> World -> outcome jstr * World.
Variable models : list jstr.
Variable chairmanModel : jstr.

Lemma run_cases query w :
  fst (LLMCouncil.run chat models chairmanModel query w)
  = match LLMCouncil.stage1 chat models query w with
    | (Throws err, _) =>
        result_of query None None None
          (Some (u "Stage 1 failed: " ++ err_text err))
    | (Returns s1, w1) =>
        match LLMCouncil.stage2 chat models query s1 w1 with
        | (Throws err, _) =>
            result_of query (Some s1) None None
              (Some (u "Stage 2 failed: " ++ err_text err))
        | (Returns s2, w2) =>
            match LLMCouncil.stage3 chat chairmanModel query s1 (rankings s2) w2
            with
            | (Throws err, _) =>
                result_of query (Some s1) (Some s2) None
                  (Some (u "Stage 3 failed: " ++ err_text err))
            | (Returns s3, _) =>
                result_of query (Some s1) (Some s2) (Some s3) None
            end
        end
    end.
Proof.
  unfold LLMCouncil.run. unfold LLMCouncil.bind at 1.
  destruct (LLMCouncil.stage1 chat models query w) as [[s1|e1] w1];
    [|reflexivity].
  unfold LLMCouncil.bind at 1.
  destruct (LLMCouncil.stage2 chat models query s1 w1) as [[s2|e2] w2];
    [|reflexivity].
  unfold LLMCouncil.bind at 1.
  destruct (LLMCouncil.stage3 chat chairmanModel query s1 (rankings s2) w2)
    as [[s3|e3] w3]; reflexivity.
Qed.

End Run.


(** The second stage does throw for some configurations: a model named
    [constructor] makes the aggregation raise a [TypeError], and the run
    keeps the first stage. *)
Example run_stops_at_stage2 :
  let result :=
    fst (LLMCouncil.run answering [u "constructor"; u "model-b"] (u "model-a")
           (u "hello") 0) in
  error result
  = Some (u "Stage 2 failed: modelRanks[model].push is not a function")
  /\ stage1 result
     = Some [ {| s1_model := u "constructor";
                 s1_response := u "Answer from constructor" |};
              {| s1_model := u "model-b";
                 s1_response := u "Answer from model-b" |} ]
  /\ stage2 result = None /\ stage3 result = None.
Proof. repeat split; vm_compute; reflexivity. Qed.

(** ** Stage 1 *)

Lemma answered_nil rs :
  answered rs = [] <-> (forall m r, In (m, r) rs -> exists err, r = Throws err).
Proof.
  induction rs as [|[m [reply|e]] rs IH]; simpl.
  - split; [intros _ ? ? [] | reflexivity].
  - split; [discriminate|]. intros H.
    destruct (H m (Returns reply) (or_introl eq_refl)) as [err E]. discriminate.
  - rewrite IH. split.
    + intros H m' r [E|Hin]; [inversion E; eauto | eauto].
    + intros H m' r Hin. apply (H m' r). now right.
Qed.

(** C4.  One call is made per configured model, in order.  Stage 1 throws
    exactly when no call succeeds; otherwise it returns the models that
    answered with their replies, in the configured order.  When no call
    succeeds the run's [error] is
    [Stage 1 failed: All models failed to respond in Stage 1], which holds
    both [Stage 1 failed] and [All models failed], and the three stage
    fields are null. *)
Theorem stage1_throws_iff_none_answers :
  forall (World : Type)
         (chat : jstr -> list ChatMessage -> World -> outcome jstr * World)
         (models : list jstr) (chairmanModel query : jstr) (w : World),
    let rs := fst (replies chat query models w) in
    let result := fst (LLMCouncil.run chat models chairmanModel query w) in
    map fst rs = models
    /\ ((exists err, fst (LLMCouncil.stage1 chat models query w) = Throws err)
        <-> (forall m r, In (m, r) rs -> exists err, r = Throws err))
    /\ (answered rs <> [] ->
        fst (LLMCouncil.stage1 chat models query w)
        = Returns (map entry1 (answered rs)))
    /\ (answered rs = [] ->
        fst (LLMCouncil.stage1 chat models query w) = Throws all_failed_error
        /\ error result
           = Some (u "Stage 1 failed: All models failed to respond in Stage 1")
        /\ includes (u "Stage 1 failed: All models failed to respond in Stage 1")
                    (u "Stage 1 failed") = true
        /\ includes (u "Stage 1 failed: All models failed to respond in Stage 1")
                    (u "All models failed") = true
        /\ stage1 result = None /\ stage2 result = None
        /\ stage3 result = None).
Proof.
  intros World chat models chairmanModel query w rs result.
  assert (S1 : fst (LLMCouncil.stage1 chat models query w)
               = match map entry1 (answered rs) with
                 | [] => Throws all_failed_error
                 | _ :: _ => Returns (map entry1 (answered rs))
                 end)
    by (rewrite stage1_spec; reflexivity).
  split; [apply replies_models|].
  split; [|split].
  - rewrite <- answered_nil, S1.
    destruct (answered rs) as [|a l]; simpl.
    + split; [reflexivity | eauto].
    + split; [intros [err E]; discriminate | discriminate].
  - intros H. rewrite S1. destruct (answered rs); [congruence | reflexivity].
  - intros H. rewrite H in S1. simpl in S1.
    split; [exact S1|].
    assert (R : result
                = result_of query None None None
                    (Some (u "Stage 1 failed: All models failed to respond in Stage 1"))).
    { unfold result. rewrite run_cases.
      destruct (LLMCouncil.stage1 chat models query w) as [o w1].
      simpl in S1. subst o. reflexivity. }
    rewrite R. repeat split; vm_compute; reflexivity.
Qed.

(** The theorem on one configured model whose call rejects (Scenario D). *)
Lemma stage1_throws_iff_none_answers_witness :
  let rs := fst (replies refusing (u "hello") [u "model-a"] tt) in
  let result :=
    fst (LLMCouncil.run refusing [u "model-a"] (u "model-a") (u "hello") tt) in
  fst (LLMCouncil.stage1 refusing [u "model-a"] (u "hello") tt)
  = Throws all_failed_error
  /\ error result
     = Some (u "Stage 1 failed: All models failed to respond in Stage 1")
  /\ includes (u "Stage 1 failed: All models failed to respond in Stage 1")
              (u "Stage 1 failed") = true
  /\ includes (u "Stage 1 failed: All models failed to respond in Stage 1")
              (u "All models failed") = true
  /\ stage1 result = None /\ stage2 result = None /\ stage3 result = None.
Proof.
  apply (stage1_throws_iff_none_answers refusing [u "model-a"] (u "model-a")
           (u "hello") tt).
  reflexivity.
Defined.

(** ** Stage 2 *)

(** Every label the parser returns begins with [Response ], so none is the
    name of a property of [Object.prototype]. *)
Lemma inherited_label x : inherited (u "Response " ++ x) = false.
Proof. reflexivity. Qed.

Lemma Forall_map_all A B (P : B -> Prop) (f : A -> B) (l : list A) :
  (forall x, P (f x)) -> Forall P (map f l).
Proof. intros H. induction l; simpl; constructor; auto. Qed.

Lemma strip_ordinal_labels ms :
  Forall (lang re_numbered) ms -> Forall is_label (map strip_ordinal ms).
Proof.
  intros H. rewrite Forall_map. eapply Forall_impl; [|exact H].
  intros m Hm. destruct (strip_ordinal_numbered Hm) as (c & -> & _).
  now exists [c].
Qed.

Lemma headered_labels section r :
  headered section = Some r -> Forall is_label r.
Proof.
  unfold headered. intros H.
  destruct (match_g re_numbered section) as [[|m ms]|] eqn:E.
  - apply match_g_sound in E as [E _]. congruence.
  - injection H as <-. apply (@strip_ordinal_labels (m :: ms)).
    now apply match_g_sound in E as [_ F].
  - destruct (match_g re_bare section) as [[|b bs]|]; try discriminate.
    injection H as <-.
    apply (@Forall_map_all _ _ is_label bare_label (b :: bs)).
    intros x. unfold is_label, bare_label. eexists; reflexivity.
Qed.

Lemma gt_chain_labels text : Forall is_label (gt_chain text).
Proof.
  unfold gt_chain. destruct (match_g re_gt text); [|constructor].
  destruct (forallb _ _); [|constructor].
  apply Forall_map_all.
  intros x. unfold is_label. eexists; reflexivity.
Qed.

Lemma unheadered_labels text : Forall is_label (unheadered text).
Proof.
  unfold unheadered.
  destruct (match_g re_numbered text) as [[|m ms]|] eqn:E.
  - apply match_g_sound in E as [E _]. congruence.
  - apply (@strip_ordinal_labels (m :: ms)).
    now apply match_g_sound in E as [_ F].
  - destruct (match_g re_mention text) as [[|n ns]|] eqn:E2.
    + apply gt_chain_labels.
    + rewrite set_spread_keep_firsts. apply Forall_forall. intros l Hl.
      apply (proj1 (keep_firsts_In _ _)) in Hl.
      apply match_g_sound in E2 as [_ F].
      rewrite Forall_forall in F. destruct (lang_mention (F _ Hl)) as (c & -> & _).
      now exists [c].
    + apply gt_chain_labels.
Qed.

Lemma parseRanking_labels text : Forall is_label (parseRanking text).
Proof.
  unfold parseRanking.
  destruct (Z.eqb (indexOf text marker) (-1)); [apply unheadered_labels|].
  destruct (headered (slice text (indexOf text marker))) as [r|] eqn:E;
    [now apply (headered_labels _ E) | apply unheadered_labels].
Qed.

Lemma set_own_values V (o : obj V) k v x :
  In x (map snd (set_own o k v)) -> In x (map snd o) \/ x = v.
Proof.
  induction o as [|[k' v'] o IH]; simpl.
  - intros [E|[]]; auto.
  - destruct (str_eqb k' k); simpl; intros [E|H]; auto.
    destruct (IH H); auto.
Qed.

Lemma anonymize_from_values : forall s1 i labelToModel x,
  In x (map snd (snd (anonymize_from i s1 labelToModel))) ->
  In x (map snd labelToModel) \/ In x (map s1_model s1).
Proof.
  induction s1 as [|entry rest IH]; intros i labelToModel x H; simpl in *.
  - now left.
  - destruct (anonymize_from (S i) rest
                (set_own labelToModel (label_at i) (s1_model entry)))
      as [anonymized l2m] eqn:E.
    simpl in H.
    specialize (IH (S i) (set_own labelToModel (label_at i) (s1_model entry)) x).
    rewrite E in IH. simpl in IH. destruct (IH H) as [G|G]; [|auto].
    apply set_own_values in G as [G|G]; auto.
Qed.

Lemma get_own_value V (o : obj V) k v :
  get_own o k = Some v -> In v (map snd o).
Proof.
  induction o as [|[k' v'] o IH]; simpl; [discriminate|].
  destruct (str_eqb k' k); [intros E; inversion E; auto | auto].
Qed.

Lemma clean_app evs1 evs2 : clean (evs1 ++ evs2) = (clean evs1 && clean evs2)%bool.
Proof. apply forallb_app. Qed.

Lemma clean_filed_from labelToModel :
  (forall k v, get_own labelToModel k = Some v -> inherited v = false) ->
  forall labels i, Forall is_label labels ->
    clean (filed_from labelToModel labels i) = true.
Proof.
  intros Hv. induction labels as [|label labels IH]; intros i H; [reflexivity|].
  inversion H as [|? ? Hl H']; subst. destruct Hl as [x Hx].
  cbn [filed_from].
  assert (T : truthy_model labelToModel label = None
              \/ exists m, truthy_model labelToModel label = Some m
                           /\ inherited m = false).
  { unfold truthy_model.
    destruct (get_own labelToModel label) as [[|c m]|] eqn:E.
    - now left.
    - right. eexists. split; [reflexivity | exact (Hv _ _ E)].
    - subst label. rewrite inherited_label. now left. }
  destruct T as [T|[m [T Hm]]]; rewrite T; [now apply IH|].
  change (clean ((m, (i + 1)%Z) :: filed_from labelToModel labels (i + 1)))
    with (negb (inherited m) && clean (filed_from labelToModel labels (i + 1)))%bool.
  rewrite Hm. simpl. now apply IH.
Qed.

Lemma clean_collected labelToModel answers :
  (forall k v, get_own labelToModel k = Some v -> inherited v = false) ->
  clean (filed labelToModel (map entry2 answers)) = true.
Proof.
  intros Hv. unfold filed.
  induction answers as [|a answers IH]; [reflexivity|].
  cbn [map flat_map]. rewrite clean_app, IH, andb_true_r.
  apply clean_filed_from; [assumption | apply parseRanking_labels].
Qed.

Lemma clean_incl labelToModel rs rs' :
  incl rs' rs ->
  clean (filed labelToModel rs) = true -> clean (filed labelToModel rs') = true.
Proof.
  unfold clean, filed. rewrite !forallb_forall. intros Hi H e He.
  apply H. apply in_flat_map in He as [r [Hr He]].
  apply in_flat_map. exists r. split; [now apply Hi | assumption].
Qed.

(** Leaving evaluations out never makes the aggregation throw. *)
Lemma fewer_rankings_still_return labelToModel rs rs' :
  incl rs' rs ->
  (exists a, calculateAggregateRankings rs labelToModel = Returns a) ->
  exists a', calculateAggregateRankings rs' labelToModel = Returns a'.
Proof.
  intros Hi [a Ha].
  destruct (clean (filed labelToModel rs)) eqn:C.
  - rewrite (calculate_returns _ _ (clean_incl _ Hi C)). eauto.
  - rewrite (calculate_throws _ _ C) in Ha. discriminate.
Qed.

(** What holds of Stage 2 for every provider.  It asks every configured
    model, whatever Stage 1 kept of it ([replies] runs over [models]), and
    keeps each reply with its parse, empty or not.  Its outcome is that of
    the aggregation over the replies kept, so a failed call only leaves an
    evaluation out, and leaving evaluations out never makes the aggregation
    throw: when every call fails the stage returns no ranking and an empty
    aggregate, and when no Stage 1 model is named like a property of
    [Object.prototype] it returns, however many calls fail. *)
Theorem stage2_survives_failed_evaluators :
  forall (World : Type)
         (chat : jstr -> list ChatMessage -> World -> outcome jstr * World)
         (models : list jstr) (query : jstr) (s1 : list Stage1Entry) (w : World),
    let prompt := buildRankingPrompt query (fst (anonymize s1)) in
    let labelToModel := snd (anonymize s1) in
    let rs := fst (replies chat prompt models w) in
    let collected := map entry2 (answered rs) in
    let done aggregateRankings :=
      {| rankings := collected; label_to_model := labelToModel;
         aggregate_rankings := aggregateRankings |} in
    map fst rs = models
    /\ fst (LLMCouncil.stage2 chat models query s1 w)
       = map_outcome done (calculateAggregateRankings collected labelToModel)
    /\ (answered rs = [] ->
        fst (LLMCouncil.stage2 chat models query s1 w)
        = Returns {| rankings := []; label_to_model := labelToModel;
                     aggregate_rankings := [] |})
    /\ (forallb (fun e => negb (inherited (s1_model e))) s1 = true ->
        exists aggregateRankings,
          calculateAggregateRankings collected labelToModel
          = Returns aggregateRankings
          /\ fst (LLMCouncil.stage2 chat models query s1 w)
             = Returns (done aggregateRankings))
    /\ (forall more,
          incl collected more ->
          (exists a, calculateAggregateRankings more labelToModel = Returns a) ->
          exists aggregateRankings,
            fst (LLMCouncil.stage2 chat models query s1 w)
            = Returns (done aggregateRankings)).
Proof.
  intros World chat models query s1 w prompt labelToModel rs collected done.
  assert (S2 : fst (LLMCouncil.stage2 chat models query s1 w)
               = map_outcome done
                   (calculateAggregateRankings collected labelToModel))
    by (rewrite stage2_spec; reflexivity).
  split; [apply replies_models|]. split; [exact S2|].
  split; [|split].
  - intros H. rewrite S2. unfold done, collected. rewrite H. reflexivity.
  - intros H.
    assert (C : clean (filed labelToModel collected) = true).
    { apply clean_collected. intros k v Hk.
      apply get_own_value in Hk. unfold labelToModel, anonymize in Hk.
      apply anonymize_from_values in Hk as [[]|Hk].
      apply in_map_iff in Hk as [e [<- He]].
      rewrite forallb_forall in H. specialize (H e He).
      now apply negb_true_iff in H. }
    rewrite S2, (calculate_returns _ _ C). eexists. split; reflexivity.
  - intros more Hi Hm.
    destruct (fewer_rankings_still_return labelToModel Hi Hm) as [a Ha].
    rewrite S2, Ha. eexists. reflexivity.
Qed.

(** The theorem on two evaluators whose calls both reject. *)
Lemma stage2_survives_failed_evaluators_witness :
  let s1 := [ {| s1_model := u "model-a"; s1_response := u "one" |} ] in
  let prompt := buildRankingPrompt (u "hello") (fst (anonymize s1)) in
  let labelToModel := snd (anonymize s1) in
  let rs := fst (replies refusing prompt [u "model-a"; u "model-b"] tt) in
  fst (LLMCouncil.stage2 refusing [u "model-a"; u "model-b"] (u "hello") s1 tt)
  = Returns {| rankings := []; label_to_model := labelToModel;
               aggregate_rankings := [] |}.
Proof.
  apply (stage2_survives_failed_evaluators refusing [u "model-a"; u "model-b"]
           (u "hello")
           [ {| s1_model := u "model-a"; s1_response := u "one" |} ] tt).
  reflexivity.
Defined.

(** C5, at a failing input.  The configured models are [constructor] and
    [model-b], and both answer in Stage 1.  In Stage 2 both are asked: the
    call of [constructor] returns a ranking, the call of [model-b] rejects.
    The one evaluation is kept with its parse, and the aggregation over it
    throws: label A stands for the model [constructor], for which
    [modelRanks[model]] reads the property inherited from
    [Object.prototype], so the array is not created and [push] is not a
    function.  Stage 2 throws where the claim has it complete, and the run
    stops there. *)
Theorem stage2_aborts_after_failed_evaluator :
  let models := [u "constructor"; u "model-b"] in
  let s1 := [ {| s1_model := u "constructor";
                 s1_response := u "Answer from constructor" |};
              {| s1_model := u "model-b";
                 s1_response := u "Answer from model-b" |} ] in
  let prompt := buildRankingPrompt (u "hello") (fst (anonymize s1)) in
  let reply :=
    u "FINAL RANKING:" ++ nl ++ u "1. Response B" ++ nl ++ u "2. Response A" in
  let result := fst (LLMCouncil.run one_refusal models (u "model-b") (u "hello") 0) in
  LLMCouncil.stage1 one_refusal models (u "hello") 0 = (Returns s1, 2)
  /\ fst (replies one_refusal prompt models 2)
     = [ (u "constructor", Returns reply);
         (u "model-b", Throws (ErrorObj (u "rate limited"))) ]
  /\ parseRanking reply = [u "Response B"; u "Response A"]
  /\ snd (anonymize s1)
     = [ (u "Response A", u "constructor"); (u "Response B", u "model-b") ]
  /\ calculateAggregateRankings
       [ {| s2_model := u "constructor"; evaluation := reply;
            parsed_ranking := [u "Response B"; u "Response A"] |} ]
       (snd (anonymize s1))
     = Throws push_type_error
  /\ fst (LLMCouncil.stage2 one_refusal models (u "hello") s1 2)
     = Throws push_type_error
  /\ error result
     = Some (u "Stage 2 failed: modelRanks[model].push is not a function")
  /\ stage1 result = Some s1
  /\ stage2 result = None
  /\ stage3 result = None.
Proof. repeat split; vm_compute; reflexivity. Qed.

(** With [model-a] in the place of [constructor] the same failed call
    leaves the stage standing: the evaluation of [model-a] is kept and
    aggregated alone. *)
Example stage2_with_one_failed_evaluator :
  let s1 := [ {| s1_model := u "model-a"; s1_response := u "Answer from model-a" |};
              {| s1_model := u "model-b"; s1_response := u "Answer from model-b" |} ] in
  let reply :=
    u "FINAL RANKING:" ++ nl ++ u "1. Response B" ++ nl ++ u "2. Response A" in
  fst (LLMCouncil.stage2 one_refusal [u "model-a"; u "model-b"] (u "hello") s1 2)
  = Returns
      {| rankings :=
           [ {| s2_model := u "model-a"; evaluation := reply;
                parsed_ranking := [u "Response B"; u "Response A"] |} ];
         label_to_model :=
           [ (u "Response A", u "model-a"); (u "Response B", u "model-b") ];
         aggregate_rankings :=
           [ {| ag_model := u "model-b"; average_rank := 100; rankings_count := 1 |};
             {| ag_model := u "model-a"; average_rank := 200; rankings_count := 1 |} ] |}.
Proof. vm_compute; reflexivity. Qed.

(** * More on [parseRanking] *)

(** ** Texts that begin alike *)

(** Two readings of one text as a run of characters of a class, then a
    character outside the class: the runs are the same. *)
Lemma span_unique (p : char -> bool) : forall a a' x x' r r',
  forallb p a = true -> forallb p a' = true ->
  p x = false -> p x' = false ->
  a ++ x :: r = a' ++ x' :: r' -> a = a' /\ x = x' /\ r = r'.
Proof.
  induction a as [|c a IH]; intros a' x x' r r' Ha Ha' Hx Hx' E.
  - destruct a' as [|c' a'].
    + simpl in E. inversion E. auto.
    + simpl in E, Ha'. inversion E. subst c'.
      apply andb_true_iff in Ha' as [Hc _]. congruence.
  - simpl in Ha. apply andb_true_iff in Ha as [Hc Ha].
    destruct a' as [|c' a'].
    + simpl in E. inversion E. subst x'. congruence.
    + simpl in E, Ha'. inversion E. subst c'.
      apply andb_true_iff in Ha' as [_ Ha'].
      destruct (IH a' x x' r r' Ha Ha' Hx Hx' H1) as (-> & -> & ->). auto.
Qed.

(** The same, when the first reading may run to the end of the text. *)
Lemma span_end (p : char -> bool) : forall a a' x' r',
  forallb p a = true -> p x' = false -> a <> a' ++ x' :: r'.
Proof.
  intros a a' x' r' Ha Hx E. rewrite E in Ha.
  rewrite forallb_app in Ha. apply andb_true_iff in Ha as [_ Ha].
  simpl in Ha. apply andb_true_iff in Ha as [Ha _]. congruence.
Qed.

(** ** The ordinal of an item, whatever follows it *)

Lemma strip_ordinal_rest ds ws rest :
  ds <> [] -> forallb is_digit ds = true -> forallb is_space ws = true ->
  stops Space rest = true ->
  strip_ordinal (ds ++ [c_dot] ++ ws ++ rest) = rest.
Proof.
  intros Hne Hd Hs Hr. unfold strip_ordinal, replace.
  assert (E : exec_here re_leading_ordinal None (ds ++ [c_dot] ++ ws ++ rest)
              = Some (ds ++ [c_dot] ++ ws, rest)).
  { apply first_exec. unfold re_leading_ordinal.
    change (ends (Seq Bol ordinal)) with (seq_ends (ends Bol) (ends ordinal)).
    apply (@first_seq _ _ None _ [] (ds ++ [c_dot] ++ ws ++ rest)
                      (ds ++ [c_dot] ++ ws) rest).
    - unfold first_is. simpl. eexists; reflexivity.
    - apply first_ordinal; auto. }
  rewrite (search_here _ _ _ E). reflexivity.
Qed.

Lemma upper_not_delim c : is_upper c = true -> is_delim c = false.
Proof.
  intros H. unfold is_delim. rewrite (upper_not_space _ H).
  apply is_upper_range in H. unfold c_comma, c_dot. simpl.
  destruct (N.eqb_spec c 44); [lia|]. destruct (N.eqb_spec c 46); [lia|].
  reflexivity.
Qed.

Lemma upper_not_digit c : is_upper c = true -> is_digit c = false.
Proof.
  intros H. apply is_upper_range in H. unfold is_digit.
  destruct (N.leb_spec 48 c); destruct (N.leb_spec c 57); simpl; auto; lia.
Qed.

Lemma delim_not_digit c : is_delim c = true -> is_digit c = false.
Proof.
  unfold is_delim. intros H.
  apply orb_true_iff in H as [H|H]; [apply orb_true_iff in H as [H|H]|].
  - apply is_space_range in H. unfold is_digit.
    destruct (N.leb_spec 48 c); destruct (N.leb_spec c 57); simpl; auto; lia.
  - apply N.eqb_eq in H. subst. reflexivity.
  - apply N.eqb_eq in H. subst. reflexivity.
Qed.

(** [/[,.]$/] finds nothing to remove after a lone capital, and removes a
    comma or a period that follows it. *)
Lemma trailing_punct_letter c :
  is_upper c = true -> replace re_trailing_punct [c] [] = [c].
Proof.
  intros H. unfold replace.
  rewrite search_cons. unfold exec_here at 1.
  assert (E : ends re_trailing_punct None [c] = []).
  { unfold re_trailing_punct.
    change (ends (Seq (One (OneOf [c_comma; c_dot])) Eol) None [c])
      with (seq_ends (ends (One (OneOf [c_comma; c_dot]))) (ends Eol) None [c]).
    unfold seq_ends.
    replace (ends (One (OneOf [c_comma; c_dot])) None [c]) with (@nil cand);
      [reflexivity|].
    pose proof (upper_not_delim _ H) as D. unfold is_delim in D.
    apply orb_false_iff in D as [D D3]. apply orb_false_iff in D as [_ D2].
    simpl. now rewrite D2, D3. }
  rewrite E. simpl hd_error. rewrite search_nil. reflexivity.
Qed.

Lemma trailing_punct_removed c d :
  is_upper c = true -> (N.eqb d c_comma || N.eqb d c_dot)%bool = true ->
  replace re_trailing_punct [c; d] [] = [c].
Proof.
  intros H Hd. unfold replace.
  rewrite search_cons. unfold exec_here at 1.
  assert (E : ends re_trailing_punct None [c; d] = []).
  { unfold re_trailing_punct.
    change (ends (Seq (One (OneOf [c_comma; c_dot])) Eol) None [c; d])
      with (seq_ends (ends (One (OneOf [c_comma; c_dot]))) (ends Eol) None [c; d]).
    unfold seq_ends.
    replace (ends (One (OneOf [c_comma; c_dot])) None [c; d]) with (@nil cand);
      [reflexivity|].
    pose proof (upper_not_delim _ H) as D. unfold is_delim in D.
    apply orb_false_iff in D as [D D3]. apply orb_false_iff in D as [_ D2].
    simpl. now rewrite D2, D3. }
  rewrite E. simpl hd_error.
  assert (F : exec_here re_trailing_punct (Some c) [d] = Some ([d], [])).
  { unfold exec_here, re_trailing_punct.
    change (ends (Seq (One (OneOf [c_comma; c_dot])) Eol) (Some c) [d])
      with (seq_ends (ends (One (OneOf [c_comma; c_dot]))) (ends Eol) (Some c) [d]).
    unfold seq_ends. simpl. rewrite orb_false_r. rewrite Hd. reflexivity. }
  rewrite (search_here _ _ _ F). reflexivity.
Qed.

Lemma trim_letter_punct c d :
  is_upper c = true -> (N.eqb d c_comma || N.eqb d c_dot)%bool = true ->
  trim [c; d] = [c; d].
Proof.
  intros Hc Hd.
  assert (Sd : is_space d = false).
  { apply orb_true_iff in Hd as [E|E]; apply N.eqb_eq in E; subst; reflexivity. }
  unfold trim. simpl. rewrite (upper_not_space _ Hc). simpl.
  rewrite Sd. reflexivity.
Qed.

(** The label the bare strategy makes of a letter and what ends its item. *)
Lemma bare_label_item ds ws c e :
  ds <> [] -> forallb is_digit ds = true -> forallb is_space ws = true ->
  is_upper c = true ->
  match e with [] => true | [d] => is_delim d | _ => false end = true ->
  bare_label (ds ++ [c_dot] ++ ws ++ [c] ++ e) = label_of c.
Proof.
  intros Hne Hd Hs Hc He. unfold bare_label, label_of. f_equal.
  rewrite strip_ordinal_rest; auto.
  2:{ simpl. now rewrite (upper_not_space _ Hc). }
  destruct e as [|d [|? ?]]; [| |discriminate].
  - change ([c] ++ []) with ([] ++ [c] ++ @nil char).
    rewrite trim_letter by auto. now apply trailing_punct_letter.
  - unfold is_delim in He. destruct (is_space d) eqn:Sd.
    + change ([c] ++ [d]) with ([] ++ [c] ++ [d]).
      rewrite trim_letter; auto; [now apply trailing_punct_letter|].
      simpl. now rewrite Sd.
    + simpl in He. change ([c] ++ [d]) with [c; d].
      rewrite trim_letter_punct by auto. now apply trailing_punct_removed.
Qed.

Lemma lang_bare w :
  lang re_bare w ->
  exists ds ws c e, w = ds ++ [c_dot] ++ ws ++ [c] ++ e
    /\ ds <> [] /\ forallb is_digit ds = true
    /\ forallb is_space ws = true /\ is_upper c = true
    /\ match e with [] => true | [d] => is_delim d | _ => false end = true.
Proof.
  intros H. unfold re_bare in H.
  apply lang_seq_inv in H as (w1 & w2 & -> & H1 & H2).
  apply lang_ordinal in H1 as (ds & ws & -> & Hne & Hd & Hs).
  apply lang_seq_inv in H2 as (w3 & w4 & -> & H3 & H4).
  apply lang_one_inv in H3 as (c & -> & Hc).
  exists ds, ws, c, w4. split; [now rewrite <- !app_assoc|].
  repeat (split; [assumption|]).
  inversion H4 as [| | | | | |a b w Ha|a b w Hb| | |]; subst.
  - apply lang_one_inv in Ha as (d & -> & Hd'). simpl in Hd'.
    unfold is_delim. now rewrite Hd'.
  - inversion Hb as [| | | | | |a b w Ha'|a b w Hb'| | |]; subst.
    + apply (@lang_empty_inv Eol) in Ha'; [now subst | auto].
    + inversion Hb' as [| | | | | |a b w Ha2|a b w Hb2| | |]; subst.
      * apply lang_one_inv in Ha2 as (d & -> & Hd'). simpl in Hd'.
        unfold is_delim. rewrite Hd'. now rewrite orb_true_r.
      * apply lang_one_inv in Hb2 as (d & -> & Hd'). simpl in Hd'.
        unfold is_delim. rewrite Hd'. now rewrite !orb_true_r.
Qed.

Lemma bare_label_full m : lang re_bare m -> full_label (bare_label m).
Proof.
  intros H. apply lang_bare in H as (ds & ws & c & e & -> & ? & ? & ? & ? & ?).
  exists c. split; [now apply bare_label_item | assumption].
Qed.

(** ** Every label is [Response] and one capital letter *)

Lemma strip_ordinal_full ms :
  Forall (lang re_numbered) ms -> Forall full_label (map strip_ordinal ms).
Proof.
  intros H. rewrite Forall_map. eapply Forall_impl; [|exact H].
  intros m Hm. destruct (strip_ordinal_numbered Hm) as (c & E & Hc).
  exists c. split; assumption.
Qed.

Lemma headered_full section r :
  headered section = Some r -> r <> [] /\ Forall full_label r.
Proof.
  unfold headered. intros H.
  destruct (match_g re_numbered section) as [[|m ms]|] eqn:E.
  - apply match_g_sound in E as [E _]. congruence.
  - injection H as <-. split; [discriminate|].
    apply (@strip_ordinal_full (m :: ms)).
    now apply match_g_sound in E as [_ F].
  - destruct (match_g re_bare section) as [[|b bs]|] eqn:E2; try discriminate.
    injection H as <-. split; [discriminate|].
    apply match_g_sound in E2 as [_ F].
    change (Forall full_label (map bare_label (b :: bs))).
    rewrite Forall_map. eapply Forall_impl; [|exact F].
    intros x Hx. now apply bare_label_full.
Qed.

Lemma gt_chain_run text m ms :
  match_g re_gt text = Some (m :: ms) ->
  gt_chain text = map label_of (filter is_upper m).
Proof.
  intros E. unfold gt_chain. rewrite E. cbn [hd].
  apply match_g_sound in E as [_ F]. inversion F as [|? ? Hm _]; subst.
  destruct (gt_letters Hm) as [L T]. rewrite T, L, map_map. reflexivity.
Qed.

Lemma gt_chain_full text : Forall full_label (gt_chain text).
Proof.
  destruct (match_g re_gt text) as [[|m ms]|] eqn:E.
  - apply match_g_sound in E as [E _]. congruence.
  - rewrite (gt_chain_run _ E). rewrite Forall_map. apply Forall_forall.
    intros c Hc. apply filter_In in Hc as [_ Hc]. now exists c.
  - unfold gt_chain. rewrite E. constructor.
Qed.

Lemma unheadered_full text : Forall full_label (unheadered text).
Proof.
  unfold unheadered.
  destruct (match_g re_numbered text) as [[|m ms]|] eqn:E.
  - apply match_g_sound in E as [E _]. congruence.
  - apply (@strip_ordinal_full (m :: ms)).
    now apply match_g_sound in E as [_ F].
  - destruct (match_g re_mention text) as [[|n ns]|] eqn:E2.
    + apply gt_chain_full.
    + rewrite set_spread_keep_firsts. apply Forall_forall. intros l Hl.
      apply (proj1 (keep_firsts_In _ _)) in Hl.
      apply match_g_sound in E2 as [_ F].
      rewrite Forall_forall in F. destruct (lang_mention (F _ Hl)) as (c & -> & Hc).
      now exists c.
    + apply gt_chain_full.
Qed.

Lemma parseRanking_full text : Forall full_label (parseRanking text).
Proof.
  unfold parseRanking.
  destruct (Z.eqb (indexOf text marker) (-1)); [apply unheadered_full|].
  destruct (headered (slice text (indexOf text marker))) as [r|] eqn:E;
    [now apply (headered_full _ E) | apply unheadered_full].
Qed.

(** X1.  Whatever the text, every string [parseRanking] returns is
    [Response], a space and one capital letter from A to Z: ten code units,
    never a bare letter, an ordinal or a piece of the evaluation. *)
Theorem parseRanking_returns_full_labels (text : jstr) :
  Forall full_label (parseRanking text)
  /\ (forall l, In l (parseRanking text) -> length l = 10).
Proof.
  split; [apply parseRanking_full|].
  intros l Hl. pose proof (parseRanking_full text) as F.
  rewrite Forall_forall in F. destruct (F _ Hl) as (c & -> & _). reflexivity.
Qed.

(** ** When the parse is empty *)

Lemma holds_numbered_mention text : holds_numbered text -> holds_mention text.
Proof.
  intros (before & ds & ws & c & after & -> & _ & _ & _ & Hc).
  exists (before ++ ds ++ [c_dot] ++ ws), c, after.
  split; [now rewrite <- !app_assoc | assumption].
Qed.

Lemma holds_mention_suffix a text : holds_mention text -> holds_mention (a ++ text).
Proof.
  intros (before & c & after & -> & Hc).
  exists (a ++ before), c, after. split; [now rewrite <- app_assoc | assumption].
Qed.

Lemma slice_suffix text i : exists a, text = a ++ slice text i.
Proof.
  unfold slice. eexists. symmetry. apply firstn_skipn.
Qed.

Lemma no_mention_none text :
  ~ holds_mention text ->
  match_g re_mention text = None /\ match_g re_numbered text = None.
Proof.
  intros H. split.
  - destruct (match_g re_mention text) as [l|] eqn:E; [|reflexivity].
    exfalso. apply H. apply mention_found_iff. now exists l.
  - destruct (match_g re_numbered text) as [l|] eqn:E; [|reflexivity].
    exfalso. apply H, holds_numbered_mention. apply numbered_found_iff.
    now exists l.
Qed.

Lemma unheadered_mention text : holds_mention text -> unheadered text <> [].
Proof.
  intros H. unfold unheadered.
  destruct (match_g re_numbered text) as [[|m ms]|] eqn:E.
  - apply match_g_sound in E as [E _]. congruence.
  - discriminate.
  - apply (proj1 (mention_found_iff text)) in H as (l & El). rewrite El.
    destruct l as [|n ns]; [apply match_g_sound in El as [El _]; congruence|].
    rewrite set_spread_keep_firsts. discriminate.
Qed.

Lemma parseRanking_mention_nonempty text :
  holds_mention text -> parseRanking text <> [].
Proof.
  intros H. unfold parseRanking.
  destruct (Z.eqb (indexOf text marker) (-1)); [now apply unheadered_mention|].
  destruct (headered (slice text (indexOf text marker))) as [r|] eqn:E;
    [now apply (headered_full _ E) | now apply unheadered_mention].
Qed.

Lemma gt_chain_nonempty text l : match_g re_gt text = Some l -> gt_chain text <> [].
Proof.
  intros E. destruct l as [|m ms]; [apply match_g_sound in E as [E _]; congruence|].
  rewrite (gt_chain_run _ E).
  apply match_g_sound in E as [_ F]. inversion F as [|? ? Hm _]; subst.
  unfold re_gt in Hm. apply lang_seq_inv in Hm as (w1 & w2 & -> & H1 & H2).
  apply (@lang_empty_inv WordB) in H1; [subst | auto].
  apply lang_seq_inv in H2 as (w3 & w4 & -> & H3 & _).
  apply lang_one_inv in H3 as (c & -> & Hc). simpl in Hc.
  simpl. rewrite Hc. discriminate.
Qed.

Lemma lang_has_upper r w :
  r = re_mention \/ r = re_bare \/ r = re_gt -> lang r w -> has_upper w = true.
Proof.
  unfold has_upper. intros [->|[->| ->]] H.
  - apply lang_mention in H as (c & -> & Hc). rewrite existsb_app.
    apply orb_true_iff. right. simpl. now rewrite Hc.
  - apply lang_bare in H as (ds & ws & c & e & -> & _ & _ & _ & Hc & _).
    rewrite !existsb_app. simpl. rewrite Hc. now rewrite !orb_true_r.
  - unfold re_gt in H. apply lang_seq_inv in H as (w1 & w2 & -> & H1 & H2).
    apply lang_seq_inv in H2 as (w3 & w4 & -> & H3 & _).
    apply lang_one_inv in H3 as (c & -> & Hc). simpl in Hc.
    rewrite !existsb_app. simpl. rewrite Hc. now rewrite !orb_true_r.
Qed.

Lemma match_g_no_upper r s :
  r = re_mention \/ r = re_bare \/ r = re_gt ->
  has_upper s = false -> match_g r s = None.
Proof.
  intros Hr Hs. destruct (match_g r s) as [l|] eqn:E; [|reflexivity].
  apply match_g_found in E as (skipped & w & rest & -> & Hw).
  apply (lang_has_upper Hr) in Hw. unfold has_upper in *.
  rewrite !existsb_app, Hw in Hs. now rewrite orb_true_r in Hs.
Qed.

Lemma parseRanking_empty text :
  parseRanking text = [] <->
  (~ holds_mention text
   /\ (includes text marker = true ->
       match_g re_bare (slice text (indexOf text marker)) = None)
   /\ match_g re_gt text = None).
Proof.
  split.
  - intros P. assert (NM : ~ holds_mention text).
    { intros H. now apply (parseRanking_mention_nonempty H) in P. }
    split; [exact NM|].
    destruct (no_mention_none NM) as [Em En].
    unfold parseRanking, includes in *.
    destruct (Z.eqb (indexOf text marker) (-1)) eqn:Ei.
    + split; [discriminate|].
      unfold unheadered in P. rewrite En, Em in P.
      destruct (match_g re_gt text) as [l|] eqn:G; [|reflexivity].
      exfalso. now apply (gt_chain_nonempty _ G).
    + destruct (headered (slice text (indexOf text marker))) as [r|] eqn:Eh.
      * exfalso. now apply (headered_full _ Eh).
      * split.
        -- intros _. unfold headered in Eh.
           destruct (match_g re_numbered _) as [[|m ms]|] eqn:E1; try discriminate.
           ++ apply match_g_sound in E1 as [E1 _]. congruence.
           ++ destruct (match_g re_bare _) as [[|b bs]|] eqn:E2;
                try discriminate; [|reflexivity].
              apply match_g_sound in E2 as [E2 _]. congruence.
        -- unfold unheadered in P. rewrite En, Em in P.
           destruct (match_g re_gt text) as [l|] eqn:G; [|reflexivity].
           exfalso. now apply (gt_chain_nonempty _ G).
  - intros (NM & B & G).
    destruct (no_mention_none NM) as [Em En].
    assert (U : unheadered text = []).
    { unfold unheadered, gt_chain. now rewrite En, Em, G. }
    unfold parseRanking, includes in *.
    destruct (Z.eqb (indexOf text marker) (-1)) eqn:Ei; [exact U|].
    specialize (B eq_refl).
    assert (NS : ~ holds_mention (slice text (indexOf text marker))).
    { intros H. apply NM.
      destruct (slice_suffix text (indexOf text marker)) as (a & Ea).
      rewrite Ea. now apply holds_mention_suffix. }
    destruct (no_mention_none NS) as [_ Sn].
    unfold headered. rewrite Sn, B. exact U.
Qed.

(** X2.  [parseRanking] returns the empty list exactly when no
    [Response X] stands anywhere in the text, the search for bare letters
    finds nothing from the marker on (when there is a marker), and the search
    for a [>] chain finds nothing.  So a text that mentions a response never
    parses to nothing, and a text without a capital letter always does. *)
Theorem parseRanking_empty_iff (text : jstr) :
  (parseRanking text = [] <->
   (~ holds_mention text
    /\ (includes text marker = true ->
        match_g re_bare (slice text (indexOf text marker)) = None)
    /\ match_g re_gt text = None))
  /\ (holds_mention text -> parseRanking text <> [])
  /\ (has_upper text = false -> parseRanking text = []).
Proof.
  split; [apply parseRanking_empty|]. split; [apply parseRanking_mention_nonempty|].
  intros H. apply parseRanking_empty. split; [|split].
  - intros (before & c & after & -> & Hc). unfold has_upper, label_of in H.
    rewrite !existsb_app in H.
    apply orb_false_iff in H as [_ H]. apply orb_false_iff in H as [H _].
    apply orb_false_iff in H as [_ H]. simpl in H. now rewrite Hc in H.
  - intros _. apply match_g_no_upper; auto.
    destruct (slice_suffix text (indexOf text marker)) as (a & Ea).
    rewrite Ea in H. unfold has_upper in *. rewrite existsb_app in H.
    now apply orb_false_iff in H as [_ H].
  - apply match_g_no_upper; auto.
Qed.

(** ** The list of bare letters after the marker *)

Lemma bare_needs_digit prev s :
  match s with [] => true | c :: _ => negb (is_digit c) end = true ->
  ends re_bare prev s = [].
Proof.
  intros H. unfold re_bare, ordinal.
  change (ends (Seq (Seq (Plus (One Digit)) (Seq (One (Lit c_dot)) (Star (One Space))))
                    (Seq (One Upper)
                         (Alt (One Space)
                              (Alt Eol (Alt (One (Lit c_comma)) (One (Lit c_dot)))))))
               prev s)
    with (seq_ends
            (seq_ends (seq_ends (ends (One Digit)) (star_ends (ends (One Digit))))
                      (ends (Seq (One (Lit c_dot)) (Star (One Space)))))
            (ends (Seq (One Upper)
                       (Alt (One Space)
                            (Alt Eol (Alt (One (Lit c_comma)) (One (Lit c_dot)))))))
            prev s).
  unfold seq_ends at 1 2 3.
  replace (ends (One Digit) prev s) with (@nil cand); [reflexivity|].
  destruct s as [|c s]; [reflexivity|].
  apply negb_true_iff in H. simpl. change (atom_ok Digit c) with (is_digit c).
  now rewrite H.
Qed.

Lemma search_bare_none : forall s prev,
  no_digit s = true -> search re_bare prev s = None.
Proof.
  induction s as [|c s IH]; intros prev H.
  - rewrite search_nil. unfold exec_here.
    rewrite bare_needs_digit; reflexivity.
  - simpl in H. apply andb_true_iff in H as [Hc Hs].
    rewrite search_cons. unfold exec_here.
    rewrite bare_needs_digit by exact Hc. simpl.
    now rewrite IH.
Qed.

(** What ends an item, as the alternatives [(?:\s|$|,|\.)] read it. *)
Lemma first_delim e prev rest :
  ends_well e (is_nil rest) = true ->
  first_is
    (ends (Alt (One Space) (Alt Eol (Alt (One (Lit c_comma)) (One (Lit c_dot))))))
    prev (e ++ rest) (e, rest).
Proof.
  unfold ends_well. intros H. unfold first_is.
  destruct e as [|d [|? ?]]; [| |discriminate].
  - destruct rest; [|discriminate]. simpl. eexists; reflexivity.
  - unfold is_delim in H. simpl.
    destruct (is_space d); [eexists; reflexivity|].
    destruct (N.eqb d c_comma); [eexists; reflexivity|].
    simpl in H. rewrite H. eexists; reflexivity.
Qed.

Lemma first_bare ds ws c e prev rest :
  ds <> [] -> forallb is_digit ds = true -> forallb is_space ws = true ->
  is_upper c = true ->
  ends_well e (is_nil rest) = true ->
  first_is (ends re_bare) prev
           (ds ++ [c_dot] ++ ws ++ [c] ++ e ++ rest)
           ((ds ++ [c_dot] ++ ws) ++ [c] ++ e, rest).
Proof.
  intros Hne Hd Hs Hc He. unfold re_bare.
  change (ends (Seq ordinal
                    (Seq (One Upper)
                         (Alt (One Space)
                              (Alt Eol (Alt (One (Lit c_comma)) (One (Lit c_dot))))))))
    with (seq_ends (ends ordinal)
            (seq_ends (ends (One Upper))
               (ends (Alt (One Space)
                          (Alt Eol (Alt (One (Lit c_comma)) (One (Lit c_dot)))))))).
  apply (@first_seq _ _ prev _ (ds ++ [c_dot] ++ ws) ([c] ++ e ++ rest)
                    ([c] ++ e) rest).
  - replace (ds ++ [c_dot] ++ ws ++ [c] ++ e ++ rest)
      with (ds ++ [c_dot] ++ ws ++ ([c] ++ e ++ rest)) by reflexivity.
    apply first_ordinal; auto. simpl. now rewrite (upper_not_space _ Hc).
  - apply (@first_seq _ _ _ _ [c] (e ++ rest) e rest).
    + apply first_one. exact Hc.
    + now apply first_delim.
Qed.


Lemma bare_fields_inv it :
  bare_fields it = true ->
  no_digit (bsep it) = true /\ bord it <> []
  /\ forallb is_digit (bord it) = true /\ forallb is_space (bgap it) = true
  /\ is_upper (bletter it) = true.
Proof.
  unfold bare_fields. intros H.
  apply andb_true_iff in H as [H H5]. apply andb_true_iff in H as [H H4].
  apply andb_true_iff in H as [H H3]. apply andb_true_iff in H as [H1 H2].
  repeat split; try assumption.
  destruct (bord it); [discriminate | discriminate].
Qed.

Lemma search_bare_item : forall skip prev it rest,
  no_digit skip = true -> bare_fields it = true ->
  ends_well (bend it) (is_nil rest) = true ->
  search re_bare prev (skip ++ bare_text it ++ rest)
  = Some (skip, bare_text it, rest).
Proof.
  induction skip as [|c skip IH]; intros prev it rest Hk Hit He.
  - destruct (bare_fields_inv _ Hit) as (_ & Hne & Hd & Hs & Hc).
    assert (E : exec_here re_bare prev (bare_text it ++ rest)
                = Some (bare_text it, rest)).
    { apply first_exec. unfold bare_text.
      replace ((bord it ++ [c_dot] ++ bgap it ++ [bletter it] ++ bend it) ++ rest)
        with (bord it ++ [c_dot] ++ bgap it ++ [bletter it] ++ bend it ++ rest)
        by (rewrite <- !app_assoc; reflexivity).
      replace (bord it ++ [c_dot] ++ bgap it ++ [bletter it] ++ bend it)
        with ((bord it ++ [c_dot] ++ bgap it) ++ [bletter it] ++ bend it)
        by (rewrite <- !app_assoc; reflexivity).
      apply first_bare; auto. }
    simpl app at 1. now apply search_here.
  - simpl in Hk. apply andb_true_iff in Hk as [Hc Hk].
    change ((c :: skip) ++ bare_text it ++ rest)
      with (c :: skip ++ bare_text it ++ rest).
    rewrite search_cons. unfold exec_here.
    rewrite bare_needs_digit by exact Hc. simpl.
    now rewrite IH.
Qed.

Lemma bare_text_cons it :
  bare_fields it = true -> exists c w, bare_text it = c :: w.
Proof.
  intros H. destruct (bare_fields_inv _ H) as (_ & Hne & _).
  unfold bare_text. destruct (bord it) as [|c w]; [congruence|].
  eexists _, _; reflexivity.
Qed.

Lemma bare_list_nil items : is_nil items = true -> bare_list items = [].
Proof. destruct items; [reflexivity | discriminate]. Qed.

Lemma ends_well_rest it items trailer :
  ends_well (bend it) (is_nil items && is_nil trailer) = true ->
  ends_well (bend it) (is_nil (bare_list items ++ trailer)) = true.
Proof.
  unfold ends_well. destruct (bend it) as [|d [|? ?]]; auto.
  intros H. apply andb_true_iff in H as [Hi Ht].
  rewrite (bare_list_nil _ Hi). exact Ht.
Qed.

Lemma matches_bare_list : forall items fuel prev trailer,
  bare_ok items trailer = true ->
  length items < fuel ->
  matches_from fuel re_bare prev (bare_list items ++ trailer)
  = map bare_text items.
Proof.
  induction items as [|it items IH]; intros fuel prev trailer Hok Hf;
    (destruct fuel as [|f]; [simpl in Hf; lia|]).
  - rewrite matches_from_S. simpl bare_list. simpl app.
    simpl in Hok. now rewrite search_bare_none.
  - simpl in Hok. apply andb_true_iff in Hok as [Hok Hrest].
    apply andb_true_iff in Hok as [Hit He].
    change (bare_list (it :: items))
      with ((bsep it ++ bare_text it) ++ bare_list items).
    rewrite matches_from_S.
    replace (((bsep it ++ bare_text it) ++ bare_list items) ++ trailer)
      with (bsep it ++ bare_text it ++ (bare_list items ++ trailer))
      by (rewrite <- !app_assoc; reflexivity).
    rewrite search_bare_item; auto.
    2:{ now destruct (bare_fields_inv _ Hit). }
    2:{ now apply ends_well_rest. }
    destruct (bare_text_cons _ Hit) as (c & w & E).
    simpl map. rewrite E.
    f_equal. apply IH; auto. simpl in Hf. lia.
Qed.

Lemma bare_list_length : forall items trailer,
  bare_ok items trailer = true -> length items <= length (bare_list items).
Proof.
  induction items as [|it items IH]; intros trailer H; [simpl; lia|].
  simpl in H. apply andb_true_iff in H as [H Hr].
  apply andb_true_iff in H as [Hit _].
  destruct (bare_text_cons _ Hit) as (c & w & E).
  change (bare_list (it :: items))
    with ((bsep it ++ bare_text it) ++ bare_list items).
  rewrite !length_app, E. specialize (IH _ Hr). simpl. lia.
Qed.

(** *** The search for full labels finds nothing in such a list *)

Lemma search_numbered_skip s : forall skip,
  (forall p, search re_numbered p s = None) ->
  no_digit skip = true ->
  forall p, search re_numbered p (skip ++ s) = None.
Proof.
  induction skip as [|c skip IH]; intros Hs Hk p; [apply Hs|].
  simpl in Hk. apply andb_true_iff in Hk as [Hc Hk].
  change ((c :: skip) ++ s) with (c :: skip ++ s).
  rewrite search_cons. unfold exec_here.
  rewrite numbered_needs_digit by exact Hc. simpl.
  now rewrite IH.
Qed.

(** At the digits of a bare item no full label can be read: the letter is
    followed by a delimiter or by nothing, never by [esponse]. *)
Lemma numbered_not_at_bare ds ws c e rest prev :
  ds <> [] -> forallb is_digit ds = true -> forallb is_space ws = true ->
  is_upper c = true -> ends_well e (is_nil rest) = true ->
  ends re_numbered prev (ds ++ [c_dot] ++ ws ++ [c] ++ e ++ rest) = [].
Proof.
  intros Hne Hd Hs Hc He.
  destruct (ends re_numbered prev (ds ++ [c_dot] ++ ws ++ [c] ++ e ++ rest))
    as [|[w r] tl] eqn:E; [reflexivity|]. exfalso.
  assert (I : In (w, r) (ends re_numbered prev
                           (ds ++ [c_dot] ++ ws ++ [c] ++ e ++ rest)))
    by (rewrite E; now left).
  apply ends_sound in I as [S L].
  apply lang_numbered in L as (ds2 & ws2 & c2 & -> & _ & Hd2 & Hs2 & _).
  replace ((ds2 ++ [c_dot] ++ ws2 ++ u "Response " ++ [c2]) ++ r)
    with (ds2 ++ c_dot :: (ws2 ++ u "Response " ++ [c2] ++ r)) in S
    by (rewrite <- !app_assoc; reflexivity).
  change (ds ++ [c_dot] ++ ws ++ [c] ++ e ++ rest)
    with (ds ++ c_dot :: (ws ++ [c] ++ e ++ rest)) in S.
  apply (@span_unique is_digit) in S as (_ & _ & S); auto.
  change (ws ++ [c] ++ e ++ rest) with (ws ++ c :: (e ++ rest)) in S.
  change (ws2 ++ u "Response " ++ [c2] ++ r)
    with (ws2 ++ 82%N :: (u "esponse " ++ [c2] ++ r)) in S.
  apply (@span_unique is_space) in S as (_ & _ & S); auto.
  2:{ now apply upper_not_space. }
  unfold ends_well in He. destruct e as [|d [|? ?]]; [| |discriminate].
  - destruct rest; [discriminate S | discriminate He].
  - simpl in S. injection S as -> _. discriminate He.
Qed.

Lemma spaces_no_digit ws : forallb is_space ws = true -> no_digit ws = true.
Proof.
  intros Hs. apply forallb_forall. intros x Hx.
  rewrite forallb_forall in Hs. specialize (Hs _ Hx).
  apply is_space_range in Hs. unfold is_digit.
  destruct (N.leb_spec 48 x); destruct (N.leb_spec x 57); simpl; auto; lia.
Qed.

Lemma search_numbered_digits ws c e rest :
  forallb is_space ws = true -> is_upper c = true ->
  ends_well e (is_nil rest) = true ->
  (forall p, search re_numbered p rest = None) ->
  forall ds, forallb is_digit ds = true ->
  forall p, search re_numbered p (ds ++ [c_dot] ++ ws ++ [c] ++ e ++ rest) = None.
Proof.
  intros Hs Hc He Hrest.
  assert (T : forall p, search re_numbered p ([c_dot] ++ ws ++ [c] ++ e ++ rest)
                        = None).
  { intros p.
    replace ([c_dot] ++ ws ++ [c] ++ e ++ rest)
      with (([c_dot] ++ ws ++ [c] ++ e) ++ rest)
      by (rewrite <- !app_assoc; reflexivity).
    apply search_numbered_skip; [exact Hrest|].
    unfold no_digit. rewrite !forallb_app.
    fold (no_digit ws). rewrite (spaces_no_digit _ Hs).
    simpl. rewrite (upper_not_digit _ Hc). simpl.
    unfold ends_well in He.
    destruct e as [|d [|? ?]]; [reflexivity| |discriminate].
    simpl. now rewrite (delim_not_digit _ He). }
  induction ds as [|d ds IH]; intros Hd p; [apply T|].
  change ((d :: ds) ++ [c_dot] ++ ws ++ [c] ++ e ++ rest)
    with (d :: (ds ++ [c_dot] ++ ws ++ [c] ++ e ++ rest)).
  rewrite search_cons. unfold exec_here.
  change (d :: (ds ++ [c_dot] ++ ws ++ [c] ++ e ++ rest))
    with ((d :: ds) ++ [c_dot] ++ ws ++ [c] ++ e ++ rest).
  rewrite numbered_not_at_bare; auto; [|discriminate]. simpl hd_error.
  simpl in Hd. apply andb_true_iff in Hd as [_ Hd]. now rewrite IH.
Qed.

Lemma search_numbered_bare trailer : forall items,
  bare_ok items trailer = true ->
  forall p, search re_numbered p (bare_list items ++ trailer) = None.
Proof.
  induction items as [|it items IH]; intros Hok p.
  - simpl in Hok. simpl. now apply search_numbered_none.
  - simpl in Hok. apply andb_true_iff in Hok as [Hok Hrest].
    apply andb_true_iff in Hok as [Hit He].
    destruct (bare_fields_inv _ Hit) as (Hk & Hne & Hd & Hs & Hc).
    change (bare_list (it :: items))
      with ((bsep it ++ bare_text it) ++ bare_list items).
    replace (((bsep it ++ bare_text it) ++ bare_list items) ++ trailer)
      with (bsep it ++ (bord it ++ [c_dot] ++ bgap it ++ [bletter it] ++ bend it
                          ++ (bare_list items ++ trailer)))
      by (unfold bare_text; rewrite <- !app_assoc; reflexivity).
    apply search_numbered_skip; [|exact Hk].
    apply search_numbered_digits; auto.
    now apply ends_well_rest.
Qed.

Lemma match_g_search_none r s :
  search r None s = None -> match_g r s = None.
Proof.
  intros H. unfold match_g. rewrite matches_from_S, H. reflexivity.
Qed.

Lemma marker_no_digit : no_digit marker = true.
Proof. reflexivity. Qed.

Lemma headered_bare_list it items trailer :
  bare_ok (it :: items) trailer = true ->
  headered (marker ++ bare_list (it :: items) ++ trailer)
  = Some (map bare_label (map bare_text (it :: items))).
Proof.
  intros Hok. unfold headered.
  rewrite match_g_search_none.
  2:{ apply search_numbered_skip; [|apply marker_no_digit].
      now apply search_numbered_bare. }
  set (it' := {| bsep := marker ++ bsep it; bord := bord it; bgap := bgap it;
                 bletter := bletter it; bend := bend it |}).
  assert (Hok' : bare_ok (it' :: items) trailer = true).
  { simpl in Hok |- *. apply andb_true_iff in Hok as [Hok Hrest].
    apply andb_true_iff in Hok as [Hit He].
    rewrite Hrest, andb_true_r. apply andb_true_iff. split; [|exact He].
    destruct (bare_fields_inv _ Hit) as (Hk & Hne & Hd & Hs & Hc).
    unfold bare_fields. cbn [bsep bord bgap bletter it'].
    unfold no_digit in *. rewrite forallb_app, Hk, Hd, Hs, Hc.
    destruct (bord it); [congruence | reflexivity]. }
  assert (E : marker ++ bare_list (it :: items) ++ trailer
              = bare_list (it' :: items) ++ trailer).
  { unfold bare_list, bare_text. simpl. now rewrite <- !app_assoc. }
  assert (B : match_g re_bare (marker ++ bare_list (it :: items) ++ trailer)
              = Some (map bare_text (it :: items))).
  { rewrite E. unfold match_g.
    rewrite matches_bare_list; [reflexivity | assumption |].
    rewrite length_app. pose proof (bare_list_length _ _ Hok'). lia. }
  rewrite B. reflexivity.
Qed.

Lemma map_bare_label : forall items trailer,
  bare_ok items trailer = true ->
  map bare_label (map bare_text items)
  = map (fun it => label_of (bletter it)) items.
Proof.
  induction items as [|it items IH]; intros trailer H; [reflexivity|].
  simpl in H. apply andb_true_iff in H as [H Hr].
  apply andb_true_iff in H as [Hit He].
  destruct (bare_fields_inv _ Hit) as (_ & Hne & Hd & Hs & Hc).
  simpl map. rewrite (IH _ Hr). f_equal.
  unfold bare_text. apply bare_label_item; auto.
  unfold ends_well in He. destruct (bend it) as [|d [|? ?]]; auto.
Qed.

(** X3.  A text made of any prose that does not hold the marker, then
    [FINAL RANKING:], then a list of bare letters (each item a run of digits,
    a period, optional whitespace and one capital letter followed by a
    whitespace character, a comma or a period, or by the end of the text; no
    digit between the items or after the last) parses to [Response] with
    each letter, in order.  The second part is the text of the test suite. *)
Theorem parseRanking_bare_list :
  (forall (prose : jstr) (items : list bare_item) (trailer : jstr),
     includes prose marker = false ->
     items <> [] ->
     bare_ok items trailer = true ->
     parseRanking (prose ++ marker ++ bare_list items ++ trailer)
     = map (fun it => label_of (bletter it)) items)
  /\ parseRanking
       (u "Some evaluation..." ++ nl ++ nl ++ u "FINAL RANKING:" ++ nl
          ++ u "1. B" ++ nl ++ u "2. A" ++ nl ++ u "3. C" ++ nl)
     = [u "Response B"; u "Response A"; u "Response C"].
Proof.
  split; [|vm_compute; reflexivity].
  intros prose items trailer Hprose Hne Hok.
  unfold parseRanking, indexOf.
  rewrite indexOf_from_marker by assumption.
  destruct (Z.eqb_spec (0 + Z.of_nat (length prose)) (-1)) as [E|_]; [lia|].
  rewrite Z.add_0_l, slice_app.
  destruct items as [|it items]; [congruence|].
  rewrite headered_bare_list by assumption.
  now apply map_bare_label with (trailer := trailer).
Qed.

(** The theorem on a list whose items end with a comma, a period and the
    end of the text, after prose that mentions a response. *)
Lemma parseRanking_bare_list_witness :
  parseRanking
    (u "Response A is fine." ++ nl ++ marker
       ++ bare_list
            [ {| bsep := nl; bord := u "1"; bgap := u " "; bletter := 67%N;
                 bend := u "," |};
              {| bsep := u " "; bord := u "2"; bgap := []; bletter := 65%N;
                 bend := u "." |};
              {| bsep := nl; bord := u "10"; bgap := u "  "; bletter := 66%N;
                 bend := [] |} ]
       ++ [])
  = [label_of 67%N; label_of 65%N; label_of 66%N].
Proof.
  apply (proj1 parseRanking_bare_list
           (u "Response A is fine." ++ nl)
           [ {| bsep := nl; bord := u "1"; bgap := u " "; bletter := 67%N;
                bend := u "," |};
             {| bsep := u " "; bord := u "2"; bgap := []; bletter := 65%N;
                bend := u "." |};
             {| bsep := nl; bord := u "10"; bgap := u "  "; bletter := 66%N;
                bend := [] |} ]
           []).
  - vm_compute; reflexivity.
  - discriminate.
  - vm_compute; reflexivity.
Defined.

(** ** Past the twenty-sixth response *)

Lemma label_at_plain i :
  (N.of_nat i < 65471)%N -> label_at i = label_of (65 + N.of_nat i)%N.
Proof.
  intros H. unfold label_at, label_of. rewrite N.mod_small by lia. reflexivity.
Qed.

Lemma label_at_inj_wide i j :
  (N.of_nat i < 65471)%N -> (N.of_nat j < 65471)%N ->
  label_at i = label_at j -> i = j.
Proof.
  intros Hi Hj E. rewrite !label_at_plain in E by assumption.
  unfold label_of in E. apply app_inv_head in E.
  assert (F : (65 + N.of_nat i = 65 + N.of_nat j)%N) by congruence. lia.
Qed.

Lemma label_at_late i c :
  26 <= i -> (N.of_nat i < 65536)%N ->
  is_upper c = true -> label_at i <> label_of c.
Proof.
  intros Hi Hi' Hc E. unfold label_at, label_of in E. apply app_inv_head in E.
  apply is_upper_range in Hc.
  assert (F : ((65 + N.of_nat i) mod 65536 = c)%N) by congruence.
  destruct (N.lt_ge_cases (N.of_nat i) 65471) as [Hs|Hs].
  - rewrite N.mod_small in F by lia. lia.
  - assert (G : (65 + N.of_nat i - 65536 = (65 + N.of_nat i) mod 65536)%N).
    { apply (N.mod_unique _ _ 1); lia. }
    lia.
Qed.

Lemma anonymize_from_wide : forall stage1 i labelToModel,
  (N.of_nat (i + length stage1) <= 65471)%N ->
  (forall j, i <= j -> (N.of_nat j < 65471)%N ->
     get_own labelToModel (label_at j) = None) ->
  anonymize_from i stage1 labelToModel
  = (combine (map label_at (seq i (length stage1))) (map s1_response stage1),
     labelToModel
       ++ combine (map label_at (seq i (length stage1))) (map s1_model stage1)).
Proof.
  intros stage1.
  induction stage1 as [|entry rest IH]; intros i labelToModel Hn Hfree.
  - simpl. now rewrite app_nil_r.
  - simpl length in *. cbn [anonymize_from].
    rewrite set_own_new by (apply Hfree; lia).
    rewrite IH.
    + cbn [seq map combine]. rewrite <- app_assoc. reflexivity.
    + lia.
    + intros j Hj Hj'. rewrite get_own_app, (Hfree j) by lia. cbn [get_own].
      destruct (str_eqb (label_at i) (label_at j)) eqn:E; [|reflexivity].
      apply str_eqb_eq, label_at_inj_wide in E; lia.
Qed.

Lemma some_eq A (x y : A) : Some x = Some y -> x = y.
Proof. congruence. Qed.

Lemma get_own_combine V : forall (ks : list jstr) (vs : list V) key v,
  get_own (combine ks vs) key = Some v ->
  exists k, nth_error ks k = Some key /\ nth_error vs k = Some v.
Proof.
  induction ks as [|k0 ks IH]; intros vs key v H; [discriminate|].
  destruct vs as [|v0 vs]; [discriminate|].
  cbn [combine get_own] in H.
  destruct (str_eqb k0 key) eqn:E.
  - apply str_eqb_eq in E. subst. injection H as ->. now exists 0.
  - destruct (IH _ _ _ H) as (k & Hk & Hv). now exists (S k).
Qed.

Lemma ranked_from_label labelToModel rs m :
  In m (ranked_models labelToModel rs) ->
  exists r label, In r rs /\ In label (parsed_ranking r)
    /\ truthy_model labelToModel label = Some m.
Proof.
  unfold ranked_models. intros H.
  apply (proj1 (keep_firsts_In _ _)) in H.
  apply in_flat_map in H as (r & Hr & H). exists r.
  unfold resolved in H. apply in_flat_map in H as (label & Hl & H).
  exists label. repeat split; auto.
  destruct (truthy_model labelToModel label); [|contradiction].
  destruct H as [->|[]]. reflexivity.
Qed.

Lemma aggregate_models rankings labelToModel out :
  calculateAggregateRankings rankings labelToModel = Returns out ->
  forall a, In a out -> In (ag_model a) (ranked_models labelToModel rankings).
Proof.
  intros H a Ha.
  destruct (clean (filed labelToModel rankings)) eqn:C.
  - rewrite (calculate_returns _ _ C) in H. injection H as <-.
    apply (Permutation_in _ (sort_perm average_rank _)) in Ha.
    apply in_map_iff in Ha as (m & <- & Hm). cbn [entry_of ag_model].
    now apply (Permutation_in _ (key_order_perm _)) in Hm.
  - rewrite (calculate_throws _ _ C) in H. discriminate.
Qed.

(** X4.  The parser never returns the label of a response past the
    twenty-sixth: [String.fromCharCode(65 + i)] is no capital letter for
    [i] from 26 on.  So, however the evaluators answer, the models the
    aggregate lists are among those of the first 26 Stage 1 entries; a later
    response is sent out for evaluation and can never be ranked. *)
Theorem late_responses_never_ranked :
  (forall (text : jstr) (i : nat),
     26 <= i -> (N.of_nat i < 65536)%N ->
     ~ In (label_at i) (parseRanking text))
  /\ (forall (stage1 : list Stage1Entry) (answers : list (jstr * jstr))
             (out : list AggregateRanking),
        (N.of_nat (length stage1) <= 65471)%N ->
        calculateAggregateRankings (map entry2 answers) (snd (anonymize stage1))
        = Returns out ->
        forall a, In a out ->
          In (ag_model a) (map s1_model (firstn 26 stage1))).
Proof.
  split.
  - intros text i Hi Hi' H. pose proof (parseRanking_full text) as F.
    rewrite Forall_forall in F. destruct (F _ H) as (c & E & Hc).
    now apply (label_at_late Hi Hi' Hc).
  - intros stage1 answers out Hn H a Ha.
    pose proof (aggregate_models _ _ H a Ha) as Hm.
    apply ranked_from_label in Hm as (r & label & Hr & Hl & T).
    apply in_map_iff in Hr as (ans & <- & _). cbn [entry2 parsed_ranking] in Hl.
    pose proof (parseRanking_full (snd ans)) as F.
    rewrite Forall_forall in F. destruct (F _ Hl) as (c & -> & Hc).
    unfold anonymize in T. rewrite anonymize_from_wide in T;
      [|simpl; lia | reflexivity].
    cbn [snd app] in T. unfold truthy_model in T.
    destruct (get_own _ (label_of c)) as [model|] eqn:G.
    + apply get_own_combine in G as (k & Hk & Hv).
      assert (Hlt : k < length stage1).
      { assert (Hk' : nth_error (map label_at (seq 0 (length stage1))) k <> None)
          by congruence.
        apply nth_error_Some in Hk'. now rewrite length_map, length_seq in Hk'. }
      rewrite nth_error_map, nth_error_seq in Hk.
      destruct (Nat.ltb_spec k (length stage1)); [|lia].
      cbn [option_map Nat.add] in Hk. apply some_eq in Hk.
      assert (K : k < 26).
      { destruct (Nat.lt_ge_cases k 26) as [?|Hge]; [assumption|].
        exfalso. apply (@label_at_late k c); [lia | lia | exact Hc | exact Hk]. }
      assert (M : model = ag_model a) by (destruct model; congruence).
      rewrite <- M. apply nth_error_In with (n := k).
      rewrite <- firstn_map, nth_error_firstn.
      destruct (Nat.ltb_spec k 26); [exact Hv | lia].
    + unfold label_of in T. rewrite inherited_label in T. discriminate.
Qed.

(** The theorem on twenty-seven entries and an evaluation that ranks the
    first and names the label of the last. *)
Lemma late_responses_never_ranked_witness :
  forallb (fun a => mem (ag_model a)
                        (map s1_model
                           (firstn 26
                              (map (fun i => {| s1_model := [N.of_nat i];
                                                s1_response := [] |})
                                   (seq 0 27)))))
          [ {| ag_model := [0%N]; average_rank := 100; rankings_count := 1 |} ]
  = true.
Proof.
  apply forallb_forall. intros a Ha. apply mem_In.
  apply (proj2 late_responses_never_ranked
           (map (fun i => {| s1_model := [N.of_nat i]; s1_response := [] |})
                (seq 0 27))
           [(u "judge", u "1. Response A 2. Response [")]
           [ {| ag_model := [0%N]; average_rank := 100; rankings_count := 1 |} ]).
  - vm_compute. discriminate.
  - vm_compute. reflexivity.
  - exact Ha.
Defined.

(** * More on [calculateAggregateRankings] *)

Lemma forallb_false A (p : A -> bool) (l : list A) :
  forallb p l = false <-> exists x, In x l /\ p x = false.
Proof.
  induction l as [|y l IH]; simpl.
  - split; [discriminate | intros (x & [] & _)].
  - rewrite andb_false_iff, IH. split.
    + intros [H|(x & Hx & H)]; [exists y; auto | exists x; auto].
    + intros (x & [->|Hx] & H); [now left | right; now exists x].
Qed.

Lemma calculate_cases rankings labelToModel :
  (clean (filed labelToModel rankings) = true
   /\ calculateAggregateRankings rankings labelToModel
      = Returns (sort by_average
                   (map (entry_of labelToModel rankings)
                        (key_order (ranked_models labelToModel rankings)))))
  \/ (clean (filed labelToModel rankings) = false
      /\ calculateAggregateRankings rankings labelToModel
         = Throws push_type_error).
Proof.
  destruct (clean (filed labelToModel rankings)) eqn:C.
  - left. split; [reflexivity | now apply calculate_returns].
  - right. split; [reflexivity | now apply calculate_throws].
Qed.

(** X5.  [calculateAggregateRankings] throws exactly when some model that
    receives a rank is named like a property of [Object.prototype]
    ([constructor], [toString], [__proto__], ...): reading
    [modelRanks[model]] then finds the inherited value, which has no [push].
    What it throws is always the same [TypeError]; in every other case it
    returns. *)
Theorem aggregate_throws_iff (rankings : list Stage2Ranking)
  (labelToModel : obj jstr) :
  ((exists err, calculateAggregateRankings rankings labelToModel = Throws err)
   <-> (exists m, In m (ranked_models labelToModel rankings)
                  /\ inherited m = true))
  /\ (forall err,
        calculateAggregateRankings rankings labelToModel = Throws err ->
        err = push_type_error)
  /\ ((exists out, calculateAggregateRankings rankings labelToModel = Returns out)
      <-> (forall m, In m (ranked_models labelToModel rankings) ->
                     inherited m = false)).
Proof.
  pose proof (clean_models labelToModel rankings) as CM.
  destruct (calculate_cases rankings labelToModel) as [[C E]|[C E]];
    rewrite E; rewrite C in CM; symmetry in CM.
  - rewrite forallb_forall in CM.
    split; [split|split].
    + intros (err & H). discriminate.
    + intros (m & Hm & Hi). specialize (CM _ Hm). rewrite Hi in CM. discriminate.
    + intros err H. discriminate.
    + split; [|intros _; eexists; reflexivity].
      intros _ m Hm. specialize (CM _ Hm). now apply negb_true_iff in CM.
  - apply forallb_false in CM as (m & Hm & Hi). apply negb_false_iff in Hi.
    split; [split|split].
    + intros _. now exists m.
    + intros _. eexists; reflexivity.
    + intros err H. congruence.
    + split; [intros (out & H); discriminate|].
      intros H. specialize (H _ Hm). congruence.
Qed.

(** ** Labels that resolve to nothing *)

Lemma keep_firsts_nil l : keep_firsts l = [] -> l = [].
Proof. destruct l; [reflexivity | discriminate]. Qed.

Lemma flat_map_nil A B (f : A -> list B) (l : list A) :
  flat_map f l = [] <-> forall x, In x l -> f x = [].
Proof.
  induction l as [|y l IH]; simpl.
  - split; [intros _ x [] | reflexivity].
  - split.
    + intros H. apply app_eq_nil in H as [H1 H2].
      intros x [->|Hx]; [exact H1 | now apply IH].
    + intros H. rewrite (H y) by now left. simpl. apply IH.
      intros x Hx. apply H. now right.
Qed.

Lemma counted_nil labelToModel rankings :
  counted labelToModel rankings = [] <->
  (forall r label, In r rankings -> In label (parsed_ranking r) ->
     truthy_model labelToModel label = None).
Proof.
  unfold counted. rewrite flat_map_nil. split.
  - intros H r label Hr Hl. specialize (H _ Hr). unfold resolved in H.
    rewrite flat_map_nil in H. specialize (H _ Hl).
    destruct (truthy_model labelToModel label); [discriminate | reflexivity].
  - intros H r Hr. unfold resolved. apply flat_map_nil. intros label Hl.
    now rewrite (H _ _ Hr Hl).
Qed.

Lemma sort_nil A (cmp : A -> A -> Z) l : sort cmp l = [] -> l = [].
Proof.
  destruct l as [|x l]; [reflexivity|]. simpl.
  destruct (sort cmp l) as [|y t]; simpl; [discriminate|].
  destruct (0 <? cmp x y)%Z; discriminate.
Qed.

(** X6.  The output is empty exactly when no label of any evaluation
    resolves to a model: the call with no evaluations, with evaluations
    whose parse is empty, or with labels that [labelToModel] does not hold
    (or holds with an empty model name) returns [[]], and does not throw. *)
Theorem aggregate_empty_iff (rankings : list Stage2Ranking)
  (labelToModel : obj jstr) :
  (calculateAggregateRankings rankings labelToModel = Returns []
   <-> (forall r label, In r rankings -> In label (parsed_ranking r) ->
          truthy_model labelToModel label = None))
  /\ calculateAggregateRankings [] labelToModel = Returns []
  /\ (forall label, inherited label = false ->
        truthy_model [] label = None).
Proof.
  split; [|split].
  - rewrite <- counted_nil. split.
    + intros H.
      destruct (calculate_cases rankings labelToModel) as [[C E]|[C E]];
        rewrite E in H; [|discriminate].
      injection H as H. apply sort_nil, map_eq_nil in H.
      assert (P := key_order_perm (ranked_models labelToModel rankings)).
      rewrite H in P. apply Permutation_nil in P.
      now apply keep_firsts_nil in P.
    + intros H.
      assert (R : ranked_models labelToModel rankings = []).
      { unfold ranked_models. fold (counted labelToModel rankings).
        now rewrite H. }
      rewrite calculate_returns by (rewrite clean_models, R; reflexivity).
      rewrite R. reflexivity.
  - reflexivity.
  - intros label H. unfold truthy_model. simpl. now rewrite H.
Qed.

(** ** Every rank is counted once *)

Lemma list_sum_perm l l' : Permutation l l' -> list_sum l = list_sum l'.
Proof.
  induction 1; simpl; lia.
Qed.

Lemma ranks_in_cons m r evs k :
  length (ranks_in ((m, r) :: evs) k)
  = (if str_eqb m k then 1 else 0) + length (ranks_in evs k).
Proof.
  unfold ranks_in. simpl. destruct (str_eqb m k); reflexivity.
Qed.

Lemma indicator_sum m : forall keys,
  NoDup keys ->
  list_sum (map (fun k => if str_eqb m k then 1 else 0) keys)
  = if mem m keys then 1 else 0.
Proof.
  induction keys as [|k keys IH]; intros H; [reflexivity|].
  inversion H as [|? ? Hk Hn]; subst. simpl. rewrite (IH Hn).
  unfold mem. simpl.
  destruct (str_eqb m k) eqn:E; [|reflexivity].
  apply str_eqb_eq in E. subst k.
  apply mem_false in Hk. unfold mem in Hk. now rewrite Hk.
Qed.

Lemma list_sum_add A (f g : A -> nat) l :
  list_sum (map (fun x => f x + g x) l)
  = list_sum (map f l) + list_sum (map g l).
Proof. induction l; simpl; lia. Qed.

Lemma ranks_total keys : forall evs,
  NoDup keys -> (forall e, In e evs -> In (fst e) keys) ->
  list_sum (map (fun k => length (ranks_in evs k)) keys) = length evs.
Proof.
  induction evs as [|[m r] evs IH]; intros Hn Hin.
  - unfold ranks_in. simpl. induction keys; simpl; auto.
    apply IHkeys; [now inversion Hn | intros e []].
  - rewrite (map_ext _ (fun k => (if str_eqb m k then 1 else 0)
                                  + length (ranks_in evs k)))
      by (intros k; apply ranks_in_cons).
    rewrite list_sum_add, indicator_sum by assumption.
    rewrite IH; [|assumption | intros e He; apply Hin; now right].
    assert (M : mem m keys = true)
      by (apply mem_In; apply (Hin (m, r)); now left).
    rewrite M. reflexivity.
Qed.

Lemma counts_sum labelToModel rankings :
  list_sum (map (fun m => length (ranks_of labelToModel rankings m))
                (ranked_models labelToModel rankings))
  = length (counted labelToModel rankings).
Proof.
  rewrite (map_ext _ (fun m => length (ranks_in (filed labelToModel rankings) m)))
    by (intros m; now rewrite filed_ranks).
  unfold ranked_models, counted. rewrite <- filed_models.
  rewrite ranks_total; [now rewrite length_map | apply keep_firsts_NoDup |].
  intros e He. apply keep_firsts_In. now apply in_map.
Qed.

Lemma resolved_length labelToModel labels :
  length (resolved labelToModel labels) <= length labels.
Proof.
  induction labels as [|l labels IH]; simpl; [lia|].
  rewrite length_app. destruct (truthy_model labelToModel l); simpl; lia.
Qed.

Lemma aggregate_perm rankings labelToModel out :
  calculateAggregateRankings rankings labelToModel = Returns out ->
  Permutation out (map (entry_of labelToModel rankings)
                       (ranked_models labelToModel rankings)).
Proof.
  intros H.
  destruct (calculate_cases rankings labelToModel) as [[C E]|[C E]];
    rewrite E in H; [|discriminate].
  injection H as <-. rewrite (sort_perm average_rank).
  apply Permutation_map, key_order_perm.
Qed.

(** X7.  Whenever the call returns, the [rankings_count] fields add up to
    the number of label occurrences that resolve to a model: each such
    occurrence is counted once, for one model, and nothing else is counted;
    so the total never exceeds the number of labels in the evaluations. *)
Theorem aggregate_counts_every_rank_once (rankings : list Stage2Ranking)
  (labelToModel : obj jstr) (out : list AggregateRanking) :
  calculateAggregateRankings rankings labelToModel = Returns out ->
  list_sum (map rankings_count out) = length (counted labelToModel rankings)
  /\ list_sum (map rankings_count out)
     <= list_sum (map (fun r => length (parsed_ranking r)) rankings).
Proof.
  intros H. apply aggregate_perm in H.
  assert (E : list_sum (map rankings_count out)
              = length (counted labelToModel rankings)).
  { rewrite (list_sum_perm (Permutation_map rankings_count H)).
    rewrite map_map. cbn [entry_of rankings_count]. apply counts_sum. }
  split; [exact E|]. rewrite E. unfold counted.
  rewrite length_flat_map. clear H E.
  induction rankings as [|r rs IH]; simpl; [lia|].
  pose proof (resolved_length labelToModel (parsed_ranking r)). lia.
Qed.

(** The theorem on two evaluations of two labels, the second of which names
    a label the mapping does not hold. *)
Lemma aggregate_counts_every_rank_once_witness :
  list_sum
    (map rankings_count
       [ {| ag_model := u "m1"; average_rank := 150; rankings_count := 2 |};
         {| ag_model := u "m2"; average_rank := 200; rankings_count := 1 |} ])
  = length (counted two_labels
              [ ranking_of [u "Response A"; u "Response B"];
                ranking_of [u "Response Z"; u "Response A"] ])
  /\ list_sum
       (map rankings_count
          [ {| ag_model := u "m1"; average_rank := 150; rankings_count := 2 |};
            {| ag_model := u "m2"; average_rank := 200; rankings_count := 1 |} ])
     <= list_sum
          (map (fun r => length (parsed_ranking r))
               [ ranking_of [u "Response A"; u "Response B"];
                 ranking_of [u "Response Z"; u "Response A"] ]).
Proof.
  apply (@aggregate_counts_every_rank_once
           [ ranking_of [u "Response A"; u "Response B"];
             ranking_of [u "Response Z"; u "Response A"] ]
           two_labels).
  vm_compute. reflexivity.
Defined.

(** ** The order of the evaluations *)

Lemma fold_add_sum l : forall a, fold_left Z.add l a = (a + fold_left Z.add l 0)%Z.
Proof.
  induction l as [|x l IH]; intros a; simpl; [lia|].
  rewrite (IH (a + x)%Z), (IH x). lia.
Qed.

Lemma sum_ranks_perm l l' : Permutation l l' -> sum_ranks l = sum_ranks l'.
Proof.
  unfold sum_ranks. induction 1; simpl.
  - reflexivity.
  - rewrite (fold_add_sum l), (fold_add_sum l'). lia.
  - f_equal. lia.
  - congruence.
Qed.

Lemma average_perm l l' :
  Permutation l l' -> average_hundredths l = average_hundredths l'.
Proof.
  intros P. unfold average_hundredths.
  now rewrite (sum_ranks_perm P), (Permutation_length P).
Qed.

Lemma flat_map_perm A B (f : A -> list B) l l' :
  Permutation l l' -> Permutation (flat_map f l) (flat_map f l').
Proof.
  induction 1; simpl.
  - constructor.
  - now apply Permutation_app_head.
  - rewrite !app_assoc. apply Permutation_app_tail, Permutation_app_comm.
  - eapply Permutation_trans; eassumption.
Qed.

Lemma entry_perm labelToModel rs rs' m :
  Permutation rs rs' ->
  entry_of labelToModel rs m = entry_of labelToModel rs' m.
Proof.
  intros P. unfold entry_of.
  assert (Q : Permutation (ranks_of labelToModel rs m)
                          (ranks_of labelToModel rs' m))
    by (unfold ranks_of; now apply flat_map_perm).
  now rewrite (average_perm Q), (Permutation_length Q).
Qed.

Lemma ranked_perm labelToModel rs rs' :
  Permutation rs rs' ->
  Permutation (ranked_models labelToModel rs) (ranked_models labelToModel rs').
Proof.
  intros P. apply NoDup_Permutation; try apply keep_firsts_NoDup.
  intros m. unfold ranked_models. rewrite !keep_firsts_In.
  split; apply Permutation_in; [|apply Permutation_sym];
    now apply flat_map_perm.
Qed.

(** X8.  The order in which the evaluations are given does not matter,
    except for the order of entries of equal average: two calls on the same
    evaluations in different orders both throw the same error, or return the
    same entries (same models, same [average_rank], same [rankings_count])
    in orders that may differ. *)
Theorem aggregate_ignores_evaluation_order
  (rankings rankings' : list Stage2Ranking) (labelToModel : obj jstr) :
  Permutation rankings rankings' ->
  same_entries (calculateAggregateRankings rankings labelToModel)
               (calculateAggregateRankings rankings' labelToModel).
Proof.
  intros P.
  assert (C : clean (filed labelToModel rankings)
              = clean (filed labelToModel rankings')).
  { rewrite !clean_models. apply forallb_same. intros m.
    split; apply Permutation_in; [|apply Permutation_sym];
      now apply ranked_perm. }
  destruct (calculate_cases rankings labelToModel) as [[C1 E1]|[C1 E1]];
    destruct (calculate_cases rankings' labelToModel) as [[C2 E2]|[C2 E2]];
    try congruence; rewrite E1, E2; [|reflexivity].
  unfold same_entries.
  rewrite !(sort_perm average_rank).
  rewrite (map_ext _ _ (fun m => entry_perm labelToModel m P)).
  apply Permutation_map.
  rewrite (key_order_perm (ranked_models labelToModel rankings)).
  rewrite (key_order_perm (ranked_models labelToModel rankings')).
  now apply ranked_perm.
Qed.

(** The theorem on Scenario C and its evaluations in reverse order. *)
Lemma aggregate_ignores_evaluation_order_witness :
  same_entries
    (calculateAggregateRankings
       [ ranking_of [u "Response B"; u "Response A"];
         ranking_of [u "Response A"] ]
       two_labels)
    (calculateAggregateRankings
       [ ranking_of [u "Response A"];
         ranking_of [u "Response B"; u "Response A"] ]
       two_labels).
Proof.
  apply (@aggregate_ignores_evaluation_order
           [ ranking_of [u "Response B"; u "Response A"];
             ranking_of [u "Response A"] ]
           [ ranking_of [u "Response A"];
             ranking_of [u "Response B"; u "Response A"] ]
           two_labels).
  apply perm_swap.
Defined.

(** ** How many ranks a model can get *)

Lemma ranks_in_count evs m :
  length (ranks_in evs m) = length (filter (fun k => str_eqb k m) (map fst evs)).
Proof.
  unfold ranks_in. rewrite length_map.
  induction evs as [|e evs IH]; simpl; [reflexivity|].
  destruct (str_eqb (fst e) m); simpl; now rewrite IH.
Qed.

Lemma filter_app_length A (p : A -> bool) l l' :
  length (filter p (l ++ l')) = length (filter p l) + length (filter p l').
Proof. now rewrite filter_app, length_app. Qed.

Lemma NoDup_count m : forall l,
  NoDup l -> length (filter (fun k => str_eqb k m) l) <= 1.
Proof.
  induction l as [|x l IH]; intros H; simpl; [lia|].
  inversion H as [|? ? Hx Hn]; subst.
  destruct (str_eqb x m) eqn:E; [|now apply IH].
  apply str_eqb_eq in E. subst. simpl.
  assert (F : filter (fun k => str_eqb k m) l = []).
  { clear IH H Hn. induction l as [|y l IHl]; simpl; [reflexivity|].
    destruct (str_eqb y m) eqn:E.
    - apply str_eqb_eq in E. subst. exfalso. apply Hx. now left.
    - apply IHl. intros H. apply Hx. now right. }
  rewrite F. simpl. lia.
Qed.

Lemma ranks_of_bound labelToModel m : forall rs,
  (forall r, In r rs -> NoDup (resolved labelToModel (parsed_ranking r))) ->
  length (ranks_of labelToModel rs m) <= length rs.
Proof.
  intros rs H. rewrite <- filed_ranks, ranks_in_count, filed_models.
  induction rs as [|r rs IH]; simpl; [lia|].
  rewrite filter_app_length.
  pose proof (@NoDup_count m _ (H r (or_introl eq_refl))).
  assert (length (filter (fun k => str_eqb k m)
                    (flat_map (fun r0 => resolved labelToModel (parsed_ranking r0))
                       rs)) <= length rs)
    by (apply IH; intros r' Hr'; apply H; now right).
  lia.
Qed.

(** X9.  When no evaluation reaches the same model twice (no label is
    repeated in a parse and no two of its labels share a model), every
    entry of the output has a [rankings_count] of at least one and at most
    the number of evaluations. *)
Theorem aggregate_count_bounds (rankings : list Stage2Ranking)
  (labelToModel : obj jstr) (out : list AggregateRanking) :
  (forall r, In r rankings ->
     NoDup (resolved labelToModel (parsed_ranking r))) ->
  calculateAggregateRankings rankings labelToModel = Returns out ->
  forall a, In a out -> 1 <= rankings_count a <= length rankings.
Proof.
  intros Hn H a Ha. apply aggregate_perm in H.
  apply (Permutation_in _ H) in Ha.
  apply in_map_iff in Ha as (m & <- & Hm). cbn [entry_of rankings_count].
  split; [|now apply ranks_of_bound].
  assert (Hr : ranks_of labelToModel rankings m <> []).
  { rewrite <- filed_ranks. apply ranks_in_present.
    rewrite filed_models. now apply (proj1 (keep_firsts_In _ _)). }
  destruct (ranks_of labelToModel rankings m); [congruence | simpl; lia].
Qed.

(** The theorem on two evaluations that each rank two models once. *)
Lemma aggregate_count_bounds_witness :
  Forall (fun a => 1 <= rankings_count a <= length tied_rankings)
    [ {| ag_model := u "m1"; average_rank := 150; rankings_count := 2 |};
      {| ag_model := u "m2"; average_rank := 150; rankings_count := 2 |} ].
Proof.
  apply Forall_forall.
  apply (@aggregate_count_bounds tied_rankings two_labels).
  - intros r Hr. assert (E : resolved two_labels (parsed_ranking r)
                             = [u "m1"; u "m2"]
                             \/ resolved two_labels (parsed_ranking r)
                                = [u "m2"; u "m1"]).
    { destruct Hr as [<-|[<-|[]]]; [left | right]; reflexivity. }
    destruct E as [-> | ->];
      (apply NoDup_cons;
       [simpl; intros [F|[]]; discriminate F
       |apply NoDup_cons; [intros [] | apply NoDup_nil]]).
  - vm_compute. reflexivity.
Defined.

(** * The prompts *)

Lemma part_refl s : part s s.
Proof. exists [], []. now rewrite app_nil_r. Qed.

Lemma part_trans p q s : part p q -> part q s -> part p s.
Proof.
  intros (a & b & ->) (c & d & ->). exists (c ++ a), (b ++ d).
  now rewrite <- !app_assoc.
Qed.

Lemma part_app_l p a s : part p s -> part p (a ++ s).
Proof.
  intros (c & d & ->). exists (a ++ c), d. now rewrite <- app_assoc.
Qed.

Lemma part_app_r p s b : part p s -> part p (s ++ b).
Proof.
  intros (c & d & ->). exists c, (d ++ b). now rewrite <- !app_assoc.
Qed.

Lemma part_join sep x : forall l, In x l -> part x (join sep l).
Proof.
  induction l as [|y l IH]; intros H; [destruct H|].
  destruct l as [|z l].
  - destruct H as [->|[]]. apply part_refl.
  - change (join sep (y :: z :: l)) with (y ++ sep ++ join sep (z :: l)).
    destruct H as [->|H].
    + apply part_app_r, part_refl.
    + apply part_app_l, part_app_l, IH, H.
Qed.

Lemma indexOf_from_here s p i : starts_with p s = true -> indexOf_from s p i = i.
Proof. intros H. destruct s; simpl; now rewrite H. Qed.

Lemma includes_head p b : includes (p ++ b) p = true.
Proof.
  unfold includes, indexOf.
  now rewrite indexOf_from_here by apply starts_with_app.
Qed.

Lemma part_includes p s : part p s -> includes s p = true.
Proof.
  intros (a & b & ->). induction a as [|c a IH]; [apply (includes_head p b)|].
  unfold includes, indexOf in *. change ((c :: a) ++ p ++ b) with (c :: a ++ p ++ b).
  rewrite indexOf_from_cons.
  destruct (starts_with p (c :: a ++ p ++ b)); [reflexivity|].
  rewrite indexOf_from_shift by lia.
  destruct (Z.eqb (indexOf_from (a ++ p ++ b) p 0) (-1)) eqn:E;
    [discriminate IH|].
  destruct (@indexOf_from_range p (a ++ p ++ b) 0%Z ltac:(lia)) as [F|F].
  - rewrite F in E. discriminate.
  - apply negb_true_iff, Z.eqb_neq. lia.
Qed.

Lemma holds_mention_part text :
  holds_mention text <-> exists c, is_upper c = true /\ part (label_of c) text.
Proof.
  split.
  - intros (before & c & after & -> & Hc). exists c. split; [assumption|].
    now exists before, after.
  - intros (c & Hc & before & after & ->). now exists before, c, after.
Qed.

(** The labelled texts are made from the responses alone. *)
Lemma anonymize_from_fst : forall stage1 i labelToModel,
  fst (anonymize_from i stage1 labelToModel)
  = combine (map label_at (seq i (length stage1))) (map s1_response stage1).
Proof.
  intros stage1.
  induction stage1 as [|entry rest IH]; intros i labelToModel; [reflexivity|].
  cbn [anonymize_from].
  specialize (IH (S i) (set_own labelToModel (label_at i) (s1_model entry))).
  destruct (anonymize_from (S i) rest _) as [anonymized l2m].
  cbn [fst] in *. cbn [length seq map combine]. now rewrite IH.
Qed.

Lemma combine_fst A B : forall (l : list A) (l' : list B),
  length l = length l' -> map fst (combine l l') = l.
Proof.
  induction l as [|x l IH]; intros [|y l'] H; try discriminate; [reflexivity|].
  simpl. f_equal. apply IH. now injection H.
Qed.

(** X10.  The ranking prompt does not depend on which model wrote which
    response: two Stage 1 results with the same response texts in the same
    order, whatever their model names, give the same labelled texts and the
    same prompt, and the labels are those of the positions. *)
Theorem ranking_prompt_hides_models
  (query : jstr) (stage1 stage1' : list Stage1Entry) :
  map s1_response stage1 = map s1_response stage1' ->
  fst (anonymize stage1) = fst (anonymize stage1')
  /\ buildRankingPrompt query (fst (anonymize stage1))
     = buildRankingPrompt query (fst (anonymize stage1'))
  /\ map fst (fst (anonymize stage1))
     = map label_at (seq 0 (length stage1)).
Proof.
  intros H.
  assert (L : length stage1 = length stage1').
  { apply (f_equal (@length jstr)) in H. now rewrite !length_map in H. }
  assert (E : fst (anonymize stage1) = fst (anonymize stage1')).
  { unfold anonymize. rewrite !anonymize_from_fst. now rewrite H, L. }
  split; [exact E|]. split; [now rewrite E|].
  unfold anonymize. rewrite anonymize_from_fst.
  rewrite combine_fst; [reflexivity|].
  now rewrite !length_map, length_seq.
Qed.

(** The theorem on the same two responses under different model names. *)
Lemma ranking_prompt_hides_models_witness :
  fst (anonymize [ {| s1_model := u "model-a"; s1_response := u "one" |};
                   {| s1_model := u "model-b"; s1_response := u "two" |} ])
  = fst (anonymize [ {| s1_model := u "model-c"; s1_response := u "one" |};
                     {| s1_model := u "model-c"; s1_response := u "two" |} ])
  /\ buildRankingPrompt (u "hello")
       (fst (anonymize [ {| s1_model := u "model-a"; s1_response := u "one" |};
                         {| s1_model := u "model-b"; s1_response := u "two" |} ]))
     = buildRankingPrompt (u "hello")
         (fst (anonymize [ {| s1_model := u "model-c"; s1_response := u "one" |};
                           {| s1_model := u "model-c"; s1_response := u "two" |} ]))
  /\ map fst
       (fst (anonymize [ {| s1_model := u "model-a"; s1_response := u "one" |};
                         {| s1_model := u "model-b"; s1_response := u "two" |} ]))
     = map label_at (seq 0 2).
Proof.
  apply (@ranking_prompt_hides_models (u "hello")
           [ {| s1_model := u "model-a"; s1_response := u "one" |};
             {| s1_model := u "model-b"; s1_response := u "two" |} ]
           [ {| s1_model := u "model-c"; s1_response := u "one" |};
             {| s1_model := u "model-c"; s1_response := u "two" |} ]).
  reflexivity.
Defined.

Lemma ranking_prompt_parts query responses :
  part (u "Question: " ++ query) (buildRankingPrompt query responses)
  /\ part (join (nl ++ nl)
             (map (fun r => fst r ++ u ":" ++ nl ++ snd r) responses))
          (buildRankingPrompt query responses)
  /\ part (u "1. Response A") (buildRankingPrompt query responses).
Proof.
  unfold buildRankingPrompt. repeat split.
  - apply part_join. do 2 right. left. reflexivity.
  - apply part_join. do 6 right. left. reflexivity.
  - eapply part_trans; [|apply part_join; do 15 right; left; reflexivity].
    apply part_app_l, part_app_l, part_app_r, part_refl.
Qed.

Lemma chairman_prompt_parts query stage1 stage2 :
  part (u "Original Question: " ++ query)
       (buildChairmanPrompt query stage1 stage2)
  /\ part (join (nl ++ nl)
             (map (fun r => u "Model: " ++ s1_model r ++ nl
                            ++ u "Response: " ++ s1_response r) stage1))
          (buildChairmanPrompt query stage1 stage2)
  /\ part (join (nl ++ nl)
             (map (fun r => u "Model: " ++ s2_model r ++ nl
                            ++ u "Ranking: " ++ evaluation r) stage2))
          (buildChairmanPrompt query stage1 stage2).
Proof.
  unfold buildChairmanPrompt. repeat split.
  - apply part_join. do 2 right. left. reflexivity.
  - apply part_join. do 5 right. left. reflexivity.
  - apply part_join. do 8 right. left. reflexivity.
Qed.

(** X11.  Nothing is left out of a prompt.  The ranking prompt holds the
    question and, for every labelled response, its label, a colon, a line
    feed and its full text; the chairman prompt holds the question, every
    Stage 1 model with its full response, and every evaluator with its full
    evaluation. *)
Theorem prompts_hold_every_text :
  (forall (query : jstr) (responses : list (jstr * jstr)),
     includes (buildRankingPrompt query responses) (u "Question: " ++ query)
     = true
     /\ (forall label text, In (label, text) responses ->
           includes (buildRankingPrompt query responses)
                    (label ++ u ":" ++ nl ++ text) = true))
  /\ (forall (query : jstr) (stage1 : list Stage1Entry)
             (stage2 : list Stage2Ranking),
        includes (buildChairmanPrompt query stage1 stage2)
                 (u "Original Question: " ++ query) = true
        /\ (forall r, In r stage1 ->
              includes (buildChairmanPrompt query stage1 stage2)
                       (u "Model: " ++ s1_model r ++ nl
                          ++ u "Response: " ++ s1_response r) = true)
        /\ (forall r, In r stage2 ->
              includes (buildChairmanPrompt query stage1 stage2)
                       (u "Model: " ++ s2_model r ++ nl
                          ++ u "Ranking: " ++ evaluation r) = true)).
Proof.
  split.
  - intros query responses.
    destruct (ranking_prompt_parts query responses) as (Q & B & _).
    split; [now apply part_includes|].
    intros label text H. apply part_includes.
    eapply part_trans; [|exact B]. apply part_join.
    apply (in_map (fun r => fst r ++ u ":" ++ nl ++ snd r) _ _ H).
  - intros query stage1 stage2.
    destruct (chairman_prompt_parts query stage1 stage2) as (Q & B1 & B2).
    split; [now apply part_includes|]. split.
    + intros r H. apply part_includes.
      eapply part_trans; [|exact B1]. apply part_join.
      apply (in_map (fun r => u "Model: " ++ s1_model r ++ nl
                              ++ u "Response: " ++ s1_response r) _ _ H).
    + intros r H. apply part_includes.
      eapply part_trans; [|exact B2]. apply part_join.
      apply (in_map (fun r => u "Model: " ++ s2_model r ++ nl
                              ++ u "Ranking: " ++ evaluation r) _ _ H).
Qed.

(** X12.  The ranking prompt shows the format it asks for, so it parses as
    a ranking itself: whatever the question and the responses, an evaluator
    that only sends the prompt back is not seen as having ranked nothing. *)
Theorem echoed_prompt_parses (query : jstr) (responses : list (jstr * jstr)) :
  holds_mention (buildRankingPrompt query responses)
  /\ includes (buildRankingPrompt query responses) marker = true
  /\ parseRanking (buildRankingPrompt query responses) <> [].
Proof.
  destruct (ranking_prompt_parts query responses) as (_ & _ & P).
  assert (M : holds_mention (buildRankingPrompt query responses)).
  { apply holds_mention_part. exists 65%N. split; [reflexivity|].
    eapply part_trans; [|exact P]. exists (u "1. "), []. reflexivity. }
  split; [exact M|]. split; [|now apply parseRanking_mention_nonempty].
  apply part_includes. unfold buildRankingPrompt.
  apply part_join. do 20 right. left. reflexivity.
Qed.

(** * The run as a whole *)

Section Calls.

Variable World : Type.
Variable chat : jstr -> list ChatMessage -> World -> outcome jstr * World.
Variable models : list jstr.
Variable chairmanModel : jstr.

Lemma run_world query w :
  snd (LLMCouncil.run chat models chairmanModel query w)
  = match LLMCouncil.stage1 chat models query w with
    | (Throws _, w1) => w1
    | (Returns s1, w1) =>
        match LLMCouncil.stage2 chat models query s1 w1 with
        | (Throws _, w2) => w2
        | (Returns s2, w2) =>
            snd (LLMCouncil.stage3 chat chairmanModel query s1 (rankings s2) w2)
        end
    end.
Proof.
  unfold LLMCouncil.run. unfold LLMCouncil.bind at 1.
  destruct (LLMCouncil.stage1 chat models query w) as [[s1|e1] w1];
    [|reflexivity].
  unfold LLMCouncil.bind at 1.
  destruct (LLMCouncil.stage2 chat models query s1 w1) as [[s2|e2] w2];
    [|reflexivity].
  unfold LLMCouncil.bind at 1.
  destruct (LLMCouncil.stage3 chat chairmanModel query s1 (rankings s2) w2)
    as [[s3|e3] w3]; reflexivity.
Qed.

Lemma stage3_spec query s1 rs w :
  LLMCouncil.stage3 chat chairmanModel query s1 rs w
  = (map_outcome
       (fun response => {| s3_model := chairmanModel; s3_response := response |})
       (fst (chat chairmanModel
               (snd (request chairmanModel (buildChairmanPrompt query s1 rs))) w)),
     snd (chat chairmanModel
            (snd (request chairmanModel (buildChairmanPrompt query s1 rs))) w)).
Proof.
  unfold LLMCouncil.stage3, LLMCouncil.bind, LLMCouncil.ask, LLMCouncil.ret.
  cbn [request snd]. destruct (chat chairmanModel _ w). reflexivity.
Qed.

Lemma answered_models : forall (rs : list (jstr * outcome jstr)) m,
  In m (map fst (answered rs)) -> In m (map fst rs).
Proof.
  induction rs as [|[m0 [reply|e]] rs IH]; intros m H; simpl in *; auto.
  destruct H as [->|H]; auto.
Qed.

Lemma stage1_models query w s1 w1 :
  LLMCouncil.stage1 chat models query w = (Returns s1, w1) ->
  s1 <> [] /\ forall m, In m (map s1_model s1) -> In m models.
Proof.
  rewrite stage1_spec. cbv zeta.
  destruct (map entry1 (answered (fst (replies chat query models w))))
    as [|e es] eqn:E; intros H; inversion H; subst.
  split; [discriminate|]. intros m Hm. rewrite <- E in Hm.
  rewrite map_map in Hm. cbn [entry1 s1_model] in Hm.
  apply answered_models in Hm. now rewrite replies_models in Hm.
Qed.

Lemma stage1_throws query w err w1 :
  LLMCouncil.stage1 chat models query w = (Throws err, w1) ->
  err = all_failed_error.
Proof.
  rewrite stage1_spec. cbv zeta.
  destruct (map entry1 (answered (fst (replies chat query models w))));
    intros H; inversion H; reflexivity.
Qed.

Lemma mapping_values s1 k v :
  get_own (snd (anonymize s1)) k = Some v -> In v (map s1_model s1).
Proof.
  intros H. apply get_own_value in H. unfold anonymize in H.
  apply anonymize_from_values in H as [[]|H]. exact H.
Qed.

Lemma stage2_throws query s1 w err w2 :
  LLMCouncil.stage2 chat models query s1 w = (Throws err, w2) ->
  err = push_type_error
  /\ exists m, In m (map s1_model s1) /\ inherited m = true.
Proof.
  rewrite stage2_spec. cbv zeta. intros H. inversion H as [[H1 H2]]. clear H.
  set (labelToModel := snd (anonymize s1)) in *.
  set (answers := answered _) in *.
  destruct (calculate_cases (map entry2 answers) labelToModel) as [[C E]|[C E]];
    rewrite E in H1; [discriminate|].
  split; [simpl in H1; congruence|].
  destruct (forallb (fun m => negb (inherited m)) (map s1_model s1)) eqn:F.
  - rewrite clean_collected in C; [discriminate|].
    intros k v G. apply mapping_values in G.
    rewrite forallb_forall in F. specialize (F _ G).
    now apply negb_true_iff in F.
  - apply forallb_false in F as (m & Hm & Hi). exists m.
    split; [assumption | now apply negb_false_iff in Hi].
Qed.

Lemma replies_recording prompt : forall ms log w,
  replies (recording chat) prompt ms (log, w)
  = (fst (replies chat prompt ms w),
     (log ++ map (fun m => request m prompt) ms,
      snd (replies chat prompt ms w))).
Proof.
  induction ms as [|m ms IH]; intros log w.
  - simpl. now rewrite app_nil_r.
  - cbn [replies map]. unfold recording at 1. cbn [fst snd].
    destruct (chat m _ w) as [r w1]. rewrite IH.
    destruct (replies chat prompt ms w1) as [rs w2]. cbn [fst snd].
    now rewrite <- app_assoc.
Qed.

End Calls.

Section Traced.

Variable World : Type.
Variable chat : jstr -> list ChatMessage -> World -> outcome jstr * World.
Variable models : list jstr.
Variable chairmanModel : jstr.

Lemma stage1_recording query log w :
  LLMCouncil.stage1 (recording chat) models query (log, w)
  = (fst (LLMCouncil.stage1 chat models query w),
     (log ++ map (fun m => request m query) models,
      snd (LLMCouncil.stage1 chat models query w))).
Proof.
  rewrite !stage1_spec. cbv zeta.
  rewrite (replies_recording chat query models log w). reflexivity.
Qed.

Lemma stage2_recording query s1 log w :
  LLMCouncil.stage2 (recording chat) models query s1 (log, w)
  = (fst (LLMCouncil.stage2 chat models query s1 w),
     (log ++ map (fun m =>
                    request m (buildRankingPrompt query (fst (anonymize s1))))
                 models,
      snd (LLMCouncil.stage2 chat models query s1 w))).
Proof.
  rewrite !stage2_spec. cbv zeta.
  rewrite (replies_recording chat
             (buildRankingPrompt query (fst (anonymize s1))) models log w).
  reflexivity.
Qed.

Lemma stage3_recording query s1 rs log w :
  LLMCouncil.stage3 (recording chat) chairmanModel query s1 rs (log, w)
  = (fst (LLMCouncil.stage3 chat chairmanModel query s1 rs w),
     (log ++ [request chairmanModel (buildChairmanPrompt query s1 rs)],
      snd (LLMCouncil.stage3 chat chairmanModel query s1 rs w))).
Proof.
  rewrite !stage3_spec. unfold recording. cbn [fst snd request].
  destruct (chat chairmanModel _ w). reflexivity.
Qed.

Lemma run_traced query w :
  LLMCouncil.run (recording chat) models chairmanModel query ([], w)
  = (fst (LLMCouncil.run chat models chairmanModel query w),
     (requests_of models chairmanModel
        (fst (LLMCouncil.run chat models chairmanModel query w)),
      snd (LLMCouncil.run chat models chairmanModel query w))).
Proof.
  rewrite (surjective_pairing
             (LLMCouncil.run (recording chat) models chairmanModel query ([], w))).
  rewrite !run_cases, !run_world, stage1_recording. cbn [app].
  destruct (LLMCouncil.stage1 chat models query w) as [[s1|e1] w1]; cbn [fst snd].
  2:{ unfold requests_of. cbn [result_of stage1 Types.query].
      now rewrite app_nil_r. }
  rewrite stage2_recording.
  destruct (LLMCouncil.stage2 chat models query s1 w1) as [[s2|e2] w2];
    cbn [fst snd].
  2:{ unfold requests_of. cbn [result_of stage1 stage2 Types.query].
      now rewrite app_nil_r. }
  rewrite stage3_recording.
  destruct (LLMCouncil.stage3 chat chairmanModel query s1 (rankings s2) w2)
    as [[s3|e3] w3]; cbn [fst snd]; unfold requests_of;
    cbn [result_of stage1 stage2 Types.query]; now rewrite <- app_assoc.
Qed.

End Traced.

(** X13.  The requests of a run, for any provider.  Recording them changes
    neither the result nor the provider's state after the run.  Stage 1
    sends the question, alone in one user message, to every configured
    model, in order; if Stage 1 returns, Stage 2 sends one and the same
    ranking prompt to every configured model, in order; if Stage 2 returns,
    Stage 3 sends the chairman prompt to the chairman model; and nothing
    else is sent: at most two requests per model and one more. *)
Theorem run_makes_these_requests :
  forall (World : Type)
         (chat : jstr -> list ChatMessage -> World -> outcome jstr * World)
         (models : list jstr) (chairmanModel query : jstr) (w : World),
    let traced :=
      LLMCouncil.run (recording chat) models chairmanModel query ([], w) in
    let result := fst (LLMCouncil.run chat models chairmanModel query w) in
    fst traced = result
    /\ snd (snd traced) = snd (LLMCouncil.run chat models chairmanModel query w)
    /\ fst (snd traced) = requests_of models chairmanModel result
    /\ Types.query result = query
    /\ length (fst (snd traced)) <= 2 * length models + 1.
Proof.
  intros World chat models chairmanModel query w traced result.
  unfold traced. rewrite run_traced. cbn [fst snd]. fold result.
  assert (Q : Types.query result = query).
  { unfold result. rewrite run_cases.
    destruct (LLMCouncil.stage1 chat models query w) as [[s1|e1] w1];
      [|reflexivity].
    destruct (LLMCouncil.stage2 chat models query s1 w1) as [[s2|e2] w2];
      [|reflexivity].
    destruct (LLMCouncil.stage3 chat chairmanModel query s1 (rankings s2) w2)
      as [[s3|e3] w3]; reflexivity. }
  repeat (split; [reflexivity|]). split; [exact Q|].
  unfold requests_of. rewrite !length_app, !length_map.
  destruct (stage1 result); [|simpl; lia].
  rewrite !length_app, !length_map.
  destruct (stage2 result); simpl; lia.
Qed.

(** X14.  When every request is answered, at least one model is configured
    and no configured model is named like a property of [Object.prototype],
    the run completes: no error, one Stage 1 entry and one evaluation per
    configured model, in order, each evaluation kept with its parse, and the
    synthesis of the chairman model. *)
Theorem run_completes_when_all_answer :
  forall (World : Type)
         (chat : jstr -> list ChatMessage -> World -> outcome jstr * World)
         (models : list jstr) (chairmanModel query : jstr) (w : World),
    (forall model messages w0,
       exists reply w1, chat model messages w0 = (Returns reply, w1)) ->
    models <> [] ->
    forallb (fun m => negb (inherited m)) models = true ->
    let result := fst (LLMCouncil.run chat models chairmanModel query w) in
    error result = None
    /\ (exists s1, stage1 result = Some s1 /\ map s1_model s1 = models)
    /\ (exists s2, stage2 result = Some s2
          /\ map s2_model (rankings s2) = models
          /\ (forall r, In r (rankings s2) ->
                parsed_ranking r = parseRanking (evaluation r)))
    /\ (exists s3, stage3 result = Some s3 /\ s3_model s3 = chairmanModel).
Proof.
  intros World chat models chairmanModel query w Hall Hne Hclean result.
  assert (A : forall prompt ms w0,
            map fst (answered (fst (replies chat prompt ms w0))) = ms).
  { intros prompt. induction ms as [|m ms IH]; intros w0; [reflexivity|].
    cbn [replies].
    destruct (Hall m [{| msg_role := user; content := prompt |}] w0)
      as (reply & w1 & E).
    rewrite E. specialize (IH w1).
    destruct (replies chat prompt ms w1) as [rs w2]. cbn [fst answered map] in *.
    now rewrite IH. }
  unfold result. rewrite run_cases.
  destruct (LLMCouncil.stage1 chat models query w) as [[s1|e1] w1] eqn:E1.
  2:{ exfalso. rewrite stage1_spec in E1. cbv zeta in E1.
      destruct (map entry1 (answered (fst (replies chat query models w))))
        as [|e es] eqn:E; [|discriminate].
      apply map_eq_nil in E. specialize (A query models w).
      rewrite E in A. simpl in A. congruence. }
  assert (M1 : map s1_model s1 = models).
  { rewrite stage1_spec in E1. cbv zeta in E1.
    destruct (map entry1 (answered (fst (replies chat query models w))))
      as [|e es] eqn:E; inversion E1; subst.
    rewrite <- E, map_map. cbn [entry1 s1_model]. apply A. }
  destruct (LLMCouncil.stage2 chat models query s1 w1) as [[s2|e2] w2] eqn:E2.
  2:{ exfalso. apply stage2_throws in E2 as (_ & m & Hm & Hi).
      rewrite M1 in Hm. rewrite forallb_forall in Hclean.
      specialize (Hclean _ Hm). rewrite Hi in Hclean. discriminate. }
  assert (M2 : map s2_model (rankings s2) = models
               /\ forall r, In r (rankings s2) ->
                    parsed_ranking r = parseRanking (evaluation r)).
  { rewrite stage2_spec in E2. cbv zeta in E2.
    destruct (calculateAggregateRankings _ _); inversion E2; subst.
    cbn [rankings]. split.
    - rewrite map_map. cbn [entry2 s2_model]. apply A.
    - intros r Hr. apply in_map_iff in Hr as (ans & <- & _). reflexivity. }
  rewrite stage3_spec.
  destruct (Hall chairmanModel
              (snd (request chairmanModel
                      (buildChairmanPrompt query s1 (rankings s2)))) w2)
    as (reply & w3 & E3).
  rewrite E3. cbn [fst map_outcome result_of error stage1 stage2 stage3].
  split; [reflexivity|]. split; [now exists s1|]. split; [now exists s2|].
  eexists. split; reflexivity.
Qed.

(** The theorem on the provider of the test suite and its two models. *)
Lemma run_completes_when_all_answer_witness :
  let result :=
    fst (LLMCouncil.run answering [u "model-a"; u "model-b"] (u "model-a")
           (u "What is 2+2?") 0) in
  error result = None
  /\ (exists s1, stage1 result = Some s1
        /\ map s1_model s1 = [u "model-a"; u "model-b"])
  /\ (exists s2, stage2 result = Some s2
        /\ map s2_model (rankings s2) = [u "model-a"; u "model-b"]
        /\ (forall r, In r (rankings s2) ->
              parsed_ranking r = parseRanking (evaluation r)))
  /\ (exists s3, stage3 result = Some s3 /\ s3_model s3 = u "model-a").
Proof.
  apply (@run_completes_when_all_answer nat answering
           [u "model-a"; u "model-b"] (u "model-a") (u "What is 2+2?") 0).
  - intros model messages w0. unfold answering.
    destruct (includes _ _); eexists _, _; reflexivity.
  - discriminate.
  - reflexivity.
Defined.

(** X15.  The error of a result is one of four things: nothing; the fixed
    text of a Stage 1 in which no model answered; the fixed text of the
    [TypeError] of the aggregation, which needs a configured model named
    like a property of [Object.prototype]; or [Stage 3 failed: ] and what
    the chairman request threw.  What the Stage 1 and Stage 2 requests threw
    never reaches the result.  With no configured model the run makes no
    request and reports the Stage 1 failure. *)
Theorem run_error_is_one_of_four :
  forall (World : Type)
         (chat : jstr -> list ChatMessage -> World -> outcome jstr * World)
         (models : list jstr) (chairmanModel query : jstr) (w : World),
    let result := fst (LLMCouncil.run chat models chairmanModel query w) in
    (error result = None
     \/ error result
        = Some (u "Stage 1 failed: All models failed to respond in Stage 1")
     \/ (error result
         = Some (u "Stage 2 failed: modelRanks[model].push is not a function")
         /\ exists m, In m models /\ inherited m = true)
     \/ (exists s1 s2 w2 err,
           stage1 result = Some s1 /\ stage2 result = Some s2
           /\ fst (chat chairmanModel
                     (snd (request chairmanModel
                             (buildChairmanPrompt query s1 (rankings s2)))) w2)
              = Throws err
           /\ error result = Some (u "Stage 3 failed: " ++ err_text err)))
    /\ LLMCouncil.run chat [] chairmanModel query w
       = (result_of query None None None
            (Some (u "Stage 1 failed: All models failed to respond in Stage 1")),
          w).
Proof.
  intros World chat models chairmanModel query w result.
  split; [|reflexivity].
  unfold result. rewrite run_cases.
  destruct (LLMCouncil.stage1 chat models query w) as [[s1|e1] w1] eqn:E1.
  2:{ apply stage1_throws in E1. subst e1. right. left. reflexivity. }
  destruct (LLMCouncil.stage2 chat models query s1 w1) as [[s2|e2] w2] eqn:E2.
  2:{ apply stage2_throws in E2 as (-> & m & Hm & Hi).
      right. right. left. split; [reflexivity|]. exists m.
      split; [|exact Hi].
      destruct (stage1_models _ _ _ _ E1) as [_ Hin]. now apply Hin. }
  rewrite stage3_spec.
  destruct (chat chairmanModel
              (snd (request chairmanModel
                      (buildChairmanPrompt query s1 (rankings s2)))) w2)
    as [[reply|err] w3] eqn:E3; cbn [fst map_outcome].
  - left. reflexivity.
  - right. right. right. exists s1, s2, w2, err.
    rewrite E3. repeat split; reflexivity.
Qed.

(** * The providers and the constructor *)

Section Providers.

Import Json Http.

Variable W : Type.
Variable fetch : Request -> W -> outcome (Response W) * W.

Lemma reply_string data content :
  OllamaProvider.reply_of data = Some (JStr content) <->
  exists props message,
    data = JObj props
    /\ get_own props (u "message") = Some (JObj message)
    /\ get_own message (u "content") = Some (JStr content).
Proof.
  unfold OllamaProvider.reply_of. split.
  - destruct data as [| | | | |props]; try discriminate.
    cbn [prop].
    destruct (get_own props (u "message")) as [[| | | | |message]|] eqn:M;
      try discriminate.
    cbn [opt_prop prop]. intros H. now exists props, message.
  - intros (props & message & -> & H1 & H2). cbn [prop]. rewrite H1.
    cbn [opt_prop prop]. exact H2.
Qed.

Lemma first_choice_string data content :
  OpenRouterProvider.reply_of data = Some (JStr content) <->
  exists props choices first message,
    data = JObj props
    /\ get_own props (u "choices") = Some choices
    /\ opt_first (Some choices) = Some (JObj first)
    /\ get_own first (u "message") = Some (JObj message)
    /\ get_own message (u "content") = Some (JStr content).
Proof.
  unfold OpenRouterProvider.reply_of. split.
  - destruct data as [| | | | |props]; try discriminate.
    cbn [prop]. destruct (get_own props (u "choices")) as [choices|] eqn:C;
      [|discriminate].
    destruct (opt_first (Some choices)) as [[| | | | |first]|] eqn:F;
      try discriminate.
    cbn [opt_prop prop].
    destruct (get_own first (u "message")) as [[| | | | |message]|] eqn:M;
      try discriminate.
    cbn [opt_prop prop]. intros H. now exists props, choices, first, message.
  - intros (props & choices & first & message & -> & H1 & H2 & H3 & H4).
    cbn [prop]. rewrite H1, H2. cbn [opt_prop prop]. rewrite H3.
    cbn [opt_prop prop]. exact H4.
Qed.

Lemma ollama_chat_cases self model messages w :
  OllamaProvider.chat fetch self model messages w
  = match fetch (OllamaProvider.request self model messages) w with
    | (Throws e, w1) => (Throws e, w1)
    | (Returns res, w1) =>
        if ok res then
          match json res w1 with
          | (Throws e, w2) => (Throws e, w2)
          | (Returns data, w2) =>
              match data, OllamaProvider.reply_of data with
              | JNull, _ => (Throws (null_read "message"), w2)
              | _, Some (JStr content) => (Returns content, w2)
              | _, _ =>
                  (Throws (ErrorObj (u "Unexpected response format from "
                                       ++ model)), w2)
              end
          end
        else
          match text res w1 with
          | (Throws e, w2) => (Throws e, w2)
          | (Returns body, w2) =>
              (Throws (ErrorObj (u "Ollama API error (" ++ decimal (status res)
                                   ++ u "): " ++ body)), w2)
          end
    end.
Proof.
  unfold OllamaProvider.chat.
  destruct (fetch _ w) as [[res|e] w1]; [|reflexivity].
  destruct (ok res); cbn [negb]; [|reflexivity].
  destruct (json res w1) as [[data|e] w2]; [|reflexivity].
  destruct data; reflexivity.
Qed.

Lemma openrouter_chat_cases self model messages w :
  OpenRouterProvider.chat fetch self model messages w
  = match fetch (OpenRouterProvider.request self model messages) w with
    | (Throws e, w1) => (Throws e, w1)
    | (Returns res, w1) =>
        if ok res then
          match json res w1 with
          | (Throws e, w2) => (Throws e, w2)
          | (Returns data, w2) =>
              match data, OpenRouterProvider.reply_of data with
              | JNull, _ => (Throws (null_read "choices"), w2)
              | _, Some (JStr content) => (Returns content, w2)
              | _, _ =>
                  (Throws (ErrorObj (u "Unexpected response format from "
                                       ++ model)), w2)
              end
          end
        else
          match text res w1 with
          | (Throws e, w2) => (Throws e, w2)
          | (Returns body, w2) =>
              (Throws (ErrorObj (u "OpenRouter API error ("
                                   ++ decimal (status res)
                                   ++ u "): " ++ body)), w2)
          end
    end.
Proof.
  unfold OpenRouterProvider.chat.
  destruct (fetch _ w) as [[res|e] w1]; [|reflexivity].
  destruct (ok res); cbn [negb]; [|reflexivity].
  destruct (json res w1) as [[data|e] w2]; [|reflexivity].
  destruct data; reflexivity.
Qed.

End Providers.

(** X16.  [OllamaProvider.chat] returns a reply exactly when the request is
    answered with an ok status and a JSON object whose [message] is an
    object whose [content] is a string, and the reply is that string.  A
    status that is not ok throws [Ollama API error (status): body]; the JSON
    value [null] throws the [TypeError] of reading [message] of [null], not
    the error of an unexpected format, which every other value without such
    a string throws, naming the model. *)
Theorem ollama_chat_returns_iff :
  forall (W : Type)
         (fetch : Http.Request -> W -> outcome (Http.Response W) * W)
         (self : OllamaProvider.t) (model : jstr) (messages : list ChatMessage)
         (w w' : W),
    (forall content,
       OllamaProvider.chat fetch self model messages w = (Returns content, w')
       <-> exists res w1 props message,
             fetch (OllamaProvider.request self model messages) w
             = (Returns res, w1)
             /\ Http.ok res = true
             /\ Http.json res w1 = (Returns (Json.JObj props), w')
             /\ get_own props (u "message") = Some (Json.JObj message)
             /\ get_own message (u "content") = Some (Json.JStr content))
    /\ (forall res w1 body,
          fetch (OllamaProvider.request self model messages) w
          = (Returns res, w1) ->
          Http.ok res = false ->
          Http.text res w1 = (Returns body, w') ->
          OllamaProvider.chat fetch self model messages w
          = (Throws (ErrorObj (u "Ollama API error ("
                                 ++ Http.decimal (Http.status res)
                                 ++ u "): " ++ body)), w'))
    /\ (forall res w1 data,
          fetch (OllamaProvider.request self model messages) w
          = (Returns res, w1) ->
          Http.ok res = true ->
          Http.json res w1 = (Returns data, w') ->
          (forall content, OllamaProvider.reply_of data
                           <> Some (Json.JStr content)) ->
          OllamaProvider.chat fetch self model messages w
          = (Throws (match data with
                     | Json.JNull => Json.null_read "message"
                     | _ => ErrorObj (u "Unexpected response format from "
                                        ++ model)
                     end), w')).
Proof.
  intros W fetch self model messages w w'. split; [|split].
  - intros content. rewrite ollama_chat_cases. split.
    + destruct (fetch _ w) as [[res|e] w1]; [|discriminate].
      destruct (Http.ok res) eqn:Ok.
      2:{ destruct (Http.text res w1) as [[body|e] w2]; discriminate. }
      destruct (Http.json res w1) as [[data|e] w2] eqn:J; [|discriminate].
      destruct data as [| | | | |props]; try discriminate;
        try (destruct (OllamaProvider.reply_of _) as [[| | | | |]|];
             discriminate).
      destruct (OllamaProvider.reply_of (Json.JObj props))
        as [[| | |s| |]|] eqn:R; try discriminate.
      intros H. inversion H; subst.
      apply reply_string in R as (props' & message & E & H1 & H2).
      inversion E; subst. now exists res, w1, props', message.
    + intros (res & w1 & props & message & F & Ok & J & H1 & H2).
      rewrite F, Ok, J.
      assert (R : OllamaProvider.reply_of (Json.JObj props)
                  = Some (Json.JStr content))
        by (apply reply_string; now exists props, message).
      now rewrite R.
  - intros res w1 body F Ok T. rewrite ollama_chat_cases, F, Ok, T. reflexivity.
  - intros res w1 data F Ok J N. rewrite ollama_chat_cases, F, Ok, J.
    destruct data; try reflexivity;
      destruct (OllamaProvider.reply_of _) as [[| | |s| |]|] eqn:R;
      try reflexivity; exfalso; now apply (N s).
Qed.

(** X17.  [OpenRouterProvider.chat] returns a reply exactly when the request
    is answered with an ok status and a JSON object whose [choices] has a
    first item (of an array, or the property [0] of an object) that is an
    object whose [message] is an object whose [content] is a string: only
    the first choice is read.  A status that is not ok throws
    [OpenRouter API error (status): body]; the JSON value [null] throws the
    [TypeError] of reading [choices] of [null]; every other value without
    such a string throws the error of an unexpected format. *)
Theorem openrouter_chat_returns_iff :
  forall (W : Type)
         (fetch : Http.Request -> W -> outcome (Http.Response W) * W)
         (self : OpenRouterProvider.t) (model : jstr)
         (messages : list ChatMessage) (w w' : W),
    (forall content,
       OpenRouterProvider.chat fetch self model messages w
       = (Returns content, w')
       <-> exists res w1 props choices first message,
             fetch (OpenRouterProvider.request self model messages) w
             = (Returns res, w1)
             /\ Http.ok res = true
             /\ Http.json res w1 = (Returns (Json.JObj props), w')
             /\ get_own props (u "choices") = Some choices
             /\ Json.opt_first (Some choices) = Some (Json.JObj first)
             /\ get_own first (u "message") = Some (Json.JObj message)
             /\ get_own message (u "content") = Some (Json.JStr content))
    /\ (forall res w1 body,
          fetch (OpenRouterProvider.request self model messages) w
          = (Returns res, w1) ->
          Http.ok res = false ->
          Http.text res w1 = (Returns body, w') ->
          OpenRouterProvider.chat fetch self model messages w
          = (Throws (ErrorObj (u "OpenRouter API error ("
                                 ++ Http.decimal (Http.status res)
                                 ++ u "): " ++ body)), w'))
    /\ (forall res w1 data,
          fetch (OpenRouterProvider.request self model messages) w
          = (Returns res, w1) ->
          Http.ok res = true ->
          Http.json res w1 = (Returns data, w') ->
          (forall content, OpenRouterProvider.reply_of data
                           <> Some (Json.JStr content)) ->
          OpenRouterProvider.chat fetch self model messages w
          = (Throws (match data with
                     | Json.JNull => Json.null_read "choices"
                     | _ => ErrorObj (u "Unexpected response format from "
                                        ++ model)
                     end), w')).
Proof.
  intros W fetch self model messages w w'. split; [|split].
  - intros content. rewrite openrouter_chat_cases. split.
    + destruct (fetch _ w) as [[res|e] w1]; [|discriminate].
      destruct (Http.ok res) eqn:Ok.
      2:{ destruct (Http.text res w1) as [[body|e] w2]; discriminate. }
      destruct (Http.json res w1) as [[data|e] w2] eqn:J; [|discriminate].
      destruct data as [| | | | |props]; try discriminate;
        try (destruct (OpenRouterProvider.reply_of _) as [[| | | | |]|];
             discriminate).
      destruct (OpenRouterProvider.reply_of (Json.JObj props))
        as [[| | |s| |]|] eqn:R; try discriminate.
      intros H. inversion H; subst.
      apply first_choice_string in R
        as (props' & choices & first & message & E & H1 & H2 & H3 & H4).
      inversion E; subst. now exists res, w1, props', choices, first, message.
    + intros (res & w1 & props & choices & first & message
              & F & Ok & J & H1 & H2 & H3 & H4).
      rewrite F, Ok, J.
      assert (R : OpenRouterProvider.reply_of (Json.JObj props)
                  = Some (Json.JStr content))
        by (apply first_choice_string;
            now exists props, choices, first, message).
      now rewrite R.
  - intros res w1 body F Ok T.
    rewrite openrouter_chat_cases, F, Ok, T. reflexivity.
  - intros res w1 data F Ok J N. rewrite openrouter_chat_cases, F, Ok, J.
    destruct data; try reflexivity;
      destruct (OpenRouterProvider.reply_of _) as [[| | |s| |]|] eqn:R;
      try reflexivity; exfalso; now apply (N s).
Qed.

(** The theorem of [OllamaProvider.chat] on a server that answers every
    request with the same JSON value. *)
Lemma ollama_chat_returns_iff_witness :
  OllamaProvider.chat
    (answering_server
       (Json.JObj [(u "message",
                    Json.JObj [(u "role", Json.JStr (u "assistant"));
                               (u "content", Json.JStr (u "4"))])]))
    (OllamaProvider.new None None) (u "model-a")
    [{| msg_role := user; content := u "What is 2+2?" |}] tt
  = (Returns (u "4"), tt).
Proof.
  apply (proj1 (@ollama_chat_returns_iff unit
                  (answering_server
                     (Json.JObj [(u "message",
                                  Json.JObj [(u "role", Json.JStr (u "assistant"));
                                             (u "content", Json.JStr (u "4"))])]))
                  (OllamaProvider.new None None) (u "model-a")
                  [{| msg_role := user; content := u "What is 2+2?" |}] tt tt)
               (u "4")).
  eexists _, tt, _, _. repeat split; reflexivity.
Defined.

(** The theorem of [OpenRouterProvider.chat] on a server that answers with
    two choices. *)
Lemma openrouter_chat_returns_iff_witness :
  OpenRouterProvider.chat
    (answering_server
       (Json.JObj [(u "choices",
                    Json.JArr
                      [ Json.JObj [(u "message",
                                    Json.JObj [(u "content", Json.JStr (u "4"))])];
                        Json.JObj [(u "message",
                                    Json.JObj [(u "content", Json.JStr (u "5"))])]
                      ])]))
    (OpenRouterProvider.new (u "key") None None) (u "model-a")
    [{| msg_role := user; content := u "What is 2+2?" |}] tt
  = (Returns (u "4"), tt).
Proof.
  apply (proj1 (@openrouter_chat_returns_iff unit
                  (answering_server
                     (Json.JObj [(u "choices",
                                  Json.JArr
                                    [ Json.JObj [(u "message",
                                                  Json.JObj [(u "content",
                                                              Json.JStr (u "4"))])];
                                      Json.JObj [(u "message",
                                                  Json.JObj [(u "content",
                                                              Json.JStr (u "5"))])]
                                    ])]))
                  (OpenRouterProvider.new (u "key") None None) (u "model-a")
                  [{| msg_role := user; content := u "What is 2+2?" |}] tt tt)
               (u "4")).
  eexists _, tt, _, _, _, _. repeat split; reflexivity.
Defined.

(** X18.  The constructor throws exactly when the provider is [openrouter]
    and the API key is absent or empty, and then with the message
    [apiKey is required for the openrouter provider]; for [ollama] the key
    is not looked at.  A council that is built keeps the models and the
    chairman model of the configuration, logs only when [verbose] is
    [true], and talks to the default base URL of its provider, with a
    timeout of 120000 ms, unless the configuration gives others. *)
Theorem constructor_requires_key (config : Config.CouncilConfig) :
  ((exists e, Council.new config = Throws e)
   <-> Config.provider config = Config.openrouter
       /\ (Config.apiKey config = None \/ Config.apiKey config = Some []))
  /\ (forall e, Council.new config = Throws e ->
        e = ErrorObj (u "apiKey is required for the openrouter provider"))
  /\ (forall council, Council.new config = Returns council ->
        Council.the_models council = Config.models config
        /\ Council.the_chairmanModel council = Config.chairmanModel config
        /\ Council.is_verbose council
           = match Config.verbose config with Some b => b | None => false end
        /\ Council.the_provider council
           = match Config.provider config, Config.apiKey config with
             | Config.openrouter, Some key =>
                 Council.OpenRouter
                   {| OpenRouterProvider.apiKey := key;
                      OpenRouterProvider.baseUrl :=
                        match Config.baseUrl config with
                        | Some b => b
                        | None => u "https://openrouter.ai/api/v1"
                        end;
                      OpenRouterProvider.timeout :=
                        match Config.timeout config with
                        | Some ms => ms
                        | None => 120000%float
                        end |}
             | _, _ =>
                 Council.Ollama
                   {| OllamaProvider.baseUrl :=
                        match Config.baseUrl config with
                        | Some b => b
                        | None => u "http://localhost:11434"
                        end;
                      OllamaProvider.timeout :=
                        match Config.timeout config with
                        | Some ms => ms
                        | None => 120000%float
                        end |}
             end).
Proof.
  unfold Council.new.
  destruct (Config.provider config); [destruct (Config.apiKey config) as [[|c k]|]|].
  - split; [split; [auto | intros _; eexists; reflexivity]|].
    split; [intros e H; now inversion H | intros council H; discriminate].
  - split; [split; [intros (e & H); discriminate
                   |intros (_ & [H|H]); discriminate]|].
    split; [intros e H; discriminate|].
    intros council H. inversion H; subst. repeat split.
  - split; [split; [auto | intros _; eexists; reflexivity]|].
    split; [intros e H; now inversion H | intros council H; discriminate].
  - split; [split; [intros (e & H); discriminate
                   |intros (H & _); discriminate]|].
    split; [intros e H; discriminate|].
    intros council H. inversion H; subst. repeat split.
Qed.

Section Refused.

Variable W : Type.
Variable fetch : Http.Request -> W -> outcome (Http.Response W) * W.

Hypothesis refused : forall req w,
  match fetch req w with
  | (Returns res, _) => Http.ok res = false
  | (Throws _, _) => True
  end.

Lemma chat_refused self model messages w :
  exists e, fst (Council.chat fetch self model messages w) = Throws e.
Proof.
  unfold Council.chat. destruct (Council.the_provider self) as [p|p].
  - rewrite openrouter_chat_cases.
    pose proof (refused (OpenRouterProvider.request p model messages) w) as R.
    destruct (fetch _ w) as [[res|e] w1]; [|eexists; reflexivity].
    rewrite R. destruct (Http.text res w1) as [[body|e] w2];
      eexists; reflexivity.
  - rewrite ollama_chat_cases.
    pose proof (refused (OllamaProvider.request p model messages) w) as R.
    destruct (fetch _ w) as [[res|e] w1]; [|eexists; reflexivity].
    rewrite R. destruct (Http.text res w1) as [[body|e] w2];
      eexists; reflexivity.
Qed.

Lemma replies_refused self prompt : forall ms w,
  answered (fst (replies (Council.chat fetch self) prompt ms w)) = [].
Proof.
  induction ms as [|m ms IH]; intros w; [reflexivity|].
  cbn [replies].
  destruct (chat_refused self m [{| msg_role := user; content := prompt |}] w)
    as (e & E).
  destruct (Council.chat fetch self m _ w) as [r w1]. cbn [fst] in E. subst r.
  specialize (IH w1). destruct (replies _ prompt ms w1) as [rs w2].
  cbn [fst answered] in *. exact IH.
Qed.

End Refused.

(** X19.  A council whose every HTTP request is refused (the server answers
    with a status that is not ok, or the request itself fails) reports, with
    either provider, that Stage 1 failed because no model answered; the
    status and the body of the refusals do not reach the result. *)
Theorem refused_requests_fail_stage1 :
  forall (W : Type)
         (fetch : Http.Request -> W -> outcome (Http.Response W) * W)
         (self : Council.t) (query : jstr) (w : W),
    (forall req w0,
       match fetch req w0 with
       | (Returns res, _) => Http.ok res = false
       | (Throws _, _) => True
       end) ->
    fst (Council.run fetch self query w)
    = result_of query None None None
        (Some (u "Stage 1 failed: All models failed to respond in Stage 1")).
Proof.
  intros W fetch self query w H. unfold Council.run.
  rewrite run_cases, stage1_spec. cbv zeta.
  rewrite (@replies_refused W fetch H). reflexivity.
Qed.

(** The theorem on a council built for OpenRouter whose key the server
    rejects with status 401. *)
Lemma refused_requests_fail_stage1_witness :
  match Council.new (two_models Config.openrouter (Some (u "wrong-key"))) with
  | Returns council =>
      fst (Council.run (refusing_server 401 (u "No auth credentials found"))
             council (u "hello") tt)
      = result_of (u "hello") None None None
          (Some (u "Stage 1 failed: All models failed to respond in Stage 1"))
  | Throws _ => False
  end.
Proof.
  cbv beta iota delta [Council.new two_models Config.provider Config.apiKey
                       Config.baseUrl Config.models Config.chairmanModel
                       Config.timeout Config.verbose u map
                       list_ascii_of_string].
  apply (@refused_requests_fail_stage1 unit
           (refusing_server 401 (u "No auth credentials found"))).
  intros req w0. reflexivity.
Defined.

(** * The rounding of the averages *)

Lemma all_from_spec p : forall k z,
  all_from k z p = true ->
  forall x, (z <= x < z + Z.of_nat k)%Z -> p x = true.
Proof.
  induction k as [|k IH]; intros z H x Hx; [lia|].
  cbn [all_from] in H. apply andb_true_iff in H as [Hz Hk].
  destruct (Z.eq_dec x z) as [->|Hne]; [exact Hz|].
  apply (IH (z + 1)%Z Hk). lia.
Qed.

Lemma all_sums_spec max_n max_rank p :
  all_sums max_n max_rank p = true ->
  forall n s, (1 <= n <= max_n)%Z -> (n <= s <= max_rank * n)%Z ->
    p s n = true.
Proof.
  unfold all_sums. intros H n s Hn Hs.
  pose proof (@all_from_spec _ _ _ H n ltac:(lia)) as Hin. cbv beta in Hin.
  apply (@all_from_spec _ _ _ Hin). nia.
Qed.

(** The doubles of every sum and count in range round to the nearest
    hundredth: checked by running the arithmetic on each of them. *)
Lemma sums_checked : all_sums 60 26 nearest = true.
Proof. vm_compute. reflexivity. Qed.

Lemma sum_ranks_cons r ranks : sum_ranks (r :: ranks) = (r + sum_ranks ranks)%Z.
Proof. unfold sum_ranks. simpl. now rewrite fold_add_sum. Qed.

Lemma sum_ranks_bounds lo hi : forall ranks,
  Forall (fun r => (lo <= r <= hi)%Z) ranks ->
  (lo * Z.of_nat (length ranks) <= sum_ranks ranks
   <= hi * Z.of_nat (length ranks))%Z.
Proof.
  induction ranks as [|r ranks IH]; intros H.
  - unfold sum_ranks. simpl. lia.
  - inversion H as [|? ? Hr Hrest]; subst. specialize (IH Hrest).
    rewrite sum_ranks_cons. cbn [length]. rewrite Nat2Z.inj_succ. nia.
Qed.

Lemma sum_ranks_same r : forall ranks,
  Forall (eq r) ranks -> sum_ranks ranks = (r * Z.of_nat (length ranks))%Z.
Proof.
  induction ranks as [|x ranks IH]; intros H.
  - unfold sum_ranks. simpl. lia.
  - inversion H as [|? ? Hx Hrest]; subst. specialize (IH Hrest).
    rewrite sum_ranks_cons, IH. cbn [length]. rewrite Nat2Z.inj_succ. lia.
Qed.

Lemma average_near ranks :
  ranks <> [] -> length ranks <= 60 ->
  Forall (fun r => (1 <= r <= 26)%Z) ranks ->
  (Z.abs (200 * sum_ranks ranks
          - 2 * Z.of_nat (length ranks) * average_hundredths ranks)
   <= Z.of_nat (length ranks))%Z.
Proof.
  intros Hne Hlen Hr.
  assert (Hn : (1 <= Z.of_nat (length ranks) <= 60)%Z)
    by (destruct ranks; [congruence | simpl length in *; lia]).
  pose proof (sum_ranks_bounds Hr) as Hs.
  assert (N : nearest (sum_ranks ranks) (Z.of_nat (length ranks)) = true)
    by (apply (@all_sums_spec _ _ _ sums_checked); lia).
  unfold nearest in N. now apply Z.leb_le in N.
Qed.

Lemma average_same r ranks :
  ranks <> [] -> length ranks <= 60 -> (1 <= r <= 26)%Z ->
  Forall (eq r) ranks -> average_hundredths ranks = (100 * r)%Z.
Proof.
  intros Hne Hlen Hr Hsame.
  assert (Hall : Forall (fun x => (1 <= x <= 26)%Z) ranks)
    by (eapply Forall_impl; [|exact Hsame]; intros x <-; exact Hr).
  pose proof (average_near Hne Hlen Hall) as N.
  pose proof (sum_ranks_same Hsame) as E.
  assert (Hn : (1 <= Z.of_nat (length ranks))%Z)
    by (destruct ranks; [congruence | simpl length; lia]).
  nia.
Qed.

(** X20.  For a model with at most 60 ranks, each between 1 and 26, the
    [average_rank] computed in double arithmetic is within half a hundredth
    of the true mean of its ranks, lies between 1.00 and 26.00, and is
    exactly the common rank when all its ranks are the same. *)
Theorem average_is_nearest_hundredth (ranks : list Z) :
  ranks <> [] ->
  length ranks <= 60 ->
  Forall (fun r => (1 <= r <= 26)%Z) ranks ->
  (Z.abs (200 * sum_ranks ranks
          - 2 * Z.of_nat (length ranks) * average_hundredths ranks)
   <= Z.of_nat (length ranks))%Z
  /\ (100 <= average_hundredths ranks <= 2600)%Z
  /\ (forall r, Forall (eq r) ranks ->
        average_hundredths ranks = (100 * r)%Z).
Proof.
  intros Hne Hlen Hr.
  assert (Hn : (1 <= Z.of_nat (length ranks) <= 60)%Z)
    by (destruct ranks; [congruence | simpl length in *; lia]).
  pose proof (sum_ranks_bounds Hr) as Hs.
  pose proof (average_near Hne Hlen Hr) as N.
  split; [exact N|]. split; [split; nia|].
  intros r Hsame. apply average_same; auto.
  destruct ranks as [|x ranks]; [congruence|].
  inversion Hsame; subst. now inversion Hr.
Qed.

(** The theorem on the ranks of the counterexample to round-half-up: forty
    ranks of mean 1.025 give 1.02, which is as near as 1.03. *)
Lemma average_is_nearest_hundredth_witness :
  (Z.abs (200 * sum_ranks (2%Z :: repeat 1%Z 39)
          - 2 * Z.of_nat (length (2%Z :: repeat 1%Z 39))
            * average_hundredths (2%Z :: repeat 1%Z 39))
   <= Z.of_nat (length (2%Z :: repeat 1%Z 39)))%Z
  /\ (100 <= average_hundredths (2%Z :: repeat 1%Z 39) <= 2600)%Z
  /\ (forall r, Forall (eq r) (2%Z :: repeat 1%Z 39) ->
        average_hundredths (2%Z :: repeat 1%Z 39) = (100 * r)%Z).
Proof.
  apply (@average_is_nearest_hundredth (2%Z :: repeat 1%Z 39)).
  - discriminate.
  - simpl. lia.
  - repeat constructor; lia.
Defined.

(** * How long a parse can be *)

Lemma full_label_listed l :
  full_label l -> In l (map label_at (seq 0 26)).
Proof.
  intros (c & -> & Hc). apply is_upper_range in Hc.
  apply in_map_iff. exists (N.to_nat (c - 65)). split.
  - destruct (@label_at_letter (N.to_nat (c - 65)) ltac:(lia)) as [E _].
    rewrite E. unfold label_of, letter_at. do 2 f_equal. lia.
  - apply in_seq. lia.
Qed.

Lemma full_labels_bound l :
  NoDup l -> Forall full_label l -> length l <= 26.
Proof.
  intros Hn Hf.
  assert (I : incl l (map label_at (seq 0 26))).
  { intros x Hx. rewrite Forall_forall in Hf. now apply full_label_listed, Hf. }
  apply (NoDup_incl_length Hn) in I. now rewrite length_map, length_seq in I.
Qed.

(** X21.  A parse without a repeated label has at most 26 labels.  So the
    mention-order strategy, which removes repetitions, never returns more
    than 26 labels, however long the text; the lists of the numbered
    strategies and of the [>] chain have no such bound. *)
Theorem parse_without_repeats_is_short :
  (forall text : jstr,
     NoDup (parseRanking text) -> length (parseRanking text) <= 26)
  /\ (forall text : jstr,
        includes text marker = false ->
        ~ holds_numbered text ->
        holds_mention text ->
        NoDup (parseRanking text) /\ 1 <= length (parseRanking text) <= 26)
  /\ length (parseRanking
               (flat_map (fun _ => u "1. Response A ") (seq 0 30))) = 30.
Proof.
  assert (B : forall text : jstr,
            NoDup (parseRanking text) -> length (parseRanking text) <= 26).
  { intros text H. apply (full_labels_bound H), parseRanking_full. }
  split; [exact B|]. split; [|vm_compute; reflexivity].
  intros text Hm Hn Hx.
  assert (D : NoDup (parseRanking text)).
  { rewrite parseRanking_no_marker by assumption. unfold unheadered.
    destruct (match_g re_numbered text) as [l|] eqn:E.
    - exfalso. apply Hn, numbered_found_iff. now exists l.
    - destruct (match_g re_mention text) as [[|m ms]|] eqn:E2.
      + apply match_g_sound in E2 as [E2 _]. congruence.
      + rewrite set_spread_keep_firsts. apply keep_firsts_NoDup.
      + exfalso. apply (proj1 (mention_found_iff text)) in Hx as (l & El).
        congruence. }
  split; [exact D|]. split; [|now apply B].
  pose proof (@parseRanking_mention_nonempty text Hx) as Ne.
  destruct (parseRanking text); [congruence | simpl; lia].
Qed.

(** The theorem on a text that mentions two responses, one of them twice. *)
Lemma parse_without_repeats_is_short_witness :
  NoDup (parseRanking (u "Response B beats Response A; Response B wins."))
  /\ 1 <= length (parseRanking
                    (u "Response B beats Response A; Response B wins."))
       <= 26.
Proof.
  apply (proj1 (proj2 parse_without_repeats_is_short)
           (u "Response B beats Response A; Response B wins.")).
  - vm_compute. reflexivity.
  - intros H. apply numbered_found_iff in H as (l & E). vm_compute in E.
    discriminate E.
  - exists [], 66%N, (u " beats Response A; Response B wins."). split; reflexivity.
Defined.

(** ** What stands before the marker *)

(** X22.  Once one of the two header strategies matches what follows the
    first marker, nothing that stands before the marker matters: the parse
    is what the section from the marker on gives, whatever the evaluator
    wrote above it, mentions and numbered lists included. *)
Theorem final_section_decides (prose rest : jstr) (r : list jstr) :
  includes prose marker = false ->
  headered (marker ++ rest) = Some r ->
  parseRanking (prose ++ marker ++ rest) = r
  /\ parseRanking (marker ++ rest) = r.
Proof.
  intros Hp Hh.
  assert (E : forall p, includes p marker = false ->
                        parseRanking (p ++ marker ++ rest) = r).
  { intros p H. unfold parseRanking, indexOf.
    rewrite indexOf_from_marker by assumption.
    destruct (Z.eqb_spec (0 + Z.of_nat (length p)) (-1)) as [F|_]; [lia|].
    now rewrite Z.add_0_l, slice_app, Hh. }
  split; [now apply E | apply (E [])]. reflexivity.
Qed.

(** The theorem on an evaluation whose prose holds a numbered item and
    mentions of its own. *)
Lemma final_section_decides_witness :
  parseRanking
    ((u "1. Response C is weak. Response A is good." ++ nl)
       ++ marker ++ (nl ++ u "1. Response B" ++ nl ++ u "2. Response A"))
  = [u "Response B"; u "Response A"]
  /\ parseRanking (marker ++ (nl ++ u "1. Response B" ++ nl ++ u "2. Response A"))
     = [u "Response B"; u "Response A"].
Proof.
  apply (@final_section_decides
           (u "1. Response C is weak. Response A is good." ++ nl)
           (nl ++ u "1. Response B" ++ nl ++ u "2. Response A")
           [u "Response B"; u "Response A"]).
  - vm_compute. reflexivity.
  - vm_compute. reflexivity.
Defined.

(** * Evaluators that agree *)

Section SortedUnique.

Variable A : Type.
Variable key : A -> Z.

Lemma sorted_perm_unique : forall l1 l2 : list A,
  StronglySorted (fun a b => (key a <= key b)%Z) l1 ->
  StronglySorted (fun a b => (key a < key b)%Z) l2 ->
  Permutation l1 l2 -> l1 = l2.
Proof.
  induction l1 as [|a l1 IH]; intros l2 S1 S2 P.
  - apply Permutation_nil in P. now subst.
  - destruct l2 as [|b l2];
      [apply Permutation_sym, Permutation_nil in P; discriminate|].
    inversion S1 as [|? ? S1' F1]; subst.
    inversion S2 as [|? ? S2' F2]; subst.
    rewrite Forall_forall in F1, F2.
    assert (E : a = b).
    { assert (Ia : In a (b :: l2))
        by (apply (Permutation_in _ P); now left).
      assert (Ib : In b (a :: l1))
        by (apply (Permutation_in _ (Permutation_sym P)); now left).
      destruct Ia as [Ea|Ia]; [now symmetry|].
      destruct Ib as [Eb|Ib]; [assumption|].
      specialize (F1 _ Ib). specialize (F2 _ Ia). lia. }
    subst b. f_equal. apply IH; auto.
    now apply Permutation_cons_inv in P.
Qed.

End SortedUnique.

Lemma filed_from_range labelToModel : forall labels i m r,
  In (m, r) (filed_from labelToModel labels i) ->
  (i + 1 <= r <= i + Z.of_nat (length labels))%Z.
Proof.
  induction labels as [|label labels IH]; intros i m r H; [destruct H|].
  cbn [filed_from] in H. cbn [length]. rewrite Nat2Z.inj_succ.
  destruct (truthy_model labelToModel label).
  - destruct H as [E|H]; [inversion E; lia|].
    specialize (IH _ _ _ H). lia.
  - specialize (IH _ _ _ H). lia.
Qed.

Lemma filed_from_sorted labelToModel : forall labels i,
  StronglySorted Z.lt (map snd (filed_from labelToModel labels i)).
Proof.
  induction labels as [|label labels IH]; intros i; [constructor|].
  cbn [filed_from]. destruct (truthy_model labelToModel label); [|apply IH].
  cbn [map snd]. constructor; [apply IH|].
  apply Forall_forall. intros r Hr. apply in_map_iff in Hr as ([m r'] & <- & H).
  apply filed_from_range in H. cbn [snd]. lia.
Qed.

Lemma ranks_in_unique : forall evs m r,
  NoDup (map fst evs) -> In (m, r) evs -> ranks_in evs m = [r].
Proof.
  induction evs as [|[m0 r0] evs IH]; intros m r Hn H; [destruct H|].
  cbn [map fst] in Hn. inversion Hn as [|? ? Hm0 Hn']; subst.
  cbn [ranks_in filter fst map]. unfold ranks_in. cbn [filter fst].
  destruct H as [E|H].
  - inversion E; subst. rewrite str_eqb_refl. cbn [map snd]. f_equal.
    fold (ranks_in evs m). apply ranks_in_absent. exact Hm0.
  - destruct (str_eqb m0 m) eqn:E.
    + apply str_eqb_eq in E. subst m0. exfalso. apply Hm0.
      apply in_map_iff. now exists (m, r).
    + fold (ranks_in evs m). now apply IH.
Qed.

Lemma ranks_of_agreed labelToModel labels m : forall rankings,
  Forall (fun r => parsed_ranking r = labels) rankings ->
  ranks_of labelToModel rankings m
  = flat_map (fun _ => ranks_in (filed_from labelToModel labels 0) m) rankings.
Proof.
  intros rankings.
  induction rankings as [|r rs IH]; intros H; [reflexivity|].
  pose proof (Forall_inv H) as Hr. pose proof (Forall_inv_tail H) as Hrs.
  cbv beta in Hr. unfold ranks_of in *. cbn [flat_map]. rewrite (IH Hrs). f_equal.
  rewrite Hr. symmetry. apply (@filed_from_ranks labelToModel m labels 0).
Qed.

Lemma flat_map_const A (x : Z) : forall l : list A,
  Forall (eq x) (flat_map (fun _ => [x]) l)
  /\ length (flat_map (fun _ => [x]) l) = length l.
Proof.
  induction l as [|y l [IH1 IH2]]; [split; [constructor | reflexivity]|].
  cbn [flat_map app length]. split; [now constructor | now rewrite IH2].
Qed.

Lemma counted_agreed labelToModel labels m : forall rankings,
  rankings <> [] ->
  Forall (fun r => parsed_ranking r = labels) rankings ->
  (In m (counted labelToModel rankings) <-> In m (resolved labelToModel labels)).
Proof.
  intros rankings Hne H. unfold counted. rewrite in_flat_map. split.
  - intros (r & Hr & Hm). rewrite Forall_forall in H. now rewrite (H _ Hr) in Hm.
  - intros Hm. destruct rankings as [|r rs]; [congruence|].
    exists r. split; [now left|]. pose proof (Forall_inv H) as Hr.
    cbv beta in Hr. now rewrite Hr.
Qed.

Lemma scaled_sorted k : forall F : list (jstr * Z),
  StronglySorted Z.lt (map snd F) ->
  StronglySorted (fun a b => (average_rank a < average_rank b)%Z)
    (map (fun e => {| ag_model := fst e; average_rank := 100 * snd e;
                      rankings_count := k |}) F).
Proof.
  induction F as [|e F IH]; intros S; [constructor|].
  cbn [map] in *. inversion S as [|? ? S' Fa]; subst.
  constructor; [now apply IH|].
  rewrite Forall_map. rewrite Forall_map in Fa.
  eapply Forall_impl; [|exact Fa]. intros x Hx. cbv beta in Hx.
  cbn [average_rank]. lia.
Qed.

(** X23.  When every evaluation has the same parse, with no repeated model,
    at most 26 labels and at most 60 evaluations, the output reproduces that
    ranking: one entry for each label that resolves to a model, in the order
    of the parse, whose [average_rank] is exactly the position of the label
    (counted from 1) and whose [rankings_count] is the number of
    evaluations.  With one evaluation, this is the ranking of a single
    ranker. *)
Theorem agreed_ranking_is_reproduced (rankings : list Stage2Ranking)
  (labels : list jstr) (labelToModel : obj jstr) :
  rankings <> [] ->
  length rankings <= 60 ->
  length labels <= 26 ->
  Forall (fun r => parsed_ranking r = labels) rankings ->
  NoDup (resolved labelToModel labels) ->
  forallb (fun m => negb (inherited m)) (resolved labelToModel labels) = true ->
  calculateAggregateRankings rankings labelToModel
  = Returns
      (map (fun e => {| ag_model := fst e;
                        average_rank := 100 * snd e;
                        rankings_count := length rankings |})
           (filed_from labelToModel labels 0)).
Proof.
  intros Hne Hk Hl Hsame Hnd Hclean.
  set (F := filed_from labelToModel labels 0).
  assert (RF : map fst F = resolved labelToModel labels)
    by apply filed_from_models.
  set (target := fun e : jstr * Z =>
                   {| ag_model := fst e; average_rank := (100 * snd e)%Z;
                      rankings_count := length rankings |}).
  assert (Hin : forall m, In m (ranked_models labelToModel rankings)
                          <-> In m (resolved labelToModel labels)).
  { intros m. unfold ranked_models. rewrite keep_firsts_In.
    now apply counted_agreed. }
  assert (C : clean (filed labelToModel rankings) = true).
  { rewrite clean_models. apply forallb_forall. intros m Hm.
    rewrite forallb_forall in Hclean. now apply Hclean, Hin. }
  rewrite (calculate_returns _ _ C). f_equal.
  assert (En : forall e, In e F ->
            entry_of labelToModel rankings (fst e) = target e).
  { intros [m r] He. unfold entry_of, target. cbn [fst snd].
    rewrite (ranks_of_agreed labelToModel m Hsame).
    fold F. rewrite (@ranks_in_unique F m r) by (rewrite ?RF; assumption).
    destruct (flat_map_const r rankings) as [Hall Hlen].
    pose proof (@filed_from_range labelToModel labels 0 m r He) as Hr.
    rewrite Hlen. f_equal.
    apply average_same; [|lia| lia |exact Hall].
    destruct rankings; [congruence | discriminate]. }
  apply (@sorted_perm_unique _ average_rank).
  - apply (sort_strongly_sorted average_rank).
  - apply scaled_sorted, filed_from_sorted.
  - rewrite (sort_perm average_rank).
    rewrite (key_order_perm (ranked_models labelToModel rankings)).
    assert (P : Permutation (ranked_models labelToModel rankings) (map fst F)).
    { apply NoDup_Permutation; [apply keep_firsts_NoDup | now rewrite RF|].
      intros m. rewrite RF. apply Hin. }
    rewrite (Permutation_map (entry_of labelToModel rankings) P).
    rewrite map_map.
    rewrite (map_ext_in _ _ F En). apply Permutation_refl.
Qed.

(** The theorem on the single ranker of the test suite. *)
Lemma agreed_ranking_is_reproduced_witness :
  calculateAggregateRankings
    [ ranking_of [u "Response B"; u "Response A"] ] two_labels
  = Returns
      (map (fun e => {| ag_model := fst e;
                        average_rank := 100 * snd e;
                        rankings_count := 1 |})
           (filed_from two_labels [u "Response B"; u "Response A"] 0)).
Proof.
  apply (@agreed_ranking_is_reproduced
           [ ranking_of [u "Response B"; u "Response A"] ]
           [u "Response B"; u "Response A"] two_labels).
  - discriminate.
  - simpl. lia.
  - simpl. lia.
  - repeat constructor.
  - apply NoDup_cons; [simpl; intros [F|[]]; discriminate F|].
    apply NoDup_cons; [intros [] | apply NoDup_nil].
  - reflexivity.
Defined.
